(** * woelt-dev: landscape-fragmentation helpers

    A shallow embedding of three functions of the repository,
      - [merge_features]  (src/utils/process.py),
      - [to_centroids]    (src/utils/convert.py),
      - [meff]            (src/utils/calculate.py),
    together with the properties the specification states about them,
    followed by further properties of these functions and of
      - [get_layers]        (src/utils/ioer.py),
      - [download_layers]   (src/utils/ioer.py),
      - [rescale_align]     (src/utils/convert.py),
      - [multiplot_raster]  (src/utils/plot.py),
      - [to_postgis]        (src/processing/db.py).

    Conventions of the embedding.
      - Python exceptions are values of [exn]; a function that may raise
        returns a [result].
      - A pandas table is a [DataFrame]: ordered column labels and ordered
        rows, each row carrying its index label.
      - Python floats are idealised as exact rationals ([Q]); a division by
        a zero float raises [ZeroDivisionError], as in Python.  Where the
        rounding of an operation decides what a function returns (the
        extent of the grid of [rescale_align]), the operation is modelled
        with its rounding as well.
      - Integer rasters keep their dtype: sums wrap around as numpy's do.
      - The libraries behave as the versions the code is written for do
        (pandas 1.x: [Series.append] exists and returns a new series, a
        join may return two columns of the same label).
      - What a function asks of the file system or of a library that
        computes on rasters (reprojection, reading, drawing) is a variable
        of the section that embeds the function. *)

From Stdlib Require Import QArith Qfield Qround Qabs Qpower Lqa ZArith Lia.
From Stdlib Require Import Permutation Ascii.
From stdpp Require Import gmap strings list sorting.

Open Scope string_scope.
Open Scope list_scope.
Open Scope nat_scope.

(** ** Exceptions and results *)

Inductive exn : Type :=
  | TypeError
  | IndexError
  | KeyError
  | ValueError
  | AttributeError
  | NameError
  | ZeroDivisionError.

Inductive result (A : Type) : Type :=
  | OK (a : A)
  | Raise (e : exn).
Arguments OK {A} a.
Arguments Raise {A} e.

Definition rbind {A B} (r : result A) (k : A → result B) : result B :=
  match r with
  | OK a => k a
  | Raise e => Raise e
  end.

Notation "x ←! r ; k" := (rbind r (fun x => k))
  (at level 20, r at level 100, k at level 200, right associativity,
   format "x  ←!  r ;  '/' k").

(** ** Tables *)

Record DataFrame (V : Type) : Type := mkDF {
  columns : list string;
  rows : list (Z * list V)
}.
Arguments mkDF {V} columns rows.
Arguments columns {V} d.
Arguments rows {V} d.

(** Position of the first column carrying a label. *)
Definition col_pos (c : string) (cols : list string) : option nat :=
  fst <$> list_find (λ x, x = c) cols.

(** [row[c]]: the cell of a row under the first column labelled [c]. *)
Definition cell {V} (cols : list string) (c : string) (r : list V) : option V :=
  p ← col_pos c cols; r !! p.

(** Number of columns carrying a label. *)
Definition label_count (c : string) (cols : list string) : nat :=
  length (filter (λ x, x = c) cols).

(** A table is rectangular: every row has one cell per column. *)
Definition df_wf {V} (df : DataFrame V) : Prop :=
  Forall (λ r, length r.2 = length (columns df)) (rows df).

(** [s.endswith(suf)] *)
Fixpoint ends_with (suf s : string) : bool :=
  String.eqb s suf ||
  match s with
  | EmptyString => false
  | String _ s' => ends_with suf s'
  end.

(** [set(df.columns)] *)
Definition col_set {V} (df : DataFrame V) : gset string :=
  list_to_set (columns df).

(** Keep the entries of [xs] whose companion label passes the test. *)
Fixpoint select_by {A} (keep : string → bool) (cols : list string) (xs : list A)
  : list A :=
  match cols, xs with
  | c :: cols', x :: xs' =>
      if keep c then x :: select_by keep cols' xs' else select_by keep cols' xs'
  | _, _ => []
  end.

(** [df.drop(columns=labels)]: every column carrying one of the labels is
    removed; a label that is not a column raises [KeyError]. *)
Definition drop_columns {V} (labels : gset string) (df : DataFrame V)
  : result (DataFrame V) :=
  if decide (labels ⊆ col_set df) then
    let keep := λ c, bool_decide (c ∉ labels) in
    OK (mkDF (select_by keep (columns df) (columns df))
             (prod_map id (select_by keep (columns df)) <$> rows df))
  else Raise KeyError.

(** ** [pd.merge(left, right, on=key)], the default inner join *)

Section Merge.
Context {V : Type} `{EqDecision V}.

(** The join key must label exactly one column of a frame. *)
Definition key_pos (key : string) (df : DataFrame V) : result nat :=
  match col_pos key (columns df) with
  | None => Raise KeyError
  | Some p =>
      if decide (label_count key (columns df) = 1)
      then OK p else Raise ValueError
  end.

(** Labels present on both sides receive the suffixes [_x] and [_y]. *)
Definition suffixed (overlap : list string) (suffix : string) (c : string)
  : string :=
  if decide (c ∈ overlap) then c +:+ suffix else c.

Definition without {A} (p : nat) (l : list A) : list A :=
  take p l ++ drop (S p) l.

(** Remove position [p] when [b] holds. *)
Definition drop_key {A} (b : bool) (p : nat) (l : list A) : list A :=
  if b then without p l else l.

(** The values of a list in the order in which they first occur. *)
Definition first_seen {A} `{EqDecision A} (l : list A) : list A :=
  reverse (remove_dups (reverse l)).

(** The rows of the left frame in the order in which the join yields
    them: grouped by key, the keys in the order of their first row, the
    rows of a key in their own order.  Where no key repeats this is the
    order of the frame. *)
Definition grouped (p : nat) (rs : list (Z * list V)) : list (Z * list V) :=
  k ← first_seen ((λ r, r.2 !! p) <$> rs);
  filter (λ r, r.2 !! p = k) rs.

(** The key column of the result comes from the left frame, except when
    the left frame has no row: then the left key column is dropped and
    the right one kept. *)
Definition pd_merge (left right : DataFrame V) (key : string)
  : result (DataFrame V) :=
  lk ←! key_pos key left;
  rk ←! key_pos key right;
  let left_empty := bool_decide (rows left = []) in
  let lcols := drop_key left_empty lk (columns left) in
  let rcols := drop_key (negb left_empty) rk (columns right) in
  let overlap := filter (λ c, c ∈ rcols) lcols in
  let joined :=
    l ← grouped lk (rows left);
    r ← filter (λ r, l.2 !! lk = r.2 !! rk) (rows right);
    [drop_key left_empty lk l.2 ++ drop_key (negb left_empty) rk r.2] in
  OK (mkDF ((suffixed overlap "_x" <$> lcols) ++ (suffixed overlap "_y" <$> rcols))
           (zip (Z.of_nat <$> seq 0 (length joined)) joined)).

(** The [while len(lst) > 0] loop; [pending] lists the remaining frames
    in the order [lst.pop()] yields them. *)
Fixpoint merge_loop (cols_duplicate : gset string) (merge_on : string)
    (gdf : DataFrame V) (pending : list (DataFrame V))
  : result (DataFrame V) :=
  match pending with
  | [] => OK gdf
  | gdf_append :: pending' =>
      gdf_append ←! drop_columns cols_duplicate gdf_append;
      gdf ←! pd_merge gdf gdf_append merge_on;
      merge_loop cols_duplicate merge_on gdf pending'
  end.

(** [set.intersection] applied to the unpacked list of column sets;
    without argument it raises. *)
Definition set_intersection (sets : list (gset string)) : result (gset string) :=
  match sets with
  | [] => Raise TypeError
  | s :: ss => OK (foldl (∩) s ss)
  end.

(** The labels [merge_features] drops from the later frames. *)
Definition duplicate_columns (lst : list (DataFrame V))
    (ignore_duplicates : bool) (merge_on : string) : result (gset string) :=
  if ignore_duplicates then
    cols_common ←! set_intersection (col_set <$> lst);
    OK (cols_common ∖ {[merge_on]})
  else OK ∅.

Definition merge_features (lst : list (DataFrame V))
    (ignore_duplicates : bool) (merge_on : string) : result (DataFrame V) :=
  let lst := reverse lst in
  cols_duplicate ←! duplicate_columns lst ignore_duplicates merge_on;
  (* a Python list pops from its end *)
  match reverse lst with
  | [] => Raise IndexError
  | gdf :: pending => merge_loop cols_duplicate merge_on gdf pending
  end.
End Merge.

(** The relation the merge loop maintains between the first frame of the
    list and the frame accumulated so far: the label [c] is carried as often
    as in the first frame, and every accumulated row extends a row of the
    first frame and shows that row's cell under [c]. *)
Definition extends_first {V} (first gdf : DataFrame V) (c : string) : Prop :=
  label_count c (columns gdf) = label_count c (columns first) ∧
  df_wf gdf ∧
  ∀ r, r ∈ rows gdf →
    ∃ r1, r1 ∈ rows first ∧
      take (length (columns first)) r.2 = r1.2 ∧
      cell (columns gdf) c r.2 = cell (columns first) c r1.2.

(** ** A worked example of [merge_features] *)

Module MergeExample.
Definition t1 : DataFrame Z :=
  mkDF ["cellcode"; "a_y"; "a"] [(0, [1; 10; 100]); (1, [2; 20; 200])]%Z.
Definition t2 : DataFrame Z :=
  mkDF ["cellcode"; "a_y"] [(0, [1; 12]); (1, [2; 22])]%Z.
Definition t3 : DataFrame Z :=
  mkDF ["cellcode"; "a_y"; "a"] [(0, [1; 11; 101]); (1, [2; 21; 201])]%Z.

Definition u1 : DataFrame Z :=
  mkDF ["cellcode"; "name"; "pop"] [(0, [1; 10; 100]); (1, [2; 20; 200])]%Z.
Definition u2 : DataFrame Z :=
  mkDF ["name"; "cellcode"; "area"] [(5, [11; 2; 7]); (6, [12; 1; 8])]%Z.
End MergeExample.

(** ** Rasters and [to_centroids] *)

(** The fixed-width integer types of a raster band; numpy's arithmetic on
    them wraps around. *)
Inductive dtype : Type :=
  | UInt (bits : positive)
  | SInt (bits : positive).

Definition uint8 : dtype := UInt 8.
Definition int16 : dtype := SInt 16.

Definition wrap (dt : dtype) (z : Z) : Z :=
  match dt with
  | UInt w => z mod 2 ^ Z.pos w
  | SInt w => (z + 2 ^ (Z.pos w - 1)) mod 2 ^ Z.pos w - 2 ^ (Z.pos w - 1)
  end%Z.

Definition in_range (dt : dtype) (z : Z) : Prop := wrap dt z = z.

(** The array [src.read()] returns: shape [(n_bands, n_rows, n_cols)]. *)
Record ndarray : Type := mkArr {
  arr_dtype : dtype;
  n_bands : nat;
  n_rows : nat;
  n_cols : nat;
  item : nat → nat → nat → Z
}.

(** The affine geotransform: [(x, y) = (a*col + b*row + c, d*col + e*row + f)]. *)
Record affine : Type := mkAffine {
  af_a : Q; af_b : Q; af_c : Q;
  af_d : Q; af_e : Q; af_f : Q
}.

Record dataset : Type := mkDataset {
  ds_array : ndarray;
  ds_transform : affine;
  ds_crs : option Z
}.

(** [src.xy(r, c, offset='center')] *)
Definition xy (src : dataset) (r c : nat) : Q * Q :=
  let t := ds_transform src in
  let col := (inject_Z (Z.of_nat c) + (1 # 2))%Q in
  let row := (inject_Z (Z.of_nat r) + (1 # 2))%Q in
  (af_a t * col + af_b t * row + af_c t,
   af_d t * col + af_e t * row + af_f t)%Q.

Arguments xy : simpl never.

(** [crs.to_epsg()] on a dataset or table without reference system fails. *)
Definition to_epsg (crs : option Z) : result Z :=
  match crs with
  | Some code => OK code
  | None => Raise AttributeError
  end.

(** Python's [sum(arr)] over the first axis: [0 + arr[0] + arr[1] + ...],
    each addition in the dtype of the array. *)
Definition band_sum (arr : ndarray) (r c : nat) : Z :=
  foldl (λ acc i, wrap (arr_dtype arr) (acc + item arr i r c)) 0%Z
        (seq 0 (n_bands arr)).

(** The sum of the first [k] bands as an integer, without wrap-around. *)
Definition exact_sum (arr : ndarray) (r c k : nat) : Z :=
  foldl (λ acc i, acc + item arr i r c)%Z 0%Z (seq 0 k).

(** [sum(arr) == nodata]: an array of booleans, or a bare boolean when the
    array has no band (the sum is then the integer 0). *)
Inductive nodata_mask : Type :=
  | MaskScalar (b : bool)
  | MaskArray (m : nat → nat → bool).

Definition sum_eq_nodata (arr : ndarray) (nodata : Z) : nodata_mask :=
  match n_bands arr with
  | O => MaskScalar (bool_decide (0%Z = nodata))
  | S _ => MaskArray (λ r c, bool_decide (band_sum arr r c = nodata))
  end.

(** [mask[r, c]] *)
Definition mask_at (m : nodata_mask) (r c : nat) : result bool :=
  match m with
  | MaskScalar _ => Raise TypeError
  | MaskArray f => OK (f r c)
  end.

(** The accumulators of the pixel loop. *)
Record collected : Type := mkCollected {
  xs : list Q;
  ys : list Q;
  properties : list (list Z)
}.

(** The table of points returned: the point geometries and one column
    [b1], [b2], ... per band. *)
Record PointFrame : Type := mkPF {
  pf_crs : Z;
  pf_geometry : list (Q * Q);
  pf_bands : list (list Z)
}.

(** [for m in items: st = body(st, m)], stopping at the first exception. *)
Fixpoint for_each {S A} (items : list A) (body : S → A → result S) (st : S)
  : result S :=
  match items with
  | [] => OK st
  | m :: items' => st' ←! body st m; for_each items' body st'
  end.

Section ToCentroids.
(** [GeoSeries.to_crs]: reprojection of a point between two EPSG codes. *)
Variable reproject_point : Z → Z → Q * Q → Q * Q.

(** [for i in range(bands): properties[i].append(arr[i][r][c])] *)
Definition append_bands (arr : ndarray) (r c : nat) (props : list (list Z))
  : list (list Z) :=
  foldl (λ props i, alter (λ l, l ++ [item arr i r c]) i props) props
        (seq 0 (n_bands arr)).

Definition visit_pixel (src : dataset) (mask : nodata_mask) (r : nat)
    (st : collected) (c : nat) : result collected :=
  masked ←! mask_at mask r c;
  if negb masked then
    let '(x, y) := xy src r c in
    OK (mkCollected (xs st ++ [x]) (ys st ++ [y])
                    (append_bands (ds_array src) r c (properties st)))
  else OK st.

Definition to_centroids (src : dataset) (nodata : Z) (to_crs : option Z)
  : result PointFrame :=
  let arr := ds_array src in
  let bands := n_bands arr in
  let rows := seq 0 (n_rows arr) in
  let cols := seq 0 (n_cols arr) in
  crs ←! to_epsg (ds_crs src);
  let mask := sum_eq_nodata arr nodata in
  let st := mkCollected [] [] (replicate bands []) in
  st ←! for_each rows (λ st r, for_each cols (visit_pixel src mask r) st) st;
  let points := zip (xs st) (ys st) in
  let '(crs', points) :=
    match to_crs with
    | Some code => (code, reproject_point crs code <$> points)
    | None => (crs, points)
    end in
  OK (mkPF crs' points (properties st)).

(** The pixels in the order the loop visits them. *)
Definition pixels (arr : ndarray) : list (nat * nat) :=
  r ← seq 0 (n_rows arr); c ← seq 0 (n_cols arr); [(r, c)].

(** The pixels whose sum over the bands differs from [nodata]. *)
Definition kept_pixels (arr : ndarray) (nodata : Z) : list (nat * nat) :=
  filter (λ p, band_sum arr p.1 p.2 ≠ nodata) (pixels arr).
End ToCentroids.

(** The accumulators of the pixel loop once the pixels [sel] are appended. *)
Definition collected_of (src : dataset) (sel : list (nat * nat)) : collected :=
  let arr := ds_array src in
  mkCollected ((λ p, (xy src p.1 p.2).1) <$> sel)
              ((λ p, (xy src p.1 p.2).2) <$> sel)
              ((λ i, (λ p, item arr i p.1 p.2) <$> sel) <$> seq 0 (n_bands arr)).

Module RasterExample.
Definition of_lists (l : list (list (list Z))) (i r c : nat) : Z :=
  default 0%Z (row ← (band ← l !! i; band !! r); row !! c).

(** Two bands of one row and four pixels. *)
Definition arr : ndarray :=
  mkArr uint8 2 1 4 (of_lists [[[128; 0; 2; 0]]; [[128; 7; 3; 0]]]%Z).

Definition src : dataset :=
  mkDataset arr (mkAffine 10 0 100 0 (-10) 200) (Some 3035%Z).
End RasterExample.

(** ** Geometries *)

(** Bounding boxes [(minx, miny, maxx, maxy)]. *)
Definition bbox : Type := Q * Q * Q * Q.

Definition bbox_intersects (b1 b2 : bbox) : bool :=
  let '(minx1, miny1, maxx1, maxy1) := b1 in
  let '(minx2, miny2, maxx2, maxy2) := b2 in
  Qle_bool minx1 maxx2 && Qle_bool minx2 maxx1 &&
  Qle_bool miny1 maxy2 && Qle_bool miny2 maxy1.

(** The positions of the boxes that meet a query box, in ascending
    order. *)
Definition hits (boxes : list bbox) (q : bbox) : list nat :=
  fst <$> filter (λ ib, bbox_intersects ib.2 q = true)
                 (zip (seq 0 (length boxes)) boxes).

(** The operations [meff] calls in shapely, geopandas and the spatial
    index. *)
Class Geometry : Type := {
  geom : Type;
  (** [g.area] *)
  area : geom → Q;
  (** [g.bounds] *)
  bounds : geom → bbox;
  (** [a.intersects(b)] *)
  intersects : geom → geom → bool;
  (** [a.intersection(b)] *)
  intersection : geom → geom → geom;
  (** [g.boundary] *)
  boundary_of : geom → geom;
  (** [GeoDataFrame.unary_union] *)
  unary_union : list geom → geom;
  (** [shapely.ops.polygonize_full]: polygons, dangles, cuts, invalids *)
  polygonize_full : list geom → geom * geom * geom * geom;
  (** the single parts of a collection, as [explode] lists them *)
  parts : geom → list geom;
  (** [sindex.intersection(box)] on an index built over the given boxes:
      positions of the boxes the query box meets *)
  sindex_intersection : list bbox → bbox → list nat
}.

(** What the libraries guarantee about these operations. *)
Class GeometryLaws (G : Geometry) : Prop := {
  area_nonneg : ∀ g : geom, (0 <= area g)%Q;
  intersects_bounds : ∀ a b : geom,
    intersects a b = true → bbox_intersects (bounds a) (bounds b) = true;
  sindex_intersection_spec : ∀ (boxes : list bbox) (q : bbox),
    sindex_intersection boxes q ≡ₚ hits boxes q
}.

(** ** Cells and geographic tables *)

Inductive value (G : Type) : Type :=
  | VInt (z : Z)
  | VFloat (q : Q)
  | VNaN
  | VStr (s : string)
  | VGeom (g : G).
Arguments VInt {G} z.
Arguments VFloat {G} q.
Arguments VNaN {G}.
Arguments VStr {G} s.
Arguments VGeom {G} g.

Record GeoDataFrame (G : Type) : Type := mkGDF {
  gdf_frame : DataFrame (value G);
  gdf_crs : option Z
}.
Arguments mkGDF {G} gdf_frame gdf_crs.
Arguments gdf_frame {G} g.
Arguments gdf_crs {G} g.

(** Write [v] into every cell of a row that stands under a column [c]. *)
Fixpoint set_cols {V} (c : string) (v : V) (cols : list string) (vs : list V)
  : list V :=
  match cols, vs with
  | c' :: cols', x :: vs' =>
      (if decide (c' = c) then v else x) :: set_cols c v cols' vs'
  | _, _ => vs
  end.

(** [df[c] = v] with a scalar [v]: the column is overwritten, or appended
    as the last column when the table has none of that label. *)
Definition setitem {V} (c : string) (v : V) (df : DataFrame V) : DataFrame V :=
  if decide (c ∈ columns df) then
    mkDF (columns df) (prod_map id (set_cols c v (columns df)) <$> rows df)
  else
    mkDF (columns df ++ [c]) (prod_map id (λ vs, vs ++ [v]) <$> rows df).

(** [df.at[label, c] = v] for a label and a column the table has: every row
    indexed by the label is written. *)
Definition at_set {V} (label : Z) (c : string) (v : V) (df : DataFrame V)
  : DataFrame V :=
  mkDF (columns df)
       ((λ r, if decide (r.1 = label)
              then (r.1, set_cols c v (columns df) r.2) else r) <$> rows df).

(** [float / float] *)
Definition py_div (a b : Q) : result Q :=
  if Qeq_bool b 0 then Raise ZeroDivisionError else OK (a / b)%Q.

(** [l.iloc[idx]] on a list: positions out of range raise [IndexError]. *)
Fixpoint iloc {A} (l : list A) (idx : list nat) : result (list A) :=
  match idx with
  | [] => OK []
  | i :: idx' =>
      match l !! i with
      | None => Raise IndexError
      | Some x => xs ←! iloc l idx'; OK (x :: xs)
      end
  end.

(** Objects live in a store; a Python variable holds a reference. *)
Definition loc : Type := nat.

(** ** [meff] *)

Section Meff.
Context {G : Geometry}.

Local Abbreviation Frame := (DataFrame (value geom)).
Local Abbreviation heap := (gmap loc (GeoDataFrame geom)).

(** [Series.append] returns a new series and leaves its operands as they
    are. *)
Definition series_append (s other : list geom) : list geom := s ++ other.

(** The fragments: the polygons the unioned lines close. *)
Definition polygonized (lines : list geom) : list geom :=
  let lines := [unary_union lines] in
  let '(result, dangles, cuts, invalids) := polygonize_full lines in
  let lines_polygonized := [result] in
  lines_polygonized ≫= parts.

(** [cell.geometry] of a row yielded by [itertuples]. *)
Definition cell_geometry (cols : list string) (row : list (value geom))
  : result geom :=
  match cell cols "geometry" row with
  | Some (VGeom g) => OK g
  | _ => Raise AttributeError
  end.

(** [fragments_sum] after the inner loop. *)
Definition fragments_sum (fragments : list geom) (g : geom) : Q :=
  foldl (λ acc fragment,
           let intersection := intersection fragment g in
           let ai := area intersection in
           let acmpl := area fragment in
           (acc + ai * acmpl)%Q)
        0%Q fragments.

(** The value the loop body computes for a cell of geometry [g]. *)
Definition cell_meff (patches : list geom) (patches_sindex : list bbox)
    (g : geom) : result Q :=
  let fragment_candidates_idx := sindex_intersection patches_sindex (bounds g) in
  fragment_candidates ←! iloc patches fragment_candidates_idx;
  let fragments := filter (λ f, intersects f g = true) fragment_candidates in
  meff ←! py_div (fragments_sum fragments g) (area g);
  (* convert to km2 *)
  OK (meff / 1000000)%Q.

(** The body of the loop over [mask.itertuples()], acting on the table
    [mask] refers to. *)
Definition meff_cell (patches : list geom) (patches_sindex : list bbox)
    (cols : list string) (mask : Frame) (cell : Z * list (value geom))
  : result Frame :=
  g ←! cell_geometry cols cell.2;
  meff ←! cell_meff patches patches_sindex g;
  OK (at_set cell.1 "meff" (VFloat meff) mask).

(** What the loop body does to the row of the cell it visits. *)
Definition row_done (patches : list geom) (patches_sindex : list bbox)
    (cols : list string) (row : Z * list (value geom))
  : result (Z * list (value geom)) :=
  g ←! cell_geometry cols row.2;
  meff ←! cell_meff patches patches_sindex g;
  OK (row.1, set_cols "meff" (VFloat meff) cols row.2).

(** The table [meff] builds from a copy of the table of the mask. *)
Definition meff_frame (lines : list geom) (frame : Frame) : result Frame :=
  let frame := setitem "meff" VNaN frame in
  let patches := polygonized lines in
  let patches_sindex := bounds <$> patches in
  for_each (rows frame) (meff_cell patches patches_sindex (columns frame)) frame.

Definition meff (lines boundary : list geom) (mask : loc) (h : heap)
  : result (loc * heap) :=
  match h !! mask with
  | None => Raise NameError
  | Some m =>
      crs ←! to_epsg (gdf_crs m);
      (* mask = mask.copy() *)
      let mask := fresh (dom h) in
      let h := <[mask := m]> h in
      (* mask['meff'] = np.nan *)
      let h := alter (λ m, mkGDF (setitem "meff" VNaN (gdf_frame m)) (gdf_crs m))
                     mask h in
      (* lines.geometry.append(boundary.boundary): the value is dropped *)
      let _ := series_append lines (boundary_of <$> boundary) in
      let patches := polygonized lines in
      let patches_sindex := bounds <$> patches in
      match h !! mask with
      | None => Raise NameError
      | Some m' =>
          let cells := rows (gdf_frame m') in
          let cols := columns (gdf_frame m') in
          h ←! for_each cells
                 (λ h cell,
                    match h !! mask with
                    | None => Raise NameError
                    | Some cur =>
                        frame ←! meff_cell patches patches_sindex cols
                                   (gdf_frame cur) cell;
                        OK (<[mask := mkGDF frame (gdf_crs cur)]> h)
                    end) h;
          OK (mask, h)
      end
  end.

(** *** The specification's formulas *)

Definition Qsum (l : list Q) : Q := foldr Qplus 0%Q l.

(** Region Aggregator, steps 2 to 5: the area-weighted sum over the
    fragments that intersect the region, divided by the area of the
    region, in square kilometres. *)
Definition meff_km2 (fragments : list geom) (R : geom) : Q :=
  let sum :=
    Qsum ((λ f, area (intersection f R) * area f)%Q <$>
          filter (λ f, intersects f R = true) fragments) in
  (sum / area R / 1000000)%Q.

(** Geometry Overlay Builder: the fragments closed by the lines of the
    network together with the ring of the boundary. *)
Definition overlay_spec (lines boundary : list geom) : list geom :=
  polygonized (lines ++ (boundary_of <$> boundary)).

(** The [meff] cell of the row a label identifies. *)
Definition meff_at (df : Frame) (label : Z) : option (value geom) :=
  r ← list_find (λ r, r.1 = label) (rows df);
  cell (columns df) "meff" r.2.2.

(** Every row of a table carries a geometry. *)
Definition has_geometries (df : Frame) : Prop :=
  ∀ r, r ∈ rows df →
    ∃ g, cell (columns df) "geometry" r.2 = Some (VGeom g).
End Meff.

(** [[f(x) for x in l]], stopping at the first exception. *)
Fixpoint mapM {A B} (f : A → result B) (l : list A) : result (list B) :=
  match l with
  | [] => OK []
  | x :: l' => y ←! f x; ys ←! mapM f l'; OK (y :: ys)
  end.

(** ** Geometries on a line

    A one-dimensional instance of the geometry interface, on which the
    model runs: a geometry is a finite collection of closed intervals
    [[a, b]] of a transect, a point being [[a, a]].  Barriers are points,
    fragments are the intervals between neighbouring barriers, and the
    "area" of a geometry is its total length. *)

Module Transect.
Definition geom1 : Type := list (Z * Z).

Definition length1 (i : Z * Z) : Z := Z.max 0 (i.2 - i.1).

Definition area1 (g : geom1) : Q :=
  inject_Z (foldr (λ i s, length1 i + s)%Z 0%Z g).

Definition lo (g : geom1) : Z :=
  foldr (λ i m, Z.min i.1 m) (hd (0, 0)%Z g).1 g.
Definition hi (g : geom1) : Z :=
  foldr (λ i m, Z.max i.2 m) (hd (0, 0)%Z g).2 g.

Definition bounds1 (g : geom1) : bbox :=
  (inject_Z (lo g), 0%Q, inject_Z (hi g), 0%Q).

Definition meets (i j : Z * Z) : bool :=
  ((i.1 <=? j.2) && (j.1 <=? i.2))%Z.

Definition intersects1 (a b : geom1) : bool :=
  existsb (λ i, existsb (meets i) b) a.

Definition intersection1 (a b : geom1) : geom1 :=
  i ← a; j ← filter (λ j, meets i j = true) b;
  [(Z.max i.1 j.1, Z.min i.2 j.2)].

Definition boundary1 (g : geom1) : geom1 :=
  i ← g; [(i.1, i.1); (i.2, i.2)].

Definition unary_union1 (gs : list geom1) : geom1 := concat gs.

Fixpoint neighbours (pts : list Z) : geom1 :=
  match pts with
  | a :: (b :: _) as rest => (a, b) :: neighbours rest
  | _ => []
  end.

(** The intervals between neighbouring end points. *)
Definition polygonize_full1 (gs : list geom1)
  : geom1 * geom1 * geom1 * geom1 :=
  let pts := concat gs ≫= (λ i, [i.1; i.2]) in
  (neighbours (merge_sort Z.le (remove_dups pts)), [], [], []).

Definition parts1 (g : geom1) : list geom1 := (λ i, [i]) <$> g.

#[global] Instance transect : Geometry := {|
  geom := geom1;
  area := area1;
  bounds := bounds1;
  intersects := intersects1;
  intersection := intersection1;
  boundary_of := boundary1;
  unary_union := unary_union1;
  polygonize_full := polygonize_full1;
  parts := parts1;
  sindex_intersection := hits
|}.

(** Two barriers at 2 and 4 inside the study area [[0, 10]]. *)
Definition lines : list geom1 := [[(2, 2)]; [(4, 4)]]%Z.
Definition boundary : list geom1 := [[(0, 10)]]%Z.

(** A mask of two regions, [[0, 10]] and [[3, 5]]. *)
Definition regions : DataFrame (value geom1) :=
  mkDF ["cellcode"; "geometry"]
       [(7, [VInt 1; VGeom [(0, 10)]]); (9, [VInt 2; VGeom [(3, 5)]])]%Z.

(** The same regions in the other order. *)
Definition regions_swapped : DataFrame (value geom1) :=
  mkDF ["cellcode"; "geometry"]
       [(9, [VInt 2; VGeom [(3, 5)]]); (7, [VInt 1; VGeom [(0, 10)]])]%Z.

(** A mask whose second region is a single point. *)
Definition degenerate : DataFrame (value geom1) :=
  mkDF ["cellcode"; "geometry"]
       [(7, [VInt 1; VGeom [(0, 10)]]); (9, [VInt 2; VGeom [(3, 3)]])]%Z.

(** The table [meff] returns for [regions]. *)
Definition regions_out : DataFrame (value geom1) :=
  mkDF ["cellcode"; "geometry"; "meff"]
       [(7%Z, [VInt 1; VGeom [(0, 10)%Z]; VFloat (4 # 10000000)]);
        (9%Z, [VInt 2; VGeom [(3, 5)%Z]; VFloat (2 # 2000000)])].

Definition store (m : DataFrame (value geom1)) : gmap loc (GeoDataFrame geom1) :=
  {[ 0 := mkGDF m (Some 3035%Z) ]}.
End Transect.

(** ** Auxiliary notions for the further properties of [meff] *)

Section MeffAux.
Context {G : Geometry}.

(** The value the loop computes for the cell it visits. *)
Definition region_value (patches : list geom) (patches_sindex : list bbox)
    (cols : list string) (cell : Z * list (value geom)) : result Q :=
  g ←! cell_geometry cols cell.2;
  cell_meff patches patches_sindex g.

(** The last of the visited cells that carries a label, with its value. *)
Definition last_labelled (label : Z)
    (visited : list ((Z * list (value geom)) * Q))
  : option ((Z * list (value geom)) * Q) :=
  last (filter (λ cv, cv.1.1 = label) visited).

(** The row a table holds after the loop has visited the cells. *)
Definition row_after (cols : list string)
    (visited : list ((Z * list (value geom)) * Q))
    (r : Z * list (value geom)) : Z * list (value geom) :=
  match last_labelled r.1 visited with
  | Some cv => (r.1, set_cols "meff" (VFloat cv.2) cols r.2)
  | None => r
  end.

(** The exception the loop body raises on a row, if it raises one: a row
    without geometry has no [cell.geometry], a geometry without area
    cannot be divided by. *)
Definition row_failure (cols : list string) (r : Z * list (value geom))
  : option exn :=
  match cell cols "geometry" r.2 with
  | Some (VGeom g) =>
      if Qeq_bool (area g) 0 then Some ZeroDivisionError else None
  | _ => Some AttributeError
  end.
End MeffAux.

(** Masks on the transect that the loop treats in a particular way. *)
Module TransectMasks.
(** Two regions under the same index label. *)
Definition shared_label : DataFrame (value Transect.geom1) :=
  mkDF ["cellcode"; "geometry"]
       [(7, [VInt 1; VGeom [(0, 10)]]); (7, [VInt 2; VGeom [(3, 5)]])]%Z.

(** The table [meff] returns for [shared_label]. *)
Definition shared_label_out : DataFrame (value Transect.geom1) :=
  mkDF ["cellcode"; "geometry"; "meff"]
       [(7%Z, [VInt 1; VGeom [(0, 10)%Z]; VFloat (2 # 2000000)]);
        (7%Z, [VInt 2; VGeom [(3, 5)%Z]; VFloat (2 # 2000000)])].

(** A row without geometry before a region that is a single point. *)
Definition broken : DataFrame (value Transect.geom1) :=
  mkDF ["cellcode"; "geometry"]
       [(7, [VInt 1; VGeom [(0, 10)]]); (8, [VInt 2; VNaN]);
        (9, [VInt 3; VGeom [(3, 3)]])]%Z.
End TransectMasks.

(** ** Auxiliary notions for the further properties of [to_centroids] *)

(** The table of points for a selection of pixels: their centres, moved to
    the target reference system when one is asked for, and their values
    band by band. *)
Definition centroids_of (reproject_point : Z → Z → Q * Q → Q * Q)
    (src : dataset) (epsg : Z) (to_crs : option Z) (sel : list (nat * nat))
  : PointFrame :=
  let points := (λ p, xy src p.1 p.2) <$> sel in
  mkPF (default epsg to_crs)
       (match to_crs with
        | Some code => reproject_point epsg code <$> points
        | None => points
        end)
       ((λ i, (λ p, item (ds_array src) i p.1 p.2) <$> sel) <$>
          seq 0 (n_bands (ds_array src))).

(** A pixel holds a value other than 0 in some band. *)
Definition some_band_nonzero (arr : ndarray) (p : nat * nat) : Prop :=
  Exists (λ i, item arr i p.1 p.2 ≠ 0%Z) (seq 0 (n_bands arr)).

#[global] Instance some_band_nonzero_dec arr p :
  Decision (some_band_nonzero arr p).
Proof. unfold some_band_nonzero. apply _. Defined.

Module RasterMore.
(** Two [uint8] bands of one row and three pixels, without overflow. *)
Definition arr : ndarray :=
  mkArr uint8 2 1 3 (RasterExample.of_lists [[[0; 0; 5]]; [[0; 7; 0]]]%Z).

Definition src : dataset :=
  mkDataset arr (mkAffine 10 0 100 0 (-10) 200) (Some 3035%Z).

(** One [uint8] band of one row and four pixels. *)
Definition single : ndarray :=
  mkArr uint8 1 1 4 (RasterExample.of_lists [[[0; 3; 0; 9]]]%Z).

Definition src_single : dataset :=
  mkDataset single (mkAffine 10 0 100 0 (-10) 200) (Some 3035%Z).
End RasterMore.

(** ** Layer names and [get_layers] (src/utils/ioer.py) *)

(** [s.split(sep)] for a separator of one character: the pieces between
    the occurrences of the separator, at least one piece. *)
Fixpoint split_on (sep : Ascii.ascii) (s : string) : list string :=
  match s with
  | EmptyString => [EmptyString]
  | String a s' =>
      if decide (a = sep) then EmptyString :: split_on sep s'
      else
        match split_on sep s' with
        | [] => [String a EmptyString]
        | piece :: pieces => String a piece :: pieces
        end
  end.

(** [l[-1]] *)
Definition index_last {A} (l : list A) : result A :=
  match last l with
  | Some x => OK x
  | None => Raise IndexError
  end.

(** [l[i]] *)
Definition index {A} (l : list A) (i : nat) : result A :=
  match l !! i with
  | Some x => OK x
  | None => Raise IndexError
  end.

(** The default of the parameter [resolutions]. *)
Definition default_resolutions : list string :=
  ["500m"; "1000m"; "5000m"; "10000m"].

(** [wcs.contents] is an ordered dictionary from the names of the layers
    to their descriptions; [get_layers] walks its keys. *)
Definition get_layers {C} (contents : list (string * C))
    (resolutions : list string) : result (list string) :=
  for_each (contents.*1)
    (λ layers layer,
       res ←! index_last (split_on "_"%char layer);
       if decide (res ∈ resolutions) then OK (layers ++ [layer])
       else OK layers)
    [].

(** The test of the loop: the piece after the last underscore of the name
    is one of the resolutions. *)
Definition selected (resolutions : list string) (layer : string) : Prop :=
  ∃ res, last (split_on "_"%char layer) = Some res ∧ res ∈ resolutions.

#[global] Instance selected_dec resolutions layer :
  Decision (selected resolutions layer).
Proof.
  unfold selected.
  destruct (last (split_on "_"%char layer)) as [res|].
  - destruct (decide (res ∈ resolutions)) as [Hin|Hout].
    + left. eauto.
    + right. intros (res' & [= <-] & Hin). done.
  - right. intros (res' & [=] & _).
Defined.

(** [sep in s] *)
Fixpoint has_char (sep : Ascii.ascii) (s : string) : bool :=
  match s with
  | EmptyString => false
  | String a s' => bool_decide (a = sep) || has_char sep s'
  end.

(** [sep.join(pieces)] *)
Fixpoint join (sep : Ascii.ascii) (pieces : list string) : string :=
  match pieces with
  | [] => EmptyString
  | [piece] => piece
  | piece :: pieces' => piece +:+ String sep (join sep pieces')
  end.

Module LayersExample.
(** A catalogue of four layers. *)
Definition contents : list (string * nat) :=
  [("clc_2018_1000m", 0); ("clc_2018_100m", 1); ("dem_500m", 2);
   ("5000m", 3)].
End LayersExample.

(** ** Output grids and [rescale_align] (src/utils/convert.py) *)

(** The members of [rasterio.warp.Resampling] the function accepts. *)
Inductive Resampling : Type :=
  | nearest
  | bilinear
  | cubic
  | mode
  | average.

(** The values a raster profile holds. *)
Inductive pvalue : Type :=
  | PInt (z : Z)
  | PFloat (q : Q)
  | PText (s : string)
  | PNone
  | PCrs (code : Z)
  | PAffine (t : affine).

(** A profile is a dictionary. *)
Definition Profile : Type := gmap string pvalue.

(** [d[key]] on a profile, or on [None] when no profile was passed. *)
Definition subscript (d : option Profile) (key : string) : result pvalue :=
  match d with
  | None => Raise TypeError
  | Some d =>
      match d !! key with
      | Some v => OK v
      | None => Raise KeyError
      end
  end.

(** An attribute of an argument that may have been left at [None]. *)
Definition attr_of {A} (x : option A) : result A :=
  match x with
  | Some a => OK a
  | None => Raise AttributeError
  end.

(** The chain of comparisons on the name of the resampling method. *)
Definition resampling_of (resampling : string) : result Resampling :=
  if decide (resampling = "nearest") then OK nearest
  else if decide (resampling = "bilinear") then OK bilinear
  else if decide (resampling = "cubic") then OK cubic
  else if decide (resampling = "mode") then OK mode
  else if decide (resampling = "average") then OK average
  else Raise ValueError.

(** [a // b] on floats: the floor of the quotient of the two floats, as a
    float.  (The remainder is taken first, which floats do exactly, and the
    quotient of what is left is a whole number; it is this floor as long as
    it has no more than 53 bits.) *)
Definition py_floordiv (a b : Q) : result Q :=
  if Qeq_bool b 0 then Raise ZeroDivisionError
  else OK (inject_Z (Qfloor (a / b))).

(** [int(q)]: truncation towards zero. *)
Definition py_int (q : Q) : Z := (Qnum q ÷ Z.pos (Qden q))%Z.

(** [np.zeros((bands, height, width), dtype)] *)
Definition np_zeros (bands : nat) (height width : Z) (dt : dtype)
  : result ndarray :=
  if decide (0 ≤ height ∧ 0 ≤ width)%Z
  then OK (mkArr dt bands (Z.to_nat height) (Z.to_nat width) (λ _ _ _, 0%Z))
  else Raise ValueError.

Definition qmin (a b : Q) : Q := if Qle_bool a b then a else b.
Definition qmax (a b : Q) : Q := if Qle_bool a b then b else a.

Definition bbox_union (b1 b2 : bbox) : bbox :=
  let '(minx1, miny1, maxx1, maxy1) := b1 in
  let '(minx2, miny2, maxx2, maxy2) := b2 in
  (qmin minx1 minx2, qmin miny1 miny2, qmax maxx1 maxx2, qmax maxy1 maxy2).

(** [vector.total_bounds] from the bounds of the geometries of the table;
    a table without geometry gives four NaN, here [None]. *)
Definition total_bounds (boxes : list bbox) : option bbox :=
  match boxes with
  | [] => None
  | b :: bs => Some (foldl bbox_union b bs)
  end.

(** ** Floats

    A float is a rational of 53 significant bits.  The sum and the
    difference of two floats are rounded to the nearest float, a tie to
    the one whose last bit is 0.  (The range of the exponent is left
    unbounded: no overflow, and no difference of two floats is small
    enough to lose bits to a subnormal.) *)

(** The whole number nearest to [n / d], for a positive [d]; a tie goes to
    the even one. *)
Definition round_half_even (n d : Z) : Z :=
  let q := (n / d)%Z in
  let r := (n mod d)%Z in
  if (2 * r <? d)%Z then q
  else if (d <? 2 * r)%Z then (q + 1)%Z
  else if Z.even q then q else (q + 1)%Z.

(** The exponent [e] with [2^e <= x < 2^(e+1)], for a positive [x]. *)
Definition binade (x : Q) : Z :=
  let e := (Z.log2 (Qnum x) - Z.log2 (Z.pos (Qden x)))%Z in
  if Qle_bool (2 ^ e) x then e else (e - 1)%Z.

(** The float nearest to [x]: [x] is scaled into [2^52 .. 2^53], rounded
    to a whole number and scaled back. *)
Definition round_float64 (x : Q) : Q :=
  if Qeq_bool x 0 then 0%Q
  else
    let e := binade (Qabs x) in
    let y := (x * 2 ^ (52 - e))%Q in
    (inject_Z (round_half_even (Qnum y) (Z.pos (Qden y))) * 2 ^ (e - 52))%Q.

(** Half the distance from 1 to the next float: the largest relative
    error of a rounding. *)
Definition float64_eps : Q := (2 ^ (-53))%Q.

(** [a - b] on floats. *)
Definition fl_sub (a b : Q) : Q := round_float64 (a - b).

Section RescaleAlign.
(** [rasterio.warp.reproject(source, destination, ...)] fills the
    destination array in place; the function stands for the values it
    writes, given the source, its transform, reference system and nodata
    value, the destination, its transform and the method. *)
Variable warp_reproject :
  ndarray → pvalue → pvalue → pvalue → ndarray → affine → Resampling →
  result (nat → nat → nat → Z).

(** [a - b] on the floats of the bounds. *)
Variable float_sub : Q → Q → Q.

(** The vector is read through the bounds of its geometries only. *)
Definition rescale_align_over (array : option ndarray) (profile : option Profile)
    (vector : option (list bbox)) (resolution : Q) (resampling : string)
  : result (ndarray * Profile) :=
  resampling ←! resampling_of resampling;
  let src_array := array in
  let src_profile := profile in
  (* Get source attributes *)
  src_transform ←! subscript src_profile "transform";
  src_crs ←! subscript src_profile "crs";
  src_nodata ←! subscript src_profile "nodata";
  (* Output image resolution *)
  let xres := resolution in
  let yres := xres in
  (* Output image transformation (Resize & Align) *)
  vector ←! attr_of vector;
  match total_bounds vector with
  | None =>
      (* NaN // xres is NaN, and int(NaN) raises *)
      _ ←! py_floordiv 0 xres;
      _ ←! py_floordiv 0 yres;
      _ ←! attr_of src_array;
      Raise ValueError
  | Some (left_, bottom, right_, top) =>
      dst_width ←! py_floordiv (float_sub right_ left_) xres;
      dst_height ←! py_floordiv (float_sub top bottom) yres;
      let dst_transform := mkAffine xres 0 left_ 0 (- yres) top in
      (* Create new array for the output *)
      src ←! attr_of src_array;
      dst_array ←! np_zeros (n_bands src) (py_int dst_height)
                     (py_int dst_width) (arr_dtype src);
      (* Resize & Align array and write to output array *)
      written ←! warp_reproject src src_transform src_crs src_nodata
                   dst_array dst_transform resampling;
      let dst_array :=
        mkArr (arr_dtype dst_array) (n_bands dst_array) (n_rows dst_array)
              (n_cols dst_array) written in
      (* Update Metadata *)
      src_profile ←! attr_of src_profile;
      let dst_profile := src_profile in
      let dst_profile := <["transform" := PAffine dst_transform]> dst_profile in
      let dst_profile := <["width" := PFloat dst_width]> dst_profile in
      let dst_profile := <["height" := PFloat dst_height]> dst_profile in
      OK (dst_array, dst_profile)
  end.
End RescaleAlign.

(** [rescale_align] on floats: the extents of the box are rounded
    differences. *)
Definition rescale_align_f64 warp_reproject :=
  rescale_align_over warp_reproject fl_sub.

(** [rescale_align] with the extents of the box idealised as the exact
    differences. *)
Definition rescale_align warp_reproject :=
  rescale_align_over warp_reproject Qminus.

Module GridExample.
(** A band of two rows and two pixels each. *)
Definition source : ndarray :=
  mkArr uint8 1 2 2 (RasterExample.of_lists [[[1; 2]; [3; 4]]]%Z).

Definition source_profile : Profile :=
  {[ "transform" := PAffine (mkAffine 500 0 0 0 (-500) 1000);
     "crs" := PCrs 3035; "nodata" := PInt 0;
     "width" := PInt 2; "height" := PInt 2 ]}.

(** The bounds of two geometries; together they span
    [(100, 100)-(1050, 700)]. *)
Definition vector : list bbox :=
  [(100, 100, 400, 700); (350, 200, 1050, 300)]%Q.

(** A reprojection that writes 0 everywhere. *)
Definition blank (_ : ndarray) (_ _ _ : pvalue) (_ : ndarray) (_ : affine)
    (_ : Resampling) : result (nat → nat → nat → Z) :=
  OK (λ _ _ _, 0%Z).

(** The grid of 300 m cells over the box of [vector]: three columns and
    two rows. *)
Definition grid : ndarray := mkArr uint8 1 2 3 (λ _ _ _, 0%Z).

Definition grid_profile : Profile :=
  <["height" := PFloat 2]>
    (<["width" := PFloat 3]>
       (<["transform" := PAffine (mkAffine 300 0 100 0 (-300) 700)]>
          source_profile)).
End GridExample.

Module TenthsExample.
(** The floats written [0.1] and [1.1]. *)
Definition tenth : Q := round_float64 (1 # 10).
Definition eleven_tenths : Q := round_float64 (11 # 10).

(** One geometry, spanning the box from [(0.1, 0.1)] to [(1.1, 1.1)]. *)
Definition vector : list bbox :=
  [(tenth, tenth, eleven_tenths, eleven_tenths)].
End TenthsExample.

(** ** Grids of plots and [multiplot_raster] (src/utils/plot.py) *)

(** One axes of a figure: its title, the image shown on it, and whether
    the axis is drawn. *)
Record Axes (A : Type) : Type := mkAxes {
  ax_title : option string;
  ax_image : option A;
  ax_on : bool
}.
Arguments mkAxes {A} ax_title ax_image ax_on.
Arguments ax_title {A} a.
Arguments ax_image {A} a.
Arguments ax_on {A} a.

Definition new_axes {A} : Axes A := mkAxes None None true.

Definition set_title {A} (title : string) (a : Axes A) : Axes A :=
  mkAxes (Some title) (ax_image a) (ax_on a).

Definition set_axis_off {A} (a : Axes A) : Axes A :=
  mkAxes (ax_title a) (ax_image a) false.

(** What [plt.subplots] hands back beside the figure: the axes themselves
    when the grid has a single cell, an array of axes otherwise. *)
Inductive subplots_axes (A : Type) : Type :=
  | OneAxes (a : Axes A)
  | AxesArray (axs : list (Axes A)).
Arguments OneAxes {A} a.
Arguments AxesArray {A} axs.

(** [plt.subplots(nrows=nrows, ncols=ncols, ...)]; a grid needs at least
    one row and one column. *)
Definition plt_subplots {A} (nrows ncols : nat) : result (subplots_axes A) :=
  if decide (nrows = 0 ∨ ncols = 0) then Raise ValueError
  else if decide (nrows = 1 ∧ ncols = 1) then OK (OneAxes new_axes)
  else OK (AxesArray (replicate (nrows * ncols) new_axes)).

(** [ax.flatten()]: an array has the method, an axes object has not. *)
Definition flatten {A} (ax : subplots_axes A) : result (list (Axes A)) :=
  match ax with
  | OneAxes _ => Raise AttributeError
  | AxesArray axs => OK axs
  end.

(** [ceil(sqrt(n))]; the float computation is exact for fewer than
    2^52 plots. *)
Definition ceil_sqrt (n : nat) : nat := Nat.sqrt_up n.

Section MultiplotRaster.
Context {A : Type}.

(** [folder.glob('*.tif')], [img.name], reading the file of a raster
    with [src.read(masked=True)], and [rioshow(img, ax=_ax)]. *)
Variable glob_tif : string → list string.
Variable path_name : string → string.
Variable read_masked : string → result A.
Variable rioshow : A → Axes A → result (Axes A).

(** The data to plot: paths ([inl]) unless they are arrays held in
    memory ([inr]); [in_memory] is set exactly for the latter. *)
Definition select_data (folder : option string)
    (files : option (list string)) (arrays : option (list A))
  : result (list (string + A)) :=
  match folder, files, arrays with
  | Some folder, _, _ => OK (inl <$> glob_tif folder)
  | None, Some files, _ => OK (inl <$> files)
  | None, None, Some arrays => OK (inr <$> arrays)
  | None, None, None => Raise ValueError
  end.

(** One turn of the loop over [enumerate(data)]. *)
Definition plot_one (ax : list (Axes A)) (i_img : nat * (string + A))
  : result (list (Axes A)) :=
  let '(i, img) := i_img in
  _ax ←! index ax i;
  shown ←!
    match img with
    | inl path =>
        (* not in_memory *)
        let _ax := set_title (path_name path) _ax in
        img ←! read_masked path;
        rioshow img _ax
    | inr img => rioshow img _ax
    end;
  OK (<[i := shown]> ax).

(** The axes of the figure once the function is through. *)
Definition multiplot_raster (folder : option string)
    (files : option (list string)) (arrays : option (list A))
  : result (list (Axes A)) :=
  data ←! select_data folder files arrays;
  let nplots := length data in
  let ncols := ceil_sqrt nplots in
  let nrows := ncols in
  ax ←! plt_subplots nrows ncols;
  ax ←! flatten ax;
  ax ←! for_each (zip (seq 0 nplots) data) plot_one ax;
  let ax :=
    if decide (nplots < length ax)
    then take nplots ax ++ (set_axis_off <$> drop nplots ax)
    else ax in
  OK ax.

(** The axes an item of the data ends on. *)
Definition plotted (img : string + A) : result (Axes A) :=
  match img with
  | inl path =>
      img ←! read_masked path;
      rioshow img (set_title (path_name path) new_axes)
  | inr img => rioshow img new_axes
  end.
End MultiplotRaster.

Module PlotExample.
(** Showing an image puts it on the axes. *)
Definition show (img : nat) (a : Axes nat) : result (Axes nat) :=
  OK (mkAxes (ax_title a) (Some img) (ax_on a)).

Definition no_files (_ : string) : list string := [].
Definition name (path : string) : string := path.
Definition unreadable (_ : string) : result nat := Raise ValueError.
End PlotExample.

(** ** Fetching layers: [download_layers] (src/utils/ioer.py) *)

(** The description of a layer in [wcs.contents]: its bounding boxes, each
    with the entries ['bbox'] and ['nativeSrs']. *)
Record coverage : Type := mkCoverage {
  boundingboxes : list (bbox * string)
}.

(** [wcs.contents[layer]] *)
Definition contents_item {C} (contents : list (string * C)) (layer : string)
  : result C :=
  match list_find (λ kv, kv.1 = layer) contents with
  | Some (_, kv) => OK kv.2
  | None => Raise KeyError
  end.

Section DownloadLayers.
(** The file system and the contents of a file. *)
Context {FS Bytes : Type}.

(** [Path(p).exists()]; [wcs.getCoverage] for a layer, a box and a
    reference system, read to the end; writing a new file; and opening
    a raster file in mode [r+] to set its reference system. *)
Variable path_exists : FS → string → bool.
Variable getCoverage : string → bbox → string → result Bytes.
Variable write_file : FS → string → Bytes → result FS.
Variable set_crs : FS → string → string → result FS.

Definition out_path_of (path layer : string) : string :=
  path +:+ "/" +:+ layer +:+ ".tif".

(** One turn of the loop over the layers. *)
Definition download_layer (contents : list (string * coverage))
    (path : string) (skip_existing : bool)
    (st : list string * FS) (layer : string) : result (list string * FS) :=
  let '(results, fs) := st in
  let out_path := out_path_of path layer in
  if skip_existing && path_exists fs out_path then
    OK (results ++ [out_path], fs)
  else
    dataset ←! contents_item contents layer;
    box ←! index (boundingboxes dataset) 0;
    let bbox := box.1 in
    crs ←! index_last (split_on "/"%char box.2);
    let fmt := "image/tiff" in
    img ←! getCoverage layer bbox ("EPSG:" +:+ crs);
    fs ←! write_file fs out_path img;
    fs ←! set_crs fs out_path crs;
    OK (results ++ [out_path], fs).

Definition download_layers (contents : list (string * coverage))
    (layers : list string) (path : string) (skip_existing : bool) (fs : FS)
  : result (list string * FS) :=
  let results := [] in
  for_each layers (download_layer contents path skip_existing) (results, fs).
End DownloadLayers.

Module DownloadExample.
Definition europe : bbox := (2500000, 1400000, 7400000, 5500000)%Q.

Definition catalogue : list (string * coverage) :=
  [("clc_2018_1000m",
    mkCoverage [(europe, "http://www.opengis.net/def/crs/EPSG/0/3035")]);
   ("clc_2018_100m",
    mkCoverage [(europe, "http://www.opengis.net/def/crs/EPSG/0/3035")]);
   ("dem_500m",
    mkCoverage [(europe, "http://www.opengis.net/def/crs/EPSG/0/3035")])].

(** A file system is the set of the paths that exist. *)
Definition exists_in (fs : gset string) (p : string) : bool :=
  bool_decide (p ∈ fs).
Definition fetch (_ : string) (_ : bbox) (_ : string) : result nat := OK 0.
Definition write (fs : gset string) (p : string) (_ : nat)
  : result (gset string) := OK ({[p]} ∪ fs).
Definition tag (fs : gset string) (_ _ : string) : result (gset string) :=
  OK fs.
End DownloadExample.

(** ** Uploading a table: [to_postgis] (src/processing/db.py) *)

(** A cell of a table on its way to the database: a value as before, or
    a [WKTElement] of geoalchemy2. *)
Inductive sqlvalue (G : Type) : Type :=
  | Plain (v : value G)
  | WKTElement (wkt : string) (srid : Z).
Arguments Plain {G} v.
Arguments WKTElement {G} wkt srid.

Record GeoTable (G : Type) : Type := mkGT {
  gt_frame : DataFrame (sqlvalue G);
  gt_crs : option Z
}.
Arguments mkGT {G} gt_frame gt_crs.
Arguments gt_frame {G} g.
Arguments gt_crs {G} g.

(** [str.lower] on labels written in ASCII. *)
Definition lower_char (a : Ascii.ascii) : Ascii.ascii :=
  let n := nat_of_ascii a in
  if (65 <=? n) && (n <=? 90) then ascii_of_nat (n + 32) else a.

Fixpoint lower (s : string) : string :=
  match s with
  | EmptyString => EmptyString
  | String a s' => String (lower_char a) (lower s')
  end.

(** [df[c] = values] with one value per row: the columns labelled [c] are
    overwritten, or a column is appended when there is none. *)
Definition set_column {V} (c : string) (values : list V) (df : DataFrame V)
  : DataFrame V :=
  if decide (c ∈ columns df) then
    mkDF (columns df)
         (zip_with (λ r v, (r.1, set_cols c v (columns df) r.2))
                   (rows df) values)
  else
    mkDF (columns df ++ [c])
         (zip_with (λ r v, (r.1, r.2 ++ [v])) (rows df) values).

Section ToPostgis.
Context {G : Type}.
Local Abbreviation store := (gmap loc (GeoTable G)).

(** [x.wkt] of a geometry; [gdf.crs], which geopandas answers from the
    table as it stands (from version 0.11 on it raises for a table that
    has no geometry column); [pyproj.CRS(crs).to_epsg()];
    [gdf.to_crs(epsg, inplace=True)], as the table it leaves;
    [gdf['geometry'].apply(...)] when several columns carry the label,
    so that the selection is a table; and [gdf.to_sql(...)]. *)
Variable wkt_of : G → string.
Variable crs_of : GeoTable G → result (option Z).
Variable crs_to_epsg : option Z → result (option Z).
Variable to_crs : GeoTable G → Z → result (GeoTable G).
Variable apply_to_frame : DataFrame (sqlvalue G) → Z → result (list (sqlvalue G)).
Variable to_sql :
  DataFrame (sqlvalue G) → string → string → string → string → Z →
  result unit.

(** [lambda x: WKTElement(x.wkt, srid=epsg)] *)
Definition wkt_element (epsg : Z) (x : option (sqlvalue G))
  : result (sqlvalue G) :=
  match x with
  | Some (Plain (VGeom g)) => OK (WKTElement (wkt_of g) epsg)
  | _ => Raise AttributeError
  end.

(** [gdf['geometry'].apply(lambda x: WKTElement(x.wkt, srid=epsg))] *)
Definition geometry_as_wkt (frame : DataFrame (sqlvalue G)) (epsg : Z)
  : result (list (sqlvalue G)) :=
  match col_pos "geometry" (columns frame) with
  | None => Raise KeyError
  | Some p =>
      if decide (label_count "geometry" (columns frame) = 1)
      then mapM (λ r, wkt_element epsg (r.2 !! p)) (rows frame)
      else apply_to_frame frame epsg
  end.

(** The table [gdf] refers to is changed in place. *)
Definition to_postgis (gdf : loc) (name : string) (epsg : Z)
    (if_exists schema feature_type : string) (h : store)
  : result (bool * store) :=
  match h !! gdf with
  | None => Raise NameError
  | Some t =>
      (* make sure the gdf will be in the desired CRS *)
      crs ←! crs_of t;
      crs ←! crs_to_epsg crs;
      t ←! (if decide (crs = Some epsg) then OK t else to_crs t epsg);
      (* Convert Shapely Geometry to WKT and add the SRID *)
      geom ←! geometry_as_wkt (gt_frame t) epsg;
      let frame := set_column "geom" geom (gt_frame t) in
      (* convert column names to lowercase for easier querying *)
      let frame := mkDF (lower <$> columns frame) (rows frame) in
      (* drop the geometry column as it is now duplicative *)
      frame ←! drop_columns {["geometry"]} frame;
      let h := <[gdf := mkGT frame (gt_crs t)]> h in
      match to_sql frame name schema if_exists feature_type epsg with
      | OK _ => OK (true, h)
      | Raise ValueError => OK (false, h)
      | Raise e => Raise e
      end
  end.
End ToPostgis.

Module UploadExample.
(** A table of two regions on the transect. *)
Definition regions : DataFrame (sqlvalue Transect.geom1) :=
  mkDF ["Cellcode"; "geometry"]
       [(0, [Plain (VInt 1); Plain (VGeom [(0, 10)])]);
        (1, [Plain (VInt 2); Plain (VGeom [(3, 5)])])]%Z.

(** What the upload leaves of it. *)
Definition regions_left : DataFrame (sqlvalue Transect.geom1) :=
  mkDF ["cellcode"; "geom"]
       [(0%Z, [Plain (VInt 1); WKTElement "LINESTRING" 3035]);
        (1%Z, [Plain (VInt 2); WKTElement "LINESTRING" 3035])].

Definition wkt (_ : Transect.geom1) : string := "LINESTRING".
(** [gdf.crs] as geopandas 0.12 answers it, and as 0.9 does. *)
Definition crs_of (t : GeoTable Transect.geom1) : result (option Z) :=
  if decide ("geometry" ∈ columns (gt_frame t)) then OK (gt_crs t)
  else Raise AttributeError.
Definition crs_kept (t : GeoTable Transect.geom1) : result (option Z) :=
  OK (gt_crs t).
Definition epsg_of (crs : option Z) : result (option Z) :=
  match crs with
  | Some code => OK (Some code)
  | None => Raise ValueError
  end.
Definition moved (t : GeoTable Transect.geom1) (epsg : Z)
  : result (GeoTable Transect.geom1) :=
  OK (mkGT (gt_frame t) (Some epsg)).
Definition no_frame (_ : DataFrame (sqlvalue Transect.geom1)) (_ : Z)
  : result (list (sqlvalue Transect.geom1)) := Raise AttributeError.
(** A database in which the table already exists. *)
Definition refused (_ : DataFrame (sqlvalue Transect.geom1))
    (_ _ _ _ : string) (_ : Z) : result unit := Raise ValueError.

Definition store : gmap loc (GeoTable Transect.geom1) :=
  {[ 0 := mkGT regions (Some 25832%Z) ]}.
End UploadExample.

(** * Properties *)

(** ** Results *)

Lemma rbind_OK {A B} (r : result A) (k : A → result B) (b : B) :
  rbind r k = OK b → ∃ a, r = OK a ∧ k a = OK b.
Proof. destruct r as [a|e]; simpl; [eauto | discriminate]. Qed.

Ltac inv_rbind H :=
  let a := fresh "a" in
  let Ha := fresh "Ha" in
  apply rbind_OK in H; destruct H as (a & Ha & H).

(** ** Column labels *)

Lemma ends_with_app (suf n : string) : ends_with suf (n +:+ suf) = true.
Proof.
  induction n as [|a n IH]; simpl.
  - destruct suf; simpl; [done|].
    rewrite Ascii.eqb_refl, String.eqb_refl. done.
  - rewrite IH. apply orb_true_r.
Qed.

Lemma label_count_app c l1 l2 :
  label_count c (l1 ++ l2) = label_count c l1 + label_count c l2.
Proof. unfold label_count. by rewrite filter_app, length_app. Qed.

Lemma label_count_0 c l : c ∉ l → label_count c l = 0.
Proof.
  unfold label_count. induction l as [|x l IH]; [done|].
  rewrite not_elem_of_cons. intros [Hx Hl].
  rewrite filter_cons_False by congruence. auto.
Qed.

Lemma label_count_fmap c (f : string → string) l :
  (∀ x, x ∈ l → f x = c ↔ x = c) →
  label_count c (f <$> l) = label_count c l.
Proof.
  unfold label_count. induction l as [|x l IH]; intros Hf; [done|].
  rewrite fmap_cons.
  assert (Hl : ∀ y, y ∈ l → f y = c ↔ y = c)
    by (intros y Hy; apply Hf; by right).
  specialize (IH Hl).
  destruct (decide (x = c)) as [Hx|Hx].
  - rewrite !filter_cons_True; [simpl; by rewrite IH| done |].
    apply Hf; [by left | done].
  - rewrite !filter_cons_False; [done | done |].
    intros Hfx. apply Hx, Hf; [by left | done].
Qed.

Lemma col_pos_cons c x l :
  col_pos c (x :: l) = if decide (x = c) then Some 0 else S <$> col_pos c l.
Proof.
  unfold col_pos. simpl. destruct (decide (x = c)); [done|].
  destruct (list_find _ l) as [[i y]|]; done.
Qed.

Lemma col_pos_Some c l p : col_pos c l = Some p → l !! p = Some c.
Proof.
  unfold col_pos. intros Hp.
  destruct (list_find _ l) as [[i y]|] eqn:Hf; simplify_eq/=.
  apply list_find_Some in Hf as (Hl & -> & _). done.
Qed.

Lemma col_pos_None c l : col_pos c l = None ↔ c ∉ l.
Proof.
  unfold col_pos. rewrite fmap_None, list_find_None, Forall_forall.
  split; [intros Hn Hc; by apply (Hn c) | intros Hn x Hx ->; done].
Qed.

Lemma col_pos_lt c l p : col_pos c l = Some p → p < length l.
Proof. intros Hp. apply col_pos_Some in Hp. by eapply lookup_lt_Some. Qed.

Lemma col_pos_app_l c l1 l2 : c ∉ l2 → col_pos c (l1 ++ l2) = col_pos c l1.
Proof.
  intros Hc. induction l1 as [|x l1 IH]; simpl.
  - rewrite (proj2 (col_pos_None c l2)); done.
  - rewrite !col_pos_cons, IH. done.
Qed.

Lemma col_pos_fmap c (f : string → string) l :
  (∀ x, x ∈ l → f x = c ↔ x = c) → col_pos c (f <$> l) = col_pos c l.
Proof.
  induction l as [|x l IH]; intros Hf; [done|].
  rewrite fmap_cons, !col_pos_cons.
  rewrite IH by (intros y Hy; apply Hf; by right).
  destruct (decide (x = c)) as [Hx|Hx].
  - rewrite decide_True; [done|]. apply Hf; [by left | done].
  - rewrite decide_False; [done|].
    intros Hfx. apply Hx, Hf; [by left | done].
Qed.

(** ** Dropping columns *)

Lemma select_by_length {A B} keep cols (xs : list A) (ys : list B) :
  length xs = length cols → length ys = length cols →
  length (select_by keep cols xs) = length (select_by keep cols ys).
Proof.
  revert xs ys. induction cols as [|c cols IH]; intros [|x xs] [|y ys] ??;
    simplify_eq/=; [done|].
  destruct (keep c); simpl; auto.
Qed.

Lemma select_by_labels keep cols c :
  c ∈ select_by keep cols cols ↔ c ∈ cols ∧ keep c = true.
Proof.
  induction cols as [|x cols IH]; simpl.
  - rewrite elem_of_nil. tauto.
  - destruct (keep x) eqn:Hk.
    + rewrite !elem_of_cons, IH. split; [|tauto].
      intros [->|[??]]; auto.
    + rewrite elem_of_cons, IH. split; [tauto|].
      intros [[->|?] ?]; [congruence | tauto].
Qed.

Lemma select_by_label_count keep cols c :
  keep c = true →
  label_count c (select_by keep cols cols) = label_count c cols.
Proof.
  intros Hk. unfold label_count. induction cols as [|x cols IH]; [done|].
  simpl. destruct (decide (x = c)) as [->|Hx].
  - rewrite Hk, !filter_cons_True by done. simpl. by rewrite IH.
  - rewrite (filter_cons_False _ x cols) by done.
    destruct (keep x); [rewrite filter_cons_False by done|]; done.
Qed.

Section DropFacts.
Context {V : Type}.
Implicit Types df : DataFrame V.

Lemma drop_columns_labels labels df df' c :
  drop_columns labels df = OK df' →
  c ∈ columns df' ↔ c ∈ columns df ∧ c ∉ labels.
Proof.
  unfold drop_columns. case_decide; [|done]. intros [= <-]. simpl.
  rewrite select_by_labels, bool_decide_eq_true. done.
Qed.

Lemma drop_columns_label_count labels df df' c :
  drop_columns labels df = OK df' → c ∉ labels →
  label_count c (columns df') = label_count c (columns df).
Proof.
  unfold drop_columns. case_decide; [|done]. intros [= <-] Hc. simpl.
  apply select_by_label_count. by apply bool_decide_eq_true.
Qed.

Lemma drop_columns_wf labels df df' :
  drop_columns labels df = OK df' → df_wf df → df_wf df'.
Proof.
  unfold drop_columns, df_wf. case_decide; [|done]. intros [= <-]. simpl.
  rewrite !Forall_forall. intros Hwf r Hr.
  apply list_elem_of_fmap in Hr as ([i v] & -> & Hr). simpl.
  apply select_by_length; [|done]. by apply (Hwf _ Hr).
Qed.
End DropFacts.

(** ** The suffixes of the join *)

Lemma suffixed_eq overlap suf c x :
  ends_with suf c = false → c ∉ overlap →
  suffixed overlap suf x = c ↔ x = c.
Proof.
  intros Hsuf Hc. unfold suffixed. case_decide as Hx.
  - split; [|intros ->; done].
    intros <-. by rewrite ends_with_app in Hsuf.
  - done.
Qed.

Lemma without_label_count c key p cols :
  c ≠ key → col_pos key cols = Some p →
  label_count c (without p cols) = label_count c cols.
Proof.
  intros Hne Hp. apply col_pos_Some in Hp.
  rewrite <-(take_drop_middle cols p key) at 2 by done.
  unfold without. rewrite !label_count_app. f_equal.
  unfold label_count. rewrite filter_cons_False by done. done.
Qed.

Lemma without_elem_of {A} (x : A) p l : x ∈ without p l → x ∈ l.
Proof.
  unfold without. rewrite elem_of_app. intros [Hx|Hx].
  - eapply subseteq_take, Hx.
  - eapply subseteq_drop, Hx.
Qed.

Lemma drop_key_elem_of {A} (x : A) b p l : x ∈ drop_key b p l → x ∈ l.
Proof. destruct b; simpl; [apply without_elem_of | done]. Qed.

Lemma without_length {A} p (l : list A) :
  p < length l → length (without p l) = length l - 1.
Proof.
  intros Hp. unfold without. rewrite length_app, length_take, length_drop. lia.
Qed.

(** ** One inner join *)

Section MergeFacts.
Context {V : Type} `{EqDecision V}.
Implicit Types left right gdf : DataFrame V.

Lemma key_pos_OK key (df : DataFrame V) p :
  key_pos key df = OK p →
  col_pos key (columns df) = Some p ∧ label_count key (columns df) = 1.
Proof.
  unfold key_pos. destruct (col_pos key (columns df)) as [q|]; [|done].
  case_decide; [|done]. by intros [= ->].
Qed.

(** Grouping the rows by key reorders them and nothing else. *)
Lemma elem_of_grouped p (rs : list (Z * list V)) r :
  r ∈ grouped p rs ↔ r ∈ rs.
Proof.
  unfold grouped, first_seen. rewrite list_elem_of_bind. split.
  - intros (k & [_ Hr]%list_elem_of_filter & _). done.
  - intros Hr. exists (r.2 !! p). split; [by apply list_elem_of_filter|].
    rewrite elem_of_reverse, elem_of_remove_dups, elem_of_reverse.
    apply list_elem_of_fmap. eauto.
Qed.

(** The shape of a join that keeps at least one row. *)
Lemma pd_merge_row left right key res r :
  pd_merge left right key = OK res → r ∈ rows res →
  ∃ rk l rr,
    col_pos key (columns right) = Some rk ∧
    l ∈ rows left ∧ rr ∈ rows right ∧
    r.2 = l.2 ++ without rk rr.2 ∧
    columns res =
      (suffixed (filter (λ c, c ∈ without rk (columns right)) (columns left))
                "_x" <$> columns left) ++
      (suffixed (filter (λ c, c ∈ without rk (columns right)) (columns left))
                "_y" <$> without rk (columns right)).
Proof.
  unfold pd_merge. intros Hm Hr.
  inv_rbind Hm. rename a into lk. inv_rbind Hm. rename a into rk.
  apply key_pos_OK in Ha0 as [Hrk _].
  injection Hm as <-. simpl in Hr.
  destruct r as [i vs]. apply elem_of_zip_r in Hr. simpl.
  apply list_elem_of_bind in Hr as (l & Hr & Hl%elem_of_grouped).
  apply list_elem_of_bind in Hr as (rr & Hr & Hrr).
  apply list_elem_of_filter in Hrr as [_ Hrr].
  apply list_elem_of_singleton in Hr as ->.
  assert (Hne : bool_decide (rows left = []) = false).
  { apply bool_decide_eq_false. intros Hnil. rewrite Hnil in Hl.
    by apply elem_of_nil in Hl. }
  rewrite Hne. simpl. eauto 10.
Qed.

Lemma pd_merge_label_count left right key res c :
  pd_merge left right key = OK res →
  c ≠ key → c ∉ columns right →
  ends_with "_x" c = false → ends_with "_y" c = false →
  label_count c (columns res) = label_count c (columns left).
Proof.
  unfold pd_merge. intros Hm Hne Hc Hx Hy.
  inv_rbind Hm. rename a into lk. inv_rbind Hm. rename a into rk.
  apply key_pos_OK in Ha as [Hlk _].
  injection Hm as <-. simpl.
  set (le := bool_decide (rows left = [])).
  set (rcols := drop_key (negb le) rk (columns right)).
  set (lcols := drop_key le lk (columns left)).
  assert (Hr : c ∉ rcols) by (intros Hin; by apply drop_key_elem_of in Hin).
  assert (Ho : c ∉ filter (λ c0, c0 ∈ rcols) lcols).
  { rewrite list_elem_of_filter. tauto. }
  rewrite label_count_app.
  rewrite !label_count_fmap by (intros; by apply suffixed_eq).
  rewrite (label_count_0 c rcols) by done.
  rewrite Nat.add_0_r. subst lcols. destruct le; simpl; [|done].
  by apply (without_label_count c key).
Qed.

Lemma pd_merge_wf left right key res :
  pd_merge left right key = OK res →
  df_wf left → df_wf right → df_wf res.
Proof.
  intros Hm Hl Hr. unfold df_wf in *. rewrite Forall_forall in *.
  intros r Hin.
  destruct (pd_merge_row _ _ _ _ _ Hm Hin)
    as (rk & l & rr & Hrk & Hl' & Hrr & -> & ->).
  rewrite !length_app, !length_fmap.
  rewrite (Hl _ Hl'). f_equal.
  apply col_pos_lt in Hrk.
  rewrite !without_length; rewrite ?(Hr _ Hrr); done.
Qed.

Lemma extends_first_refl (first : DataFrame V) c :
  df_wf first → extends_first first first c.
Proof.
  intros Hwf. split_and!; [done..|].
  intros r Hr. exists r. split_and!; [done| |done].
  unfold df_wf in Hwf. rewrite Forall_forall in Hwf.
  rewrite <-(Hwf _ Hr). apply firstn_all.
Qed.

Lemma extends_first_merge first gdf right key res c :
  df_wf first → extends_first first gdf c →
  df_wf right → c ∉ columns right → c ≠ key →
  ends_with "_x" c = false → ends_with "_y" c = false →
  pd_merge gdf right key = OK res →
  extends_first first res c.
Proof.
  intros Hwf1 (Hcnt & Hwf & Hrows) Hwfr Hc Hne Hx Hy Hm.
  split_and!.
  - rewrite <-Hcnt. by eapply pd_merge_label_count.
  - by eapply pd_merge_wf.
  - intros r Hr.
    destruct (pd_merge_row _ _ _ _ _ Hm Hr)
      as (rk & l & rr & Hrk & Hl & Hrr & Hrow & Hcols).
    destruct (Hrows _ Hl) as (r1 & Hr1 & Htake & Hcell).
    exists r1. split; [done|].
    unfold df_wf in *. rewrite Forall_forall in Hwf, Hwf1.
    assert (Hlen : (length (columns first) ≤ length l.2)%nat).
    { rewrite <-(Hwf1 _ Hr1), <-Htake, length_take. lia. }
    rewrite Hrow. split; [by rewrite take_app_le|].
    rewrite <-Hcell, Hcols. unfold cell.
    set (rcols := without rk (columns right)).
    assert (Hr' : c ∉ rcols) by (intros Hin; by apply without_elem_of in Hin).
    assert (Ho : c ∉ filter (λ c0, c0 ∈ rcols) (columns gdf)).
    { rewrite list_elem_of_filter. tauto. }
    rewrite col_pos_app_l.
    2:{ rewrite list_elem_of_fmap. intros (y & Hy1 & Hy2).
        symmetry in Hy1. apply suffixed_eq in Hy1; [|done..]. by subst. }
    rewrite col_pos_fmap by (intros; by apply suffixed_eq).
    destruct (col_pos c (columns gdf)) as [p|] eqn:Hp; [|done]. simpl.
    apply lookup_app_l. rewrite (Hwf _ Hl). by eapply col_pos_lt.
Qed.

(** The intersection of the column sets keeps what every set has. *)
Lemma foldl_intersection_elem_of (s : gset string) ss c :
  c ∈ foldl (∩) s ss ↔ c ∈ s ∧ ∀ x, x ∈ ss → c ∈ x.
Proof.
  revert s. induction ss as [|x ss IH]; intros s; simpl.
  - split; [intros ?; split; [done|]; by intros ? ?%elem_of_nil | tauto].
  - rewrite IH, elem_of_intersection. split.
    + intros [[??] Hs]. split; [done|].
      intros y [->|?]%elem_of_cons; auto.
    + intros [? Hs]. split_and!; [done| |].
      * apply Hs. by left.
      * intros y Hy. apply Hs. by right.
Qed.

Lemma duplicate_columns_elem_of (lst : list (DataFrame V)) key dup c :
  duplicate_columns lst true key = OK dup →
  c ∈ dup ↔ c ≠ key ∧ ∀ t, t ∈ lst → c ∈ columns t.
Proof.
  unfold duplicate_columns, set_intersection.
  destruct lst as [|t lst]; [done|]. simpl. intros [= <-].
  rewrite elem_of_difference, foldl_intersection_elem_of, elem_of_singleton.
  unfold col_set. rewrite elem_of_list_to_set. split.
  - intros [[Ht Hs] ?]. split; [done|].
    intros t' [->|Hin]%elem_of_cons; [done|].
    rewrite <-(elem_of_list_to_set (C := gset string)).
    apply (Hs (col_set t')), list_elem_of_fmap. eauto.
  - intros [? Hs]. split_and!; [|  |done].
    + apply Hs. by left.
    + intros x (t' & -> & Hin)%list_elem_of_fmap.
      apply elem_of_list_to_set, Hs. by right.
Qed.

Lemma merge_loop_extends_first first dup key c pending : ∀ gdf res,
  df_wf first → extends_first first gdf c →
  Forall df_wf pending → c ∈ dup → c ≠ key →
  ends_with "_x" c = false → ends_with "_y" c = false →
  merge_loop dup key gdf pending = OK res →
  extends_first first res c.
Proof.
  induction pending as [|t pending IH]; intros gdf res Hwf1 Hinv Hwf Hc Hne Hx Hy.
  - simpl. by intros [= <-].
  - simpl. intros Hm. inv_rbind Hm. rename a into t'. inv_rbind Hm.
    apply Forall_cons in Hwf as [Hwft Hwf].
    eapply IH; [done| |done..].
    eapply extends_first_merge; [done|done| | |done..].
    + by eapply drop_columns_wf.
    + rewrite (drop_columns_labels _ _ _ _ Ha). tauto.
Qed.

Lemma merge_features_unfold (first : DataFrame V) later key :
  merge_features (first :: later) true key =
  dup ←! duplicate_columns (reverse (first :: later)) true key;
  merge_loop dup key first later.
Proof. unfold merge_features. by rewrite reverse_involutive. Qed.

Lemma without_key_count key p cols :
  col_pos key cols = Some p →
  S (label_count key (without p cols)) = label_count key cols.
Proof.
  intros Hp. apply col_pos_Some in Hp.
  rewrite <-(take_drop_middle cols p key) at 2 by done.
  unfold without. rewrite !label_count_app.
  unfold label_count at 4. rewrite filter_cons_True by done. simpl.
  fold (label_count key (drop (S p) cols)). lia.
Qed.

Lemma key_pos_returns key (df : DataFrame V) :
  label_count key (columns df) = 1 → ∃ p, key_pos key df = OK p.
Proof.
  intros Hcnt. unfold key_pos.
  destruct (col_pos key (columns df)) as [p|] eqn:Hp.
  - exists p. by rewrite decide_True.
  - apply col_pos_None, (label_count_0 key) in Hp. lia.
Qed.

(** A join on a key that both frames carry once returns a frame that
    carries the key once, unless the suffixes forge a second copy. *)
Lemma pd_merge_returns left right key :
  label_count key (columns left) = 1 →
  label_count key (columns right) = 1 →
  ends_with "_x" key = false → ends_with "_y" key = false →
  ∃ res, pd_merge left right key = OK res ∧
         label_count key (columns res) = 1.
Proof.
  intros Hl Hr Hx Hy. unfold pd_merge.
  destruct (key_pos_returns _ _ Hl) as [lk Hlk].
  destruct (key_pos_returns _ _ Hr) as [rk Hrk].
  rewrite Hlk, Hrk. simpl. eexists. split; [done|]. simpl.
  apply key_pos_OK in Hlk as [Hlk _]. apply key_pos_OK in Hrk as [Hrk _].
  apply without_key_count in Hlk, Hrk.
  set (le := bool_decide (rows left = [])).
  set (rcols := drop_key (negb le) rk (columns right)).
  set (lcols := drop_key le lk (columns left)).
  assert (Hcnt : label_count key lcols + label_count key rcols = 1).
  { subst lcols rcols. destruct le; simpl; lia. }
  assert (Ho : key ∉ filter (λ c0, c0 ∈ rcols) lcols).
  { rewrite list_elem_of_filter. intros [Hkr Hkl].
    destruct (decide (label_count key lcols = 0)) as [H0|H0].
    - unfold label_count in H0. apply length_zero_iff_nil in H0.
      assert (Hin : key ∈ filter (λ x, x = key) lcols)
        by (by apply list_elem_of_filter).
      rewrite H0 in Hin. by apply elem_of_nil in Hin.
    - assert (H1 : label_count key rcols = 0) by lia.
      unfold label_count in H1. apply length_zero_iff_nil in H1.
      assert (Hin : key ∈ filter (λ x, x = key) rcols)
        by (by apply list_elem_of_filter).
      rewrite H1 in Hin. by apply elem_of_nil in Hin. }
  rewrite label_count_app.
  rewrite !label_count_fmap by (intros; by apply suffixed_eq). done.
Qed.

Lemma merge_loop_returns dup key pending : ∀ gdf,
  key ∉ dup →
  label_count key (columns gdf) = 1 →
  Forall (λ t, dup ⊆ col_set t ∧ label_count key (columns t) = 1) pending →
  ends_with "_x" key = false → ends_with "_y" key = false →
  ∃ res, merge_loop dup key gdf pending = OK res.
Proof.
  induction pending as [|t pending IH]; intros gdf Hk Hg Hall Hx Hy.
  - simpl. eauto.
  - apply Forall_cons in Hall as [[Hsub Ht] Hall]. simpl.
    destruct (drop_columns dup t) as [t'|e] eqn:Hd; simpl.
    2:{ unfold drop_columns in Hd. by rewrite decide_True in Hd. }
    rewrite <-(drop_columns_label_count _ _ _ _ Hd Hk) in Ht.
    destruct (pd_merge_returns gdf t' key Hg Ht Hx Hy) as (g' & -> & Hg').
    simpl. by apply IH.
Qed.

(** [merge_features] returns a table when every table of the list labels
    exactly one column with the key and the key is not a suffixed label. *)
Lemma merge_features_returns (first : DataFrame V) later key :
  Forall (λ t, label_count key (columns t) = 1) (first :: later) →
  ends_with "_x" key = false → ends_with "_y" key = false →
  ∃ res, merge_features (first :: later) true key = OK res.
Proof.
  intros Hall Hx Hy. rewrite merge_features_unfold.
  destruct (duplicate_columns (reverse (first :: later)) true key)
    as [dup|e] eqn:Hdup.
  2:{ unfold duplicate_columns, set_intersection in Hdup.
      rewrite reverse_cons, fmap_app in Hdup.
      by destruct (col_set <$> reverse later). }
  simpl. pose proof (λ c, duplicate_columns_elem_of _ _ _ c Hdup) as Hin.
  apply Forall_cons in Hall as [H1 Hall].
  apply merge_loop_returns; [|done| |done..].
  - rewrite Hin. tauto.
  - rewrite Forall_forall in Hall |- *. intros t Ht. split; [|auto].
    intros c Hc. apply Hin in Hc as [_ Hc].
    unfold col_set. apply elem_of_list_to_set, Hc.
    rewrite elem_of_reverse. by right.
Qed.

(** C10 (amended): with [ignore_duplicates=True], a column [c] other than
    the key that every table of the list carries is dropped from every
    later table before its join; when the first table carries [c] once and
    [c] is not a label the join suffixes could forge (it ends neither in
    [_x] nor in [_y]), the returned table carries [c] exactly once, and
    every returned row extends a row of the first table and shows that
    row's cell under [c]. *)
Theorem merge_features_first_copy (first : DataFrame V) later key c res :
  (∀ t, t ∈ first :: later → c ∈ columns t) →
  c ≠ key →
  ends_with "_x" c = false → ends_with "_y" c = false →
  label_count c (columns first) = 1 →
  Forall df_wf (first :: later) →
  merge_features (first :: later) true key = OK res →
  (∃ dup, duplicate_columns (reverse (first :: later)) true key = OK dup ∧
     ∀ t, t ∈ later → ∃ t', drop_columns dup t = OK t' ∧ c ∉ columns t') ∧
  label_count c (columns res) = 1 ∧
  ∀ r, r ∈ rows res →
    ∃ r1, r1 ∈ rows first ∧
      take (length (columns first)) r.2 = r1.2 ∧
      cell (columns res) c r.2 = cell (columns first) c r1.2.
Proof.
  intros Hall Hne Hx Hy Hone Hwf Hm.
  rewrite merge_features_unfold in Hm. inv_rbind Hm. rename a into dup.
  pose proof (λ c, duplicate_columns_elem_of _ _ _ c Ha) as Hin.
  assert (Hc : c ∈ dup).
  { apply Hin. split; [done|]. intros t Ht. apply Hall.
    by rewrite elem_of_reverse in Ht. }
  apply Forall_cons in Hwf as [Hwf1 Hwf].
  split.
  { exists dup. split; [done|]. intros t Ht.
    destruct (drop_columns dup t) as [t'|e] eqn:Hd.
    - exists t'. split; [done|].
      rewrite (drop_columns_labels _ _ _ _ Hd). tauto.
    - unfold drop_columns in Hd. rewrite decide_True in Hd; [done|].
      intros x Hx'. apply Hin in Hx' as [_ Hx'].
      unfold col_set. apply elem_of_list_to_set, Hx'.
      rewrite elem_of_reverse. by right. }
  destruct (merge_loop_extends_first first dup key c later first res)
    as (Hcnt & _ & Hrows); try done.
  { by apply extends_first_refl. }
  split; [by rewrite Hcnt | done].
Qed.
End MergeFacts.

(** Three tables that all carry the key [cellcode] and the column [a_y];
    the first and the last also carry [a].  After [a_y] is dropped from the
    last table its [a] still meets the [a] of the first, the join renames it
    to [a_y], and the returned table shows two columns labelled [a_y]; the
    second one holds values of the last table. *)
Lemma merge_features_two_copies :
  ¬ (∀ (lst : list (DataFrame Z)) (key c : string) (res : DataFrame Z),
       lst ≠ [] →
       (∀ t, t ∈ lst → key ∈ columns t ∧ c ∈ columns t) →
       c ≠ key →
       merge_features lst true key = OK res →
       label_count c (columns res) = 1).
Proof.
  intros Hclaim.
  specialize (Hclaim [MergeExample.t1; MergeExample.t2; MergeExample.t3]
                "cellcode" "a_y"
                (mkDF ["cellcode"; "a_y"; "a_x"; "a_y"]
                      [(0, [1; 10; 100; 101]); (1, [2; 20; 200; 201])]%Z)).
  assert (Hbad : label_count "a_y" ["cellcode"; "a_y"; "a_x"; "a_y"] = 1).
  { apply Hclaim; [done| |done|by vm_compute].
    intros t Ht. repeat (apply elem_of_cons in Ht as [->|Ht]);
      [| | |by apply elem_of_nil in Ht]; split; set_solver. }
  vm_compute in Hbad. discriminate.
Qed.

Lemma merge_features_first_copy_witness :
  label_count "name"
    ["cellcode"; "name"; "pop"; "area"] = 1 ∧
  ∀ r, r ∈ [(0, [1; 10; 100; 8]); (1, [2; 20; 200; 7])]%Z →
    ∃ r1, r1 ∈ rows MergeExample.u1 ∧
      take 3 r.2 = r1.2 ∧
      cell ["cellcode"; "name"; "pop"; "area"] "name" r.2 =
      cell (columns MergeExample.u1) "name" r1.2.
Proof.
  refine (proj2 (merge_features_first_copy
    MergeExample.u1 [MergeExample.u2] "cellcode" "name"
    (mkDF ["cellcode"; "name"; "pop"; "area"]
          [(0, [1; 10; 100; 8]); (1, [2; 20; 200; 7])]%Z)
    _ _ _ _ _ _ _)).
  - intros t Ht. repeat (apply elem_of_cons in Ht as [->|Ht]);
      [| |by apply elem_of_nil in Ht]; set_solver.
  - done.
  - reflexivity.
  - reflexivity.
  - reflexivity.
  - repeat constructor.
  - vm_compute. reflexivity.
Defined.

(** ** [to_centroids] *)

Lemma for_each_app {S A} (l1 l2 : list A) (body : S → A → result S) st :
  for_each (l1 ++ l2) body st = st' ←! for_each l1 body st; for_each l2 body st'.
Proof.
  revert st. induction l1 as [|m l1 IH]; intros st; simpl; [done|].
  destruct (body st m); simpl; auto.
Qed.

Lemma zip_fmap_pair {A B C} (f : A → B) (g : A → C) (l : list A) :
  zip (f <$> l) (g <$> l) = (λ a, (f a, g a)) <$> l.
Proof.
  induction l as [|a l IH]; [done|].
  rewrite !fmap_cons. simpl. by rewrite IH.
Qed.

Lemma row_pixels (r : nat) (cols : list nat) :
  (λ c, (r, c)) <$> cols = c ← cols; [(r, c)].
Proof.
  induction cols as [|c cols IH]; [done|].
  by rewrite fmap_cons, bind_cons, IH.
Qed.

Section ToCentroidsFacts.
Variable reproject_point : Z → Z → Q * Q → Q * Q.
Variable src : dataset.
Variable nodata : Z.

Local Abbreviation arr := (ds_array src).
Local Abbreviation kept :=
  (λ p : nat * nat, band_sum (ds_array src) p.1 p.2 ≠ nodata).

Lemma append_bands_lookup r c props j :
  append_bands arr r c props !! j =
  if decide (j < n_bands arr)
  then (λ l, l ++ [item arr j r c]) <$> props !! j
  else props !! j.
Proof.
  unfold append_bands. generalize (n_bands arr) as n.
  induction n as [|n IH].
  - done.
  - rewrite seq_S, foldl_app. simpl.
    destruct (decide (j = n)) as [->|Hne].
    + rewrite list_lookup_alter, IH. repeat case_decide; try lia. done.
    + rewrite list_lookup_alter_ne by done. rewrite IH.
      repeat case_decide; try lia; done.
Qed.

Lemma append_bands_collected r c sel :
  append_bands arr r c (properties (collected_of src sel)) =
  properties (collected_of src (sel ++ [(r, c)])).
Proof.
  apply list_eq. intros j. rewrite append_bands_lookup. simpl.
  rewrite !list_lookup_fmap.
  destruct (decide (j < n_bands arr)) as [Hj|Hj].
  - rewrite lookup_seq_lt by done. simpl. by rewrite fmap_app.
  - by rewrite lookup_seq_ge by lia.
Qed.

Lemma sum_eq_nodata_array :
  n_bands arr ≠ 0 →
  sum_eq_nodata arr nodata =
  MaskArray (λ r c, bool_decide (band_sum arr r c = nodata)).
Proof. unfold sum_eq_nodata. by destruct (n_bands arr). Qed.

Lemma visit_pixel_collected r c sel :
  n_bands arr ≠ 0 →
  visit_pixel src (sum_eq_nodata arr nodata) r (collected_of src sel) c =
  OK (collected_of src (sel ++ filter kept [(r, c)])).
Proof.
  intros Hb. unfold visit_pixel. rewrite sum_eq_nodata_array by done.
  cbn [mask_at rbind].
  destruct (decide (band_sum arr r c = nodata)) as [Hs|Hs].
  - rewrite bool_decide_eq_true_2 by done. cbn [negb].
    rewrite filter_cons_False by (simpl; tauto).
    rewrite filter_nil. by rewrite app_nil_r.
  - rewrite bool_decide_eq_false_2 by done. cbn [negb].
    rewrite filter_cons_True by done. rewrite filter_nil.
    destruct (xy src r c) as [x y] eqn:Hxy.
    rewrite append_bands_collected.
    unfold collected_of. rewrite !fmap_app. cbn -[xy]. by rewrite Hxy.
Qed.

Lemma row_loop_collected r cols : ∀ sel,
  n_bands arr ≠ 0 →
  for_each cols (visit_pixel src (sum_eq_nodata arr nodata) r)
           (collected_of src sel) =
  OK (collected_of src (sel ++ filter kept ((λ c, (r, c)) <$> cols))).
Proof.
  induction cols as [|c cols IH]; intros sel Hb.
  - by rewrite fmap_nil, filter_nil, app_nil_r.
  - cbn [for_each]. rewrite visit_pixel_collected by done. cbn [rbind].
    rewrite IH by done. rewrite <-app_assoc. do 3 f_equal.
    by rewrite fmap_cons, <-filter_app.
Qed.

Lemma pixel_loop_collected rows cols : ∀ sel,
  n_bands arr ≠ 0 →
  for_each rows
    (λ st r, for_each cols (visit_pixel src (sum_eq_nodata arr nodata) r) st)
    (collected_of src sel) =
  OK (collected_of src
        (sel ++ filter kept (r ← rows; c ← cols; [(r, c)]))).
Proof.
  induction rows as [|r rows IH]; intros sel Hb.
  - simpl. by rewrite filter_nil, app_nil_r.
  - cbn [for_each]. rewrite row_loop_collected by done. cbn [rbind].
    rewrite IH by done. rewrite <-app_assoc. do 3 f_equal.
    by rewrite bind_cons, filter_app, row_pixels.
Qed.

Lemma elem_of_pixels r c :
  (r, c) ∈ pixels arr ↔ r < n_rows arr ∧ c < n_cols arr.
Proof.
  unfold pixels. rewrite list_elem_of_bind. split.
  - intros (r' & Hc & Hr). apply list_elem_of_bind in Hc as (c' & Hp & Hc).
    apply list_elem_of_singleton in Hp as [= -> ->].
    apply elem_of_seq in Hr, Hc. lia.
  - intros [Hr Hc]. exists r. split; [|apply elem_of_seq; lia].
    apply list_elem_of_bind. exists c. split; [by left|].
    apply elem_of_seq; lia.
Qed.

(** What the code computes: [to_centroids] selects pixels by [sum(arr)],
    the sum of their values taken band after band in the dtype of the
    raster, so that it wraps around for fixed-width integers.  On a
    raster with at least one band and a reference system, the returned
    points and band columns are those of the pixels, in row-major order,
    whose sum so computed differs from [nodata]. *)
Theorem to_centroids_selects_by_sum (to_crs : option Z) (epsg : Z) :
  n_bands arr ≠ 0 →
  ds_crs src = Some epsg →
  let sel := kept_pixels arr nodata in
  let points := (λ p, xy src p.1 p.2) <$> sel in
  to_centroids reproject_point src nodata to_crs =
    OK (mkPF (default epsg to_crs)
             (match to_crs with
              | Some code => reproject_point epsg code <$> points
              | None => points
              end)
             ((λ i, (λ p, item arr i p.1 p.2) <$> sel) <$> seq 0 (n_bands arr))) ∧
  (∀ r c, (r, c) ∈ sel ↔
          r < n_rows arr ∧ c < n_cols arr ∧ band_sum arr r c ≠ nodata) ∧
  (∀ r c, (∀ i, i < n_bands arr → item arr i r c ≠ nodata) →
          band_sum arr r c = nodata → (r, c) ∉ sel) ∧
  (∀ r c i, r < n_rows arr → c < n_cols arr →
            i < n_bands arr → item arr i r c = nodata →
            band_sum arr r c ≠ nodata → (r, c) ∈ sel).
Proof.
  intros Hb Hcrs sel points.
  assert (Hsel : ∀ r c, (r, c) ∈ sel ↔
            r < n_rows arr ∧ c < n_cols arr ∧ band_sum arr r c ≠ nodata).
  { intros r c. unfold sel, kept_pixels.
    rewrite list_elem_of_filter, elem_of_pixels. simpl. tauto. }
  split_and!; [|done| |].
  - unfold to_centroids. rewrite Hcrs. simpl.
    assert (Hinit : mkCollected [] [] (replicate (n_bands arr) []) =
                    collected_of src []).
    { unfold collected_of. simpl. f_equal.
      clear. generalize 0. induction (n_bands arr); intros k; simpl;
        [done|by rewrite <-IHn]. }
    rewrite Hinit, pixel_loop_collected by done. cbn -[xy].
    fold (pixels arr). fold (kept_pixels arr nodata). fold sel.
    rewrite zip_fmap_pair.
    assert (Hpts : (λ a, ((xy src a.1 a.2).1, (xy src a.1 a.2).2)) <$> sel
                   = points).
    { unfold points. apply list_fmap_ext. intros _ p _.
      by destruct (xy src p.1 p.2). }
    rewrite Hpts. by destruct to_crs.
  - intros r c _ Hs. rewrite Hsel. tauto.
  - intros r c i Hr Hc _ _ Hs. by apply Hsel.
Qed.
End ToCentroidsFacts.

(** Without overflow the sum of the code is the plain sum of the bands. *)
Lemma band_sum_exact (arr : ndarray) (r c : nat) :
  (∀ k, k ≤ n_bands arr → in_range (arr_dtype arr) (exact_sum arr r c k)) →
  band_sum arr r c = exact_sum arr r c (n_bands arr).
Proof.
  unfold band_sum, exact_sum, in_range. generalize (n_bands arr) as n.
  induction n as [|n IH]; intros Hr; [done|].
  rewrite seq_S, !foldl_app. simpl. rewrite IH by (intros; apply Hr; lia).
  specialize (Hr (S n) (le_n _)). rewrite seq_S, foldl_app in Hr. apply Hr.
Qed.

(** With [uint8] bands the sum wraps around: two bands of 128 sum to 0. *)
Example band_sum_wraps :
  band_sum RasterExample.arr 0 0 = 0%Z ∧
  exact_sum RasterExample.arr 0 0 2 = 256%Z.
Proof. split; reflexivity. Qed.

(** The points returned for the example raster with [nodata = 0]. *)
Lemma RasterExample_run :
  to_centroids (λ _ _ p, p) RasterExample.src 0 None =
  OK (mkPF 3035 [(460 # 4, 780 # 4); (500 # 4, 780 # 4)]%Q
           [[0; 2]; [7; 3]]%Z).
Proof. vm_compute. reflexivity. Qed.

(** C9: the first pixel of the example raster holds 128 in both bands: no
    band holds the [nodata] value 0, and the values sum to 256, not to
    [nodata].  The specification keeps such a pixel, and so does the
    comment above the mask ("True where input raster has a nodata value in
    every band").  The code leaves it out: [sum(arr)] is taken in [uint8], where 128 + 128
    is 0.  The second pixel, with the bands 0 and 7, is kept. *)
Theorem to_centroids_overflow_drops_pixel :
  ∃ out,
    to_centroids (λ _ _ p, p) RasterExample.src 0 None = OK out ∧
    item RasterExample.arr 0 0 0 = 128%Z ∧
    item RasterExample.arr 1 0 0 = 128%Z ∧
    exact_sum RasterExample.arr 0 0 2 = 256%Z ∧
    band_sum RasterExample.arr 0 0 = 0%Z ∧
    (xy RasterExample.src 0 0 ∉ pf_geometry out) ∧
    xy RasterExample.src 0 1 ∈ pf_geometry out.
Proof.
  eexists. split; [exact RasterExample_run|].
  split_and!; [reflexivity..| |].
  - simpl. intros Hin.
    repeat (apply elem_of_cons in Hin as [Heq|Hin]; [discriminate|]).
    by apply elem_of_nil in Hin.
  - simpl. by left.
Qed.

(** Hence the pixels left out are not those whose values sum to
    [nodata]. *)
Lemma to_centroids_sum_wraps :
  ¬ (∀ (src : dataset) (nodata : Z) (out : PointFrame) (r c : nat),
       r < n_rows (ds_array src) → c < n_cols (ds_array src) →
       to_centroids (λ _ _ p, p) src nodata None = OK out →
       (xy src r c ∉ pf_geometry out ↔
        exact_sum (ds_array src) r c (n_bands (ds_array src)) = nodata)).
Proof.
  intros Hclaim.
  destruct (Hclaim RasterExample.src 0%Z
              (mkPF 3035 [(460 # 4, 780 # 4); (500 # 4, 780 # 4)]%Q
                    [[0; 2]; [7; 3]]%Z) 0 0) as [Hout _];
    [simpl; lia|simpl; lia|exact RasterExample_run|].
  assert (Hsum : exact_sum RasterExample.arr 0 0 2 = 0%Z).
  { apply Hout. simpl. intros Hin.
    repeat (apply elem_of_cons in Hin as [Heq|Hin]; [discriminate|]).
    by apply elem_of_nil in Hin. }
  vm_compute in Hsum. discriminate.
Qed.

Lemma to_centroids_selects_by_sum_witness :
  to_centroids (λ _ _ p, p) RasterExample.src 0 None =
  OK (mkPF 3035
        ((λ p, xy RasterExample.src p.1 p.2) <$>
           kept_pixels RasterExample.arr 0)
        ((λ i, (λ p, item RasterExample.arr i p.1 p.2) <$>
                 kept_pixels RasterExample.arr 0) <$> seq 0 2)).
Proof.
  refine (proj1 (to_centroids_selects_by_sum
                   (λ _ _ p, p) RasterExample.src 0 None 3035 _ _)).
  - simpl. lia.
  - reflexivity.
Defined.

(** ** Loops and positional selection *)

Lemma for_each_inv {S A} (P : S → Prop) (items : list A)
    (body : S → A → result S) : ∀ st st',
  P st →
  (∀ st m st', m ∈ items → P st → body st m = OK st' → P st') →
  for_each items body st = OK st' → P st'.
Proof.
  induction items as [|m items IH]; intros st st' HP Hstep; simpl.
  - by intros [= <-].
  - intros Hrun. inv_rbind Hrun. eapply (IH a); [| |done].
    + eapply Hstep; [by left|done..].
    + intros st0 m0 st0' Hm0. apply Hstep. by right.
Qed.

(** A loop in which every turn either succeeds or raises [e], and some
    turn raises [e] whatever the state, raises [e]. *)
Lemma for_each_raises {S A} (e : exn) (items : list A)
    (body : S → A → result S) : ∀ st,
  (∀ st m, m ∈ items → (∃ st', body st m = OK st') ∨ body st m = Raise e) →
  (∃ m, m ∈ items ∧ ∀ st, body st m = Raise e) →
  for_each items body st = Raise e.
Proof.
  induction items as [|m items IH]; intros st Hall (bad & Hin & Hbad).
  - by apply elem_of_nil in Hin.
  - simpl. apply elem_of_cons in Hin as [Heq|Hin].
    + subst bad. by rewrite Hbad.
    + destruct (Hall st m) as [[st' ->]| ->]; [by left| |done]. simpl.
      apply IH; [|eauto]. intros st0 m0 Hm0. apply Hall. by right.
Qed.

Lemma iloc_OK {A} (l : list A) idx xs :
  iloc l idx = OK xs ↔ Forall2 (λ i x, l !! i = Some x) idx xs.
Proof.
  revert xs. induction idx as [|i idx IH]; intros xs; simpl.
  - split; [intros [= <-]; constructor | by intros ->%Forall2_nil_inv_l].
  - destruct (l !! i) as [x|] eqn:Hi.
    + split.
      * intros Hr. inv_rbind Hr. injection Hr as <-.
        constructor; [done|]. by apply IH.
      * intros (y & ys & Hy & Hys & ->)%Forall2_cons_inv_l.
        apply IH in Hys. rewrite Hys. simpl. congruence.
    + split; [done|].
      intros (y & ys & Hy & _)%Forall2_cons_inv_l. congruence.
Qed.

(** Selecting by a permuted list of positions permutes the selection. *)
Lemma iloc_Permutation {A} (l : list A) idx idx' xs' :
  idx ≡ₚ idx' → iloc l idx' = OK xs' →
  ∃ xs, iloc l idx = OK xs ∧ xs ≡ₚ xs'.
Proof.
  intros Hp. revert xs'.
  induction Hp as [|i idx idx' Hp IH|i j idx|idx1 idx2 idx3 _ IH1 _ IH2];
    intros xs' Hxs'.
  - simpl in *. eauto.
  - simpl in *. destruct (l !! i) as [x|]; [|done].
    inv_rbind Hxs'. injection Hxs' as <-.
    destruct (IH _ Ha) as (xs & -> & Hxs). simpl.
    eexists. split; [done|]. by constructor.
  - simpl in *. destruct (l !! i) as [x|]; [|done].
    destruct (l !! j) as [y|]; [|by destruct (iloc l idx)].
    simpl in *. destruct (iloc l idx) as [zs|]; [|done]. simpl in *.
    injection Hxs' as <-. eexists. split; [done|]. constructor.
  - destruct (IH2 _ Hxs') as (xs2 & H2 & Hp2).
    destruct (IH1 _ H2) as (xs1 & H1 & Hp1).
    exists xs1. split; [done|]. by etrans.
Qed.

Lemma hits_snoc (boxes : list bbox) (b q : bbox) :
  hits (boxes ++ [b]) q =
  hits boxes q ++ (if bbox_intersects b q then [length boxes] else []).
Proof.
  unfold hits. rewrite length_app. simpl.
  rewrite Nat.add_1_r, seq_S. simpl.
  rewrite zip_with_app by (by rewrite length_seq).
  rewrite filter_app, fmap_app. f_equal. simpl.
  destruct (bbox_intersects b q) eqn:Hb.
  - rewrite filter_cons_True by done. by rewrite filter_nil.
  - rewrite filter_cons_False by (simpl; congruence). by rewrite filter_nil.
Qed.

(** The positions the index reports select the items whose box meets the
    query box. *)
Lemma iloc_hits {A} (box : A → bbox) (l : list A) (q : bbox) :
  iloc l (hits (box <$> l) q) =
  OK (filter (λ x, bbox_intersects (box x) q = true) l).
Proof.
  apply iloc_OK. induction l as [|x l IH] using rev_ind.
  - constructor.
  - rewrite fmap_app. simpl. rewrite hits_snoc, filter_app.
    apply Forall2_app.
    + eapply Forall2_impl; [exact IH|]. intros i y Hy. simpl in Hy.
      by apply lookup_app_l_Some.
    + rewrite length_fmap. destruct (bbox_intersects (box x) q) eqn:Hb.
      * rewrite filter_cons_True by done. rewrite filter_nil.
        constructor; [|constructor]. by rewrite list_lookup_middle.
      * rewrite filter_cons_False by (simpl; congruence). rewrite filter_nil.
        constructor.
Qed.

(** ** Sums of rationals *)

Lemma Qsum_Permutation (l l' : list Q) : l ≡ₚ l' → (Qsum l == Qsum l')%Q.
Proof.
  induction 1 as [|x l l' _ IH|x y l|l1 l2 l3 _ IH1 _ IH2]; simpl.
  - reflexivity.
  - by rewrite IH.
  - ring.
  - by rewrite IH1.
Qed.


(** ** The value computed for one region *)

Lemma list_elem_of_nil_inv {A} (l : list A) : (∀ x, x ∉ l) → l = [].
Proof. destruct l as [|x l]; [done|]. intros Hl. destruct (Hl x). by left. Qed.

Section CellFacts.
Context {G : Geometry} {L : GeometryLaws G}.
Implicit Types (g f : geom) (patches : list geom).

Lemma fragments_sum_Qsum (fragments : list geom) g :
  (fragments_sum fragments g ==
   Qsum ((λ f, area (intersection f g) * area f)%Q <$> fragments))%Q.
Proof.
  unfold fragments_sum.
  assert (Hgen : ∀ acc,
    (foldl (λ acc fragment,
              acc + area (intersection fragment g) * area fragment)%Q
           acc fragments ==
     acc + Qsum ((λ f, area (intersection f g) * area f)%Q <$> fragments))%Q).
  { unfold Qsum.
    induction fragments as [|f fragments IH]; intros acc.
    - simpl. ring.
    - rewrite fmap_cons. cbn [foldl foldr]. rewrite IH. ring. }
  rewrite Hgen. ring.
Qed.


(** The index query followed by [iloc] selects, up to order, the patches
    whose box meets the box of the region. *)
Lemma fragment_candidates_OK patches g :
  ∃ fragment_candidates,
    iloc patches (sindex_intersection (bounds <$> patches) (bounds g)) =
      OK fragment_candidates ∧
    fragment_candidates ≡ₚ
      filter (λ f, bbox_intersects (bounds f) (bounds g) = true) patches.
Proof.
  eapply iloc_Permutation; [apply sindex_intersection_spec|].
  apply iloc_hits.
Qed.

(** The exact test after the index query leaves the patches that
    intersect the region. *)
Lemma fragments_Permutation patches g fragment_candidates :
  fragment_candidates ≡ₚ
    filter (λ f, bbox_intersects (bounds f) (bounds g) = true) patches →
  filter (λ f, intersects f g = true) fragment_candidates ≡ₚ
  filter (λ f, intersects f g = true) patches.
Proof.
  intros ->. rewrite list_filter_filter_l; [done|].
  intros f. apply intersects_bounds.
Qed.

Lemma py_div_pos (a b : Q) : (0 < b)%Q → py_div a b = OK (a / b)%Q.
Proof.
  intros Hb. unfold py_div.
  destruct (Qeq_bool b 0) eqn:Heq; [|done].
  apply Qeq_bool_iff in Heq. rewrite Heq in Hb. by apply Qlt_irrefl in Hb.
Qed.

Lemma py_div_zero (a b : Q) : (b == 0)%Q → py_div a b = Raise ZeroDivisionError.
Proof.
  intros Hb. unfold py_div. apply Qeq_bool_iff in Hb. by rewrite Hb.
Qed.

(** The body of the loop computes the formula of the specification. *)
Lemma cell_meff_value patches g :
  (0 < area g)%Q →
  ∃ v, cell_meff patches (bounds <$> patches) g = OK v ∧
       (v == meff_km2 patches g)%Q.
Proof.
  intros Hpos. unfold cell_meff, meff_km2.
  destruct (fragment_candidates_OK patches g) as (cands & -> & Hperm).
  simpl. rewrite py_div_pos by done. simpl.
  eexists. split; [done|].
  rewrite fragments_sum_Qsum.
  apply fragments_Permutation in Hperm.
  by rewrite (Qsum_Permutation _ _ (fmap_Permutation _ _ _ Hperm)).
Qed.

Lemma cell_meff_zero_area patches g :
  (area g == 0)%Q →
  cell_meff patches (bounds <$> patches) g = Raise ZeroDivisionError.
Proof.
  intros Hz. unfold cell_meff.
  destruct (fragment_candidates_OK patches g) as (cands & -> & _).
  simpl. by rewrite py_div_zero.
Qed.


End CellFacts.

(** ** Writing into a table *)

Section TableFacts.
Context {V : Type}.
Implicit Types (df : DataFrame V) (vs : list V) (cols : list string).

Lemma set_cols_length c (v : V) cols vs :
  length (set_cols c v cols vs) = length vs.
Proof.
  revert vs. induction cols as [|c' cols IH]; intros [|x vs]; simpl; auto.
Qed.

Lemma set_cols_lookup_ne c (v : V) cols vs p :
  cols !! p ≠ Some c → set_cols c v cols vs !! p = vs !! p.
Proof.
  revert vs p. induction cols as [|c' cols IH]; intros [|x vs] p Hp; try done.
  destruct p as [|p]; simpl in *.
  - rewrite decide_False; [done|congruence].
  - by apply IH.
Qed.

Lemma set_cols_lookup_eq c (v : V) cols vs p :
  cols !! p = Some c → p < length vs → set_cols c v cols vs !! p = Some v.
Proof.
  revert vs p. induction cols as [|c' cols IH]; intros [|x vs] p Hp Hlt;
    simpl in *; try done; try lia.
  destruct p as [|p]; simpl in *.
  - simplify_eq. by rewrite decide_True.
  - apply IH; [done|lia].
Qed.

Lemma cell_set_cols_ne c c' (v : V) cols vs :
  c' ≠ c → cell cols c' (set_cols c v cols vs) = cell cols c' vs.
Proof.
  intros Hne. unfold cell.
  destruct (col_pos c' cols) as [p|] eqn:Hp; [|done]. simpl.
  apply set_cols_lookup_ne. rewrite (col_pos_Some _ _ _ Hp). congruence.
Qed.

Lemma cell_set_cols_eq c (v : V) cols vs :
  c ∈ cols → length vs = length cols →
  cell cols c (set_cols c v cols vs) = Some v.
Proof.
  intros Hc Hlen. unfold cell.
  destruct (col_pos c cols) as [p|] eqn:Hp.
  - simpl. apply set_cols_lookup_eq; [by apply col_pos_Some|].
    rewrite Hlen. by eapply col_pos_lt.
  - by apply col_pos_None in Hp.
Qed.

(** *** [df[c] = v] *)

Lemma setitem_columns c (v : V) df :
  columns (setitem c v df) =
  if decide (c ∈ columns df) then columns df else columns df ++ [c].
Proof. unfold setitem. by case_decide. Qed.

Lemma setitem_elem_of c (v : V) df : c ∈ columns (setitem c v df).
Proof.
  rewrite setitem_columns. case_decide; [done|].
  apply elem_of_app. right. by left.
Qed.

Lemma setitem_labels c (v : V) df :
  (setitem c v df).(rows).*1 = df.(rows).*1.
Proof.
  unfold setitem. case_decide; simpl;
    (induction (rows df) as [|[l vs] rs IH]; [done|]);
    rewrite !fmap_cons; simpl; by rewrite IH.
Qed.

Lemma setitem_wf c (v : V) df : df_wf df → df_wf (setitem c v df).
Proof.
  unfold df_wf, setitem. rewrite !Forall_forall. intros Hwf.
  case_decide; simpl; intros r (r0 & -> & Hr0)%list_elem_of_fmap; simpl.
  - rewrite set_cols_length. auto.
  - rewrite !length_app. simpl. rewrite (Hwf _ Hr0). done.
Qed.

(** A row of the new table is the row of the old table at the same
    place, with the same label and the same cells under the other
    columns. *)
Lemma setitem_row c (v : V) df i r' :
  df_wf df → rows (setitem c v df) !! i = Some r' →
  ∃ r, rows df !! i = Some r ∧ r'.1 = r.1 ∧
       length r'.2 = length (columns (setitem c v df)) ∧
       (∀ p c', columns df !! p = Some c' → c' ≠ c → r'.2 !! p = r.2 !! p) ∧
       (∀ c', c' ≠ c →
          cell (columns (setitem c v df)) c' r'.2 = cell (columns df) c' r.2).
Proof.
  intros Hwf. unfold df_wf in Hwf. rewrite Forall_forall in Hwf.
  unfold setitem. case_decide as Hc; simpl; rewrite list_lookup_fmap;
    destruct (rows df !! i) as [r|] eqn:Hr; simpl; intros [= <-];
    (exists r; split; [done|]); simpl;
    pose proof (Hwf r (list_elem_of_lookup_2 _ _ _ Hr)) as Hlen.
  - split_and!; [done|by rewrite set_cols_length| |].
    + intros p c' Hp Hne. apply set_cols_lookup_ne. congruence.
    + intros c' Hne. by apply cell_set_cols_ne.
  - split_and!; [done|rewrite !length_app; simpl; lia| |].
    + intros p c' Hp Hne. apply lookup_app_l.
      rewrite Hlen. by eapply lookup_lt_Some.
    + intros c' Hne. unfold cell.
      rewrite col_pos_app_l
        by (by intros ->%list_elem_of_singleton).
      destruct (col_pos c' (columns df)) as [p|] eqn:Hp; [|done]. simpl.
      apply lookup_app_l. rewrite Hlen. by eapply col_pos_lt.
Qed.

(** *** [df.at[label, c] = v] *)

Lemma at_set_columns label c (v : V) df :
  columns (at_set label c v df) = columns df.
Proof. done. Qed.

Lemma at_set_labels label c (v : V) df :
  (at_set label c v df).(rows).*1 = df.(rows).*1.
Proof.
  unfold at_set. simpl.
  induction (rows df) as [|[l vs] rs IH]; [done|].
  rewrite !fmap_cons, IH. simpl. by case_decide.
Qed.

Lemma at_set_row label c (v : V) df i r' :
  rows (at_set label c v df) !! i = Some r' →
  ∃ r, rows df !! i = Some r ∧ r'.1 = r.1 ∧ length r'.2 = length r.2 ∧
       ∀ p, columns df !! p ≠ Some c → r'.2 !! p = r.2 !! p.
Proof.
  unfold at_set. simpl. rewrite list_lookup_fmap.
  destruct (rows df !! i) as [r|]; simpl; [|done]. intros [= <-].
  exists r. split; [done|]. case_decide; simpl; [|done].
  split_and!; [done|apply set_cols_length|].
  intros p Hp. by apply set_cols_lookup_ne.
Qed.

(** With unique labels only the row of the label is written. *)
Lemma at_set_unique label c (v : V) cols pre vs post :
  label ∉ (pre.*1) → label ∉ (post.*1) →
  at_set label c v (mkDF cols (pre ++ (label, vs) :: post)) =
  mkDF cols (pre ++ (label, set_cols c v cols vs) :: post).
Proof.
  intros Hpre Hpost. unfold at_set. simpl. f_equal.
  assert (Hid : ∀ l : list (Z * list V), label ∉ (l.*1) →
            (λ r, if decide (r.1 = label)
                  then (r.1, set_cols c v cols r.2) else r) <$> l = l).
  { intros l Hl. rewrite <-(list_fmap_id l) at 2.
    apply list_fmap_ext. intros _ r Hr%list_elem_of_lookup_2. simpl.
    rewrite decide_False; [done|]. intros <-. apply Hl.
    apply list_elem_of_fmap. eauto. }
  rewrite fmap_app, fmap_cons, (Hid pre), (Hid post) by done. simpl.
  by rewrite decide_True.
Qed.
End TableFacts.

(** ** Mapping with exceptions *)

Lemma mapM_OK {A B} (f : A → result B) (l : list A) (ys : list B) :
  mapM f l = OK ys ↔ Forall2 (λ x y, f x = OK y) l ys.
Proof.
  revert ys. induction l as [|x l IH]; intros ys; simpl.
  - split; [intros [= <-]; constructor | by intros ->%Forall2_nil_inv_l].
  - split.
    + intros Hr. inv_rbind Hr. inv_rbind Hr. injection Hr as <-.
      constructor; [done|]. by apply IH.
    + intros (y & ys' & Hy & Hys & ->)%Forall2_cons_inv_l.
      apply IH in Hys. by rewrite Hy, Hys.
Qed.

Lemma mapM_returns {A B} (f : A → result B) (l : list A) :
  (∀ x, x ∈ l → ∃ y, f x = OK y) → ∃ ys, mapM f l = OK ys.
Proof.
  induction l as [|x l IH]; intros Hall; simpl; [eauto|].
  destruct (Hall x) as [y ->]; [by left|].
  destruct IH as [ys ->]; [intros; apply Hall; by right|]. simpl. eauto.
Qed.

Lemma mapM_Permutation {A B} (f : A → result B) (l l' : list A) ys :
  l ≡ₚ l' → mapM f l = OK ys → ∃ ys', mapM f l' = OK ys' ∧ ys ≡ₚ ys'.
Proof.
  intros Hp. revert ys.
  induction Hp as [|x l l' _ IH|x y l|l1 l2 l3 _ IH1 _ IH2]; intros ys Hys.
  - simpl in *. eauto.
  - simpl in *. inv_rbind Hys. inv_rbind Hys. injection Hys as <-.
    destruct (IH _ Ha0) as (ys' & -> & Hperm). rewrite Ha. simpl.
    eexists. split; [done|]. by constructor.
  - simpl in *. destruct (f y) as [y'|]; [|done].
    destruct (f x) as [x'|]; [|done]. simpl in *.
    destruct (mapM f l) as [zs|]; [|done]. simpl in *.
    injection Hys as <-. eexists. split; [done|]. constructor.
  - destruct (IH1 _ Hys) as (ys2 & H2 & Hp2).
    destruct (IH2 _ H2) as (ys3 & H3 & Hp3).
    exists ys3. split; [done|]. by etrans.
Qed.

(** ** The loop of [meff] *)

Lemma frame_eta {V} (df : DataFrame V) : mkDF (columns df) (rows df) = df.
Proof. by destruct df. Qed.

Lemma NoDup_labels_middle {V} (pre post : list (Z * list V)) label vs :
  NoDup ((pre ++ (label, vs) :: post).*1) →
  (label ∉ pre.*1) ∧ (label ∉ post.*1).
Proof.
  rewrite fmap_app, fmap_cons. simpl.
  intros (_ & Hpre & [Hpost _]%NoDup_cons)%NoDup_app. split; [|done].
  intros Hin. apply (Hpre _ Hin). by left.
Qed.

Section LoopFacts.
Context {G : Geometry}.
Local Abbreviation Frame := (DataFrame (value geom)).
Local Abbreviation heap := (gmap loc (GeoDataFrame geom)).

Variable patches : list geom.
Variable patches_sindex : list bbox.
Variable cols : list string.

(** With unique labels the loop rewrites the rows one after the other. *)
Lemma frame_loop_closed (post : list (Z * list (value geom))) : ∀ pre,
  NoDup ((pre ++ post).*1) →
  for_each post (meff_cell patches patches_sindex cols)
           (mkDF cols (pre ++ post)) =
  post' ←! mapM (row_done patches patches_sindex cols) post;
  OK (mkDF cols (pre ++ post')).
Proof.
  induction post as [|[label vs] post IH]; intros pre Hnd.
  - simpl. by rewrite app_nil_r.
  - cbn [for_each mapM]. unfold meff_cell at 1, row_done at 1. simpl.
    destruct (cell_geometry cols vs) as [g|e]; [|done]. simpl.
    destruct (cell_meff patches patches_sindex g) as [v|e]; [|done]. simpl.
    destruct (NoDup_labels_middle _ _ _ _ Hnd) as [Hpre Hpost].
    rewrite at_set_unique by done.
    rewrite (cons_middle _ pre post), app_assoc.
    rewrite IH.
    2:{ rewrite <-app_assoc. simpl.
        rewrite fmap_app, fmap_cons in Hnd |- *. done. }
    destruct (mapM _ post) as [post'|e]; [|done]. simpl.
    by rewrite <-app_assoc.
Qed.

(** The loop over the store is the loop over the table the reference
    [l] leads to. *)
Lemma heap_loop (l : loc) (crs : option Z)
    (body : Frame → Z * list (value geom) → result Frame)
    (cells : list (Z * list (value geom))) : ∀ (frame : Frame) (h : heap),
  h !! l = Some (mkGDF frame crs) →
  for_each cells
    (λ h cell,
       match h !! l with
       | None => Raise NameError
       | Some cur =>
           frame ←! body (gdf_frame cur) cell;
           OK (<[l := mkGDF frame (gdf_crs cur)]> h)
       end) h =
  frame' ←! for_each cells body frame;
  OK (<[l := mkGDF frame' crs]> h).
Proof.
  induction cells as [|cell cells IH]; intros frame h Hl.
  - simpl. by rewrite insert_id.
  - cbn [for_each]. rewrite Hl. simpl.
    destruct (body frame cell) as [frame1|e]; [|done]. simpl.
    rewrite (IH frame1) by apply lookup_insert_eq.
    destruct (for_each cells body frame1) as [frame'|e]; [|done]. simpl.
    by rewrite insert_insert_eq.
Qed.
End LoopFacts.

Section MeffFacts.
Context {G : Geometry}.
Local Abbreviation Frame := (DataFrame (value geom)).
Local Abbreviation heap := (gmap loc (GeoDataFrame geom)).
Implicit Types (lines boundary : list geom) (h : heap) (m : GeoDataFrame geom).

(** [meff] allocates a copy of the table of the mask, runs
    [meff_frame] on it and returns the reference to the copy. *)
Lemma meff_unfold lines boundary (mask : loc) h m crs :
  h !! mask = Some m → gdf_crs m = Some crs →
  meff lines boundary mask h =
  frame' ←! meff_frame lines (gdf_frame m);
  OK (fresh (dom h), <[fresh (dom h) := mkGDF frame' (Some crs)]> h).
Proof.
  intros Hm Hcrs. unfold meff. rewrite Hm, Hcrs. simpl.
  rewrite alter_insert_eq, lookup_insert_eq. simpl.
  erewrite heap_loop by (rewrite lookup_insert_eq, Hcrs; done).
  unfold meff_frame.
  destruct (for_each _ _ _) as [frame'|e]; [|done]. simpl.
  by rewrite insert_insert_eq.
Qed.

Lemma meff_returned lines boundary (mask l : loc) h h' :
  meff lines boundary mask h = OK (l, h') →
  ∃ m crs out,
    h !! mask = Some m ∧ gdf_crs m = Some crs ∧
    meff_frame lines (gdf_frame m) = OK out ∧
    l = fresh (dom h) ∧ h' = <[l := mkGDF out (Some crs)]> h.
Proof.
  intros Hrun.
  destruct (h !! mask) as [m|] eqn:Hm; [|by unfold meff in Hrun; rewrite Hm in Hrun].
  destruct (gdf_crs m) as [crs|] eqn:Hcrs;
    [|by unfold meff in Hrun; rewrite Hm, Hcrs in Hrun].
  rewrite (meff_unfold _ _ _ _ _ _ Hm Hcrs) in Hrun.
  inv_rbind Hrun. injection Hrun as <- <-. eauto 10.
Qed.

(** With unique labels [meff_frame] maps [row_done] over the rows. *)
Lemma meff_frame_closed lines (frame : Frame) :
  NoDup ((rows frame).*1) →
  let frame1 := setitem "meff" VNaN frame in
  meff_frame lines frame =
  rows' ←! mapM (row_done (polygonized lines) (bounds <$> polygonized lines)
                          (columns frame1)) (rows frame1);
  OK (mkDF (columns frame1) rows').
Proof.
  intros Hnd frame1. unfold meff_frame. fold frame1.
  rewrite <-(frame_eta frame1) at 3.
  rewrite <-(app_nil_l (rows frame1)) at 2.
  rewrite frame_loop_closed; [done|].
  simpl. unfold frame1. by rewrite setitem_labels.
Qed.
End MeffFacts.

(** ** What [meff] leaves as it was *)

Section FrameClaims.
Context {G : Geometry}.
Local Abbreviation Frame := (DataFrame (value geom)).
Local Abbreviation heap := (gmap loc (GeoDataFrame geom)).
Implicit Types (lines boundary : list geom) (h : heap) (frame : Frame).

(** The loop writes under the [meff] columns only. *)
Lemma meff_frame_effect lines frame out :
  df_wf frame →
  meff_frame lines frame = OK out →
  columns out = columns (setitem "meff" VNaN frame) ∧
  (rows out).*1 = (rows frame).*1 ∧
  ∀ i r' r p c,
    rows out !! i = Some r' → rows frame !! i = Some r →
    columns frame !! p = Some c → c ≠ "meff" →
    r'.2 !! p = r.2 !! p.
Proof.
  intros Hwf Hrun. unfold meff_frame in Hrun.
  set (frame1 := setitem "meff" VNaN frame) in *.
  pose (P := λ st : Frame,
    columns st = columns frame1 ∧
    (rows st).*1 = (rows frame).*1 ∧
    ∀ i r' r p c,
      rows st !! i = Some r' → rows frame !! i = Some r →
      columns frame !! p = Some c → c ≠ "meff" → r'.2 !! p = r.2 !! p).
  change (P out). eapply (for_each_inv P); [| |exact Hrun].
  - split_and!; [done|apply setitem_labels|].
    intros i r' r p c Hr' Hr Hp Hne.
    destruct (setitem_row _ _ _ _ _ Hwf Hr') as (r0 & Hr0 & _ & _ & Hpos & _).
    rewrite Hr in Hr0. injection Hr0 as <-. by eapply Hpos.
  - intros st cell st' _ (Hcols & Hlabels & Hcells) Hstep.
    unfold meff_cell in Hstep. inv_rbind Hstep. inv_rbind Hstep.
    injection Hstep as <-. split_and!.
    + by rewrite at_set_columns.
    + by rewrite at_set_labels.
    + intros i r' r p c Hr' Hr Hp Hne.
      destruct (at_set_row _ _ _ _ _ _ Hr') as (r0 & Hr0 & _ & _ & Hpos).
      rewrite Hpos; [by eapply Hcells|].
      rewrite Hcols. unfold frame1. rewrite setitem_columns.
      case_decide.
      * rewrite Hp. congruence.
      * pose proof (lookup_lt_Some _ _ _ Hp) as Hlt.
        rewrite lookup_app_l by done. rewrite Hp. congruence.
Qed.

(** C7: in the table [meff] returns, the columns other than [meff], the
    rows, their order and their index labels are those of the table of
    the mask; the cells under the other columns are unchanged. *)
Theorem meff_frame_untouched lines boundary (mask l : loc) h h' m :
  h !! mask = Some m →
  df_wf (gdf_frame m) →
  meff lines boundary mask h = OK (l, h') →
  ∃ out,
    h' !! l = Some out ∧
    gdf_crs out = gdf_crs m ∧
    columns (gdf_frame out) =
      (if decide ("meff" ∈ columns (gdf_frame m))
       then columns (gdf_frame m) else columns (gdf_frame m) ++ ["meff"]) ∧
    (rows (gdf_frame out)).*1 = (rows (gdf_frame m)).*1 ∧
    ∀ i r' r p c,
      rows (gdf_frame out) !! i = Some r' →
      rows (gdf_frame m) !! i = Some r →
      columns (gdf_frame m) !! p = Some c → c ≠ "meff" →
      r'.2 !! p = r.2 !! p.
Proof.
  intros Hm Hwf Hrun.
  destruct (meff_returned _ _ _ _ _ _ Hrun)
    as (m' & crs & out & Hm' & Hcrs & Hout & -> & ->).
  rewrite Hm in Hm'. injection Hm' as <-.
  destruct (meff_frame_effect _ _ _ Hwf Hout) as (Hcols & Hlabels & Hcells).
  exists (mkGDF out (Some crs)). rewrite lookup_insert_eq. simpl.
  split_and!; [done|done| |done|done].
  by rewrite Hcols, setitem_columns.
Qed.

(** C3 (amended): [meff] does not touch the object the caller passes as
    mask.  It returns a reference to a new object, a copy of the table
    of the mask that carries the [meff] column; every object of the
    caller, the mask included, is as it was before the call. *)
Theorem meff_returns_copy lines boundary (mask l : loc) h h' :
  meff lines boundary mask h = OK (l, h') →
  h !! l = None ∧ l ≠ mask ∧
  (∀ l0, l0 ≠ l → h' !! l0 = h !! l0) ∧
  h' !! mask = h !! mask ∧
  ∃ out, h' !! l = Some out ∧ "meff" ∈ columns (gdf_frame out).
Proof.
  intros Hrun.
  destruct (meff_returned _ _ _ _ _ _ Hrun)
    as (m & crs & out & Hm & Hcrs & Hout & -> & ->).
  assert (Hfresh : h !! fresh (dom h) = None).
  { apply not_elem_of_dom, is_fresh. }
  assert (Hne : fresh (dom h) ≠ mask) by (intros Heq; congruence).
  split_and!; [done|done| | |].
  - intros l0 Hl0. by rewrite lookup_insert_ne.
  - by rewrite lookup_insert_ne.
  - exists (mkGDF out (Some crs)). rewrite lookup_insert_eq. split; [done|].
    simpl. unfold meff_frame in Hout.
    assert (Hcols : columns out = columns (setitem "meff" VNaN (gdf_frame m))).
    { eapply (for_each_inv (λ st : Frame,
                columns st = columns (setitem "meff" VNaN (gdf_frame m))));
        [| |exact Hout]; [done|].
      intros st cell st' _ Hst Hstep. unfold meff_cell in Hstep.
      inv_rbind Hstep. inv_rbind Hstep. by injection Hstep as <-. }
    rewrite Hcols. apply setitem_elem_of.
Qed.

(** C2: the boundary has no part in what [meff] computes: the value of
    [lines.geometry.append(boundary.boundary)] is dropped, so the ring of
    the boundary never reaches the union that is polygonized. *)
Theorem meff_ignores_boundary lines boundary boundary' (mask : loc) h :
  meff lines boundary mask h = meff lines boundary' mask h.
Proof. reflexivity. Qed.
End FrameClaims.

(** ** The values [meff] writes *)

Lemma NoDup_labels_inj {V} (l : list (Z * list V)) r r' :
  NoDup (l.*1) → r ∈ l → r' ∈ l → r.1 = r'.1 → r = r'.
Proof.
  induction l as [|x l IH]; intros Hnd Hr Hr' Heq.
  - by apply elem_of_nil in Hr.
  - rewrite fmap_cons in Hnd. apply NoDup_cons in Hnd as [Hx Hnd].
    apply elem_of_cons in Hr as [->|Hr], Hr' as [->|Hr']; [done| | |by apply IH].
    + destruct Hx. rewrite Heq. apply list_elem_of_fmap. eauto.
    + destruct Hx. rewrite <-Heq. apply list_elem_of_fmap. eauto.
Qed.

(** With unique labels, the row a label identifies does not depend on the
    order of the rows. *)
Lemma find_row_Permutation {V} (l l' : list (Z * list V)) (label : Z) :
  l ≡ₚ l' → NoDup (l.*1) →
  snd <$> list_find (λ r, r.1 = label) l =
  snd <$> list_find (λ r, r.1 = label) l'.
Proof.
  intros Hp Hnd.
  destruct (list_find _ l) as [[i r]|] eqn:Hf;
    destruct (list_find _ l') as [[i' r']|] eqn:Hf'; simpl; [| | |done].
  - apply list_find_Some in Hf as (Hr%list_elem_of_lookup_2 & Hl & _).
    apply list_find_Some in Hf' as (Hr'%list_elem_of_lookup_2 & Hl' & _).
    f_equal. apply (NoDup_labels_inj l); [done|done| |congruence].
    by rewrite Hp.
  - apply list_find_Some in Hf as (Hr%list_elem_of_lookup_2 & Hl & _).
    rewrite list_find_None, Forall_forall in Hf'.
    destruct (Hf' r); [by rewrite <-Hp|done].
  - apply list_find_Some in Hf' as (Hr'%list_elem_of_lookup_2 & Hl' & _).
    rewrite list_find_None, Forall_forall in Hf.
    destruct (Hf r'); [by rewrite Hp|done].
Qed.

Lemma setitem_Permutation {V} c (v : V) (df df' : DataFrame V) :
  columns df = columns df' → rows df ≡ₚ rows df' →
  columns (setitem c v df) = columns (setitem c v df') ∧
  rows (setitem c v df) ≡ₚ rows (setitem c v df').
Proof.
  intros Hcols Hrows. unfold setitem. rewrite Hcols.
  case_decide; simpl; (split; [done|]); by apply fmap_Permutation.
Qed.

Section ValueClaims.
Context {G : Geometry} {L : GeometryLaws G}.
Local Abbreviation Frame := (DataFrame (value geom)).
Local Abbreviation heap := (gmap loc (GeoDataFrame geom)).
Implicit Types (lines boundary : list geom) (h : heap) (frame : Frame).

Lemma row_done_label patches sindex cols (r r' : Z * list (value geom)) :
  row_done patches sindex cols r = OK r' → r'.1 = r.1.
Proof.
  unfold row_done. intros Hr. inv_rbind Hr. inv_rbind Hr.
  by injection Hr as <-.
Qed.

(** One turn of the loop, whatever the table and the other regions are:
    for a region of positive area it writes the formula of the
    specification under the label of the region. *)
Lemma meff_cell_value patches cols (mask : Frame)
    (cell : Z * list (value geom)) g :
  cell_geometry cols cell.2 = OK g → (0 < area g)%Q →
  ∃ v, meff_cell patches (bounds <$> patches) cols mask cell =
         OK (at_set cell.1 "meff" (VFloat v) mask) ∧
       (v == meff_km2 patches g)%Q.
Proof.
  intros Hg Hpos. unfold meff_cell. rewrite Hg. simpl.
  destruct (cell_meff_value patches g Hpos) as (v & -> & Heq). simpl. eauto.
Qed.

(** The row the loop leaves for a region of positive area. *)
Lemma row_done_value lines frame i r1 r g :
  df_wf frame →
  rows (setitem "meff" VNaN frame) !! i = Some r1 →
  rows frame !! i = Some r →
  cell (columns frame) "geometry" r.2 = Some (VGeom g) →
  (0 < area g)%Q →
  let patches := polygonized lines in
  let cols1 := columns (setitem "meff" VNaN frame) in
  ∃ v,
    row_done patches (bounds <$> patches) cols1 r1 =
      OK (r.1, set_cols "meff" (VFloat v) cols1 r1.2) ∧
    cell cols1 "meff" (set_cols "meff" (VFloat v) cols1 r1.2) =
      Some (VFloat v) ∧
    cell_meff patches (bounds <$> patches) g = OK v ∧
    (v == meff_km2 patches g)%Q.
Proof.
  intros Hwf Hr1 Hr Hg Hpos patches cols1.
  destruct (setitem_row _ _ _ _ _ Hwf Hr1)
    as (r0 & Hr0 & Hlabel & Hlen & _ & Hcell).
  rewrite Hr in Hr0. injection Hr0 as <-.
  destruct (cell_meff_value patches g Hpos) as (v & Hv & Heq).
  exists v. split_and!; [|by apply cell_set_cols_eq; [apply setitem_elem_of|]
                        |done|done].
  unfold row_done, cell_geometry. fold cols1.
  unfold cols1 at 1. rewrite Hcell by done. rewrite Hg. simpl.
  rewrite Hv. simpl. by rewrite Hlabel.
Qed.

(** C1: when the regions of the mask have unique index labels and
    positive areas, [meff] returns a table in which the [meff] cell of
    every region [R] holds the value the loop body computes for [R], and
    that value is the sum, over the fragments that intersect [R], of
    area(intersection(f, R)) * area(f), divided by area(R) and by
    1,000,000. *)
Theorem meff_value lines boundary (mask : loc) h m crs :
  h !! mask = Some m →
  gdf_crs m = Some crs →
  df_wf (gdf_frame m) →
  NoDup ((rows (gdf_frame m)).*1) →
  (∀ r, r ∈ rows (gdf_frame m) →
     ∃ g, cell (columns (gdf_frame m)) "geometry" r.2 = Some (VGeom g) ∧
          (0 < area g)%Q) →
  ∃ out,
    meff lines boundary mask h =
      OK (fresh (dom h), <[fresh (dom h) := out]> h) ∧
    ∀ i R g,
      rows (gdf_frame m) !! i = Some R →
      cell (columns (gdf_frame m)) "geometry" R.2 = Some (VGeom g) →
      ∃ R' v,
        rows (gdf_frame out) !! i = Some R' ∧ R'.1 = R.1 ∧
        cell (columns (gdf_frame out)) "meff" R'.2 = Some (VFloat v) ∧
        cell_meff (polygonized lines) (bounds <$> polygonized lines) g = OK v ∧
        (v == meff_km2 (polygonized lines) g)%Q.
Proof.
  intros Hm Hcrs Hwf Hnd Hpos.
  rewrite (meff_unfold _ _ _ _ _ _ Hm Hcrs).
  rewrite meff_frame_closed by done.
  set (frame := gdf_frame m) in *.
  set (frame1 := setitem "meff" VNaN frame).
  set (patches := polygonized lines).
  assert (Hlen : length (rows frame1) = length (rows frame)).
  { rewrite <-(length_fmap fst (rows frame1)), <-(length_fmap fst (rows frame)).
    unfold frame1. by rewrite setitem_labels. }
  assert (Hrow : ∀ i r1 R g,
    rows frame1 !! i = Some r1 → rows frame !! i = Some R →
    cell (columns frame) "geometry" R.2 = Some (VGeom g) →
    ∃ v,
      row_done patches (bounds <$> patches) (columns frame1) r1 =
        OK (R.1, set_cols "meff" (VFloat v) (columns frame1) r1.2) ∧
      cell (columns frame1) "meff"
           (set_cols "meff" (VFloat v) (columns frame1) r1.2) =
        Some (VFloat v) ∧
      cell_meff patches (bounds <$> patches) g = OK v ∧
      (v == meff_km2 patches g)%Q).
  { intros i r1 R g Hr1 HR Hg.
    destruct (Hpos R (list_elem_of_lookup_2 _ _ _ HR)) as (g' & Hg' & Hp).
    rewrite Hg in Hg'. injection Hg' as <-.
    by apply (row_done_value lines frame i). }
  destruct (mapM_returns
              (row_done patches (bounds <$> patches) (columns frame1))
              (rows frame1)) as [rows' Hrows'].
  { intros r1 (i & Hr1)%list_elem_of_lookup_1.
    destruct (lookup_lt_is_Some_2 (rows frame) i) as [R HR].
    { rewrite <-Hlen. by eapply lookup_lt_Some. }
    destruct (Hpos R (list_elem_of_lookup_2 _ _ _ HR)) as (g & Hg & _).
    destruct (Hrow i r1 R g Hr1 HR Hg) as (v & -> & _). eauto. }
  rewrite Hrows'. simpl. eexists. split; [done|]. simpl.
  intros i R g HR Hg.
  destruct (lookup_lt_is_Some_2 (rows frame1) i) as [r1 Hr1].
  { rewrite Hlen. by eapply lookup_lt_Some. }
  destruct (Hrow i r1 R g Hr1 HR Hg) as (v & Hdone & Hcell & Hv & Heq).
  apply mapM_OK in Hrows'.
  destruct (Forall2_lookup_l _ _ _ _ _ Hrows' Hr1) as (R' & HR' & Hdone').
  rewrite Hdone in Hdone'. injection Hdone' as <-.
  eexists _, v. split_and!; [exact HR'|done..].
Qed.

(** C4: the division by the area of the region is not guarded: on a
    mask that holds a region of area zero, [meff] raises
    [ZeroDivisionError] instead of returning a table. *)
Theorem meff_zero_area_raises lines boundary (mask : loc) h m crs R g :
  h !! mask = Some m →
  gdf_crs m = Some crs →
  df_wf (gdf_frame m) →
  has_geometries (gdf_frame m) →
  R ∈ rows (gdf_frame m) →
  cell (columns (gdf_frame m)) "geometry" R.2 = Some (VGeom g) →
  (area g == 0)%Q →
  meff lines boundary mask h = Raise ZeroDivisionError.
Proof.
  intros Hm Hcrs Hwf Hgeo HR Hg Hz.
  rewrite (meff_unfold _ _ _ _ _ _ Hm Hcrs).
  set (frame := gdf_frame m) in *.
  set (frame1 := setitem "meff" VNaN frame).
  assert (Hloop : meff_frame lines frame = Raise ZeroDivisionError);
    [|by rewrite Hloop].
  unfold meff_frame. fold frame1.
  assert (Hlen : length (rows frame1) = length (rows frame)).
  { rewrite <-(length_fmap fst (rows frame1)), <-(length_fmap fst (rows frame)).
    unfold frame1. by rewrite setitem_labels. }
  assert (Hgeo1 : ∀ i r1 r g0,
    rows frame1 !! i = Some r1 → rows frame !! i = Some r →
    cell (columns frame) "geometry" r.2 = Some (VGeom g0) →
    cell_geometry (columns frame1) r1.2 = OK g0).
  { intros i r1 r g0 Hr1 Hr Hg0.
    destruct (setitem_row _ _ _ _ _ Hwf Hr1) as (r0 & Hr0 & _ & _ & _ & Hcell).
    rewrite Hr in Hr0. injection Hr0 as <-.
    unfold cell_geometry, frame1. rewrite Hcell by done. by rewrite Hg0. }
  apply for_each_raises.
  - intros st r1 (i & Hr1)%list_elem_of_lookup_1.
    destruct (lookup_lt_is_Some_2 (rows frame) i) as [r Hr].
    { rewrite <-Hlen. by eapply lookup_lt_Some. }
    destruct (Hgeo r (list_elem_of_lookup_2 _ _ _ Hr)) as [g0 Hg0].
    unfold meff_cell. rewrite (Hgeo1 i r1 r g0) by done. simpl.
    destruct (Qlt_le_dec 0 (area g0)) as [Hp|Hn].
    + destruct (cell_meff_value (polygonized lines) g0 Hp) as (v & -> & _).
      simpl. eauto.
    + right. rewrite cell_meff_zero_area; [done|].
      apply Qle_antisym; [done|apply area_nonneg].
  - apply list_elem_of_lookup_1 in HR as [i HR].
    destruct (lookup_lt_is_Some_2 (rows frame1) i) as [r1 Hr1].
    { rewrite Hlen. by eapply lookup_lt_Some. }
    exists r1. split; [by eapply list_elem_of_lookup_2|].
    intros st. unfold meff_cell. rewrite (Hgeo1 i r1 R g) by done. simpl.
    by rewrite cell_meff_zero_area.
Qed.
End ValueClaims.

(** ** The order of the regions *)

Section OrderClaims.
Context {G : Geometry}.
Local Abbreviation Frame := (DataFrame (value geom)).
Local Abbreviation heap := (gmap loc (GeoDataFrame geom)).
Implicit Types (lines boundary : list geom) (h : heap) (frame : Frame).

Lemma meff_at_Permutation (df df' : Frame) (label : Z) :
  columns df = columns df' → rows df ≡ₚ rows df' → NoDup ((rows df).*1) →
  meff_at df label = meff_at df' label.
Proof.
  intros Hcols Hrows Hnd. unfold meff_at. rewrite <-Hcols.
  pose proof (find_row_Permutation _ _ label Hrows Hnd) as Hfind.
  destruct (list_find _ (rows df)) as [[i r]|];
    destruct (list_find _ (rows df')) as [[i' r']|]; simpl in *;
    by simplify_eq.
Qed.

(** Tables with the same columns and the same rows in another order are
    turned into tables with the same rows in another order. *)
Lemma meff_frame_Permutation lines (frame frame' out : Frame) :
  columns frame = columns frame' → rows frame ≡ₚ rows frame' →
  NoDup ((rows frame).*1) →
  meff_frame lines frame = OK out →
  ∃ out', meff_frame lines frame' = OK out' ∧
          columns out = columns out' ∧ rows out ≡ₚ rows out' ∧
          NoDup ((rows out).*1).
Proof.
  intros Hcols Hrows Hnd Hout.
  assert (Hnd' : NoDup ((rows frame').*1)) by (by rewrite <-Hrows).
  rewrite meff_frame_closed in Hout |- * by done.
  destruct (setitem_Permutation "meff" VNaN frame frame' Hcols Hrows)
    as [Hcols1 Hrows1].
  inv_rbind Hout. injection Hout as <-. rewrite <-Hcols1.
  destruct (mapM_Permutation _ _ _ _ Hrows1 Ha) as (rows' & -> & Hperm).
  simpl. eexists. split_and!; [done|done|done|].
  simpl. apply mapM_OK in Ha.
  assert (Hlabels : a.*1 = (rows (setitem "meff" VNaN frame)).*1).
  { clear -Ha. induction Ha as [|r r' rs rs' Hr _ IH]; [done|].
    rewrite !fmap_cons, IH. f_equal. unfold row_done in Hr.
    inv_rbind Hr. inv_rbind Hr. by injection Hr as <-. }
  by rewrite Hlabels, setitem_labels.
Qed.

(** C6: two masks that hold the same regions in different orders, each
    region with an index label of its own, fare alike: [meff] raises on
    both or returns on both, and in the returned tables every label
    identifies the same row, with the same [meff] value. *)
Theorem meff_order_independent lines boundary
    (mask mask' : loc) h h' (m m' : GeoDataFrame geom) :
  h !! mask = Some m →
  h' !! mask' = Some m' →
  gdf_crs m = gdf_crs m' →
  columns (gdf_frame m) = columns (gdf_frame m') →
  rows (gdf_frame m) ≡ₚ rows (gdf_frame m') →
  NoDup ((rows (gdf_frame m)).*1) →
  match meff lines boundary mask h, meff lines boundary mask' h' with
  | OK (l, hl), OK (l', hl') =>
      ∃ out out',
        hl !! l = Some out ∧ hl' !! l' = Some out' ∧
        rows (gdf_frame out) ≡ₚ rows (gdf_frame out') ∧
        ∀ label, meff_at (gdf_frame out) label =
                 meff_at (gdf_frame out') label
  | Raise _, Raise _ => True
  | _, _ => False
  end.
Proof.
  intros Hm Hm' Hcrs Hcols Hrows Hnd.
  destruct (gdf_crs m) as [crs|] eqn:Hc.
  2:{ unfold meff. rewrite Hm, Hm', Hc, <-Hcrs. done. }
  rewrite (meff_unfold _ _ _ _ _ _ Hm Hc).
  rewrite (meff_unfold _ _ _ _ _ crs Hm') by done.
  assert (Hnd' : NoDup ((rows (gdf_frame m')).*1)) by (by rewrite <-Hrows).
  destruct (meff_frame lines (gdf_frame m)) as [out|e] eqn:Hout.
  - destruct (meff_frame_Permutation _ _ _ _ Hcols Hrows Hnd Hout)
      as (out' & -> & Hcols' & Hrows' & Hndo).
    simpl. eexists _, _. rewrite !lookup_insert_eq.
    split_and!; [done|done|done|]. simpl.
    intros label. by apply meff_at_Permutation.
  - destruct (meff_frame lines (gdf_frame m')) as [out'|e'] eqn:Hout';
      [|done]. simpl.
    destruct (meff_frame_Permutation lines (gdf_frame m') (gdf_frame m) out')
      as (out & Hout2 & _); [done|done|done|done|congruence].
Qed.
End OrderClaims.

(** ** The geometries on a line obey the laws *)

Lemma Transect_lo_le (g : Transect.geom1) (i : Z * Z) :
  In i g → (Transect.lo g ≤ i.1)%Z.
Proof.
  unfold Transect.lo. generalize ((hd (0, 0)%Z g).1) as init.
  induction g as [|j g IH]; intros init Hin; [done|]. simpl.
  destruct Hin as [->|Hin]; [apply Z.le_min_l|].
  etrans; [apply Z.le_min_r|by apply IH].
Qed.

Lemma Transect_hi_ge (g : Transect.geom1) (i : Z * Z) :
  In i g → (i.2 ≤ Transect.hi g)%Z.
Proof.
  unfold Transect.hi. generalize ((hd (0, 0)%Z g).2) as init.
  induction g as [|j g IH]; intros init Hin; [done|]. simpl.
  destruct Hin as [->|Hin]; [apply Z.le_max_l|].
  etrans; [by apply IH|apply Z.le_max_r].
Qed.

Lemma Transect_area_nonneg (g : Transect.geom1) : (0 <= Transect.area1 g)%Q.
Proof.
  unfold Transect.area1.
  assert (Hsum : (0 ≤ foldr (λ i s, Transect.length1 i + s) 0 g)%Z).
  { induction g as [|i g IH]; simpl; [done|].
    unfold Transect.length1 at 1. lia. }
  change 0%Q with (inject_Z 0). by rewrite <-Zle_Qle.
Qed.

#[global] Instance transect_laws : GeometryLaws Transect.transect.
Proof.
  split.
  - apply Transect_area_nonneg.
  - intros a b Hab. simpl in *. unfold Transect.intersects1 in Hab.
    apply existsb_exists in Hab as (i & Hi & Hab).
    apply existsb_exists in Hab as (j & Hj & Hij).
    unfold Transect.meets in Hij.
    apply andb_true_iff in Hij as [H1%Z.leb_le H2%Z.leb_le].
    pose proof (Transect_lo_le a i Hi). pose proof (Transect_hi_ge a i Hi).
    pose proof (Transect_lo_le b j Hj). pose proof (Transect_hi_ge b j Hj).
    unfold Transect.bounds1, bbox_intersects.
    rewrite !andb_true_iff, !Qle_bool_iff, <-!Zle_Qle.
    split_and!; [lia|lia|done|done].
  - intros boxes q. simpl. reflexivity.
Qed.

(** ** The model at work on a transect *)

(** The table [meff] computes for the mask [regions]. *)
Lemma Transect_run :
  meff Transect.lines Transect.boundary 0 (Transect.store Transect.regions) =
  OK (1, <[1 := mkGDF Transect.regions_out (Some 3035%Z)]>
           (Transect.store Transect.regions)).
Proof. vm_compute. reflexivity. Qed.

(** The two barriers alone close the fragment [[2, 4]]; with the ring of
    the boundary there would be three fragments, and another value for the
    region [[0, 10]]. *)
Example Transect_ring_missing :
  polygonized Transect.lines = [[(2, 4)]]%Z ∧
  overlay_spec Transect.lines Transect.boundary =
    [[(0, 2)]; [(2, 4)]; [(4, 10)]]%Z ∧
  cell_meff (polygonized Transect.lines)
            (bounds <$> polygonized Transect.lines) [(0, 10)]%Z =
    OK (4 # 10000000)%Q ∧
  (meff_km2 (overlay_spec Transect.lines Transect.boundary) [(0, 10)]%Z ==
   44 # 10000000)%Q.
Proof. split_and!; [vm_compute; reflexivity..|]. vm_compute. reflexivity. Qed.

(** On the mask [regions], kept at reference 0, [meff] returns the
    reference 1, and the table at reference 0 has no [meff] column. *)
Lemma meff_mask_not_mutated :
  ¬ (∀ (lines boundary : list Transect.geom1) (mask l : loc)
       (h h' : gmap loc (GeoDataFrame Transect.geom1)),
       meff lines boundary mask h = OK (l, h') →
       l = mask ∧
       ∃ out, h' !! mask = Some out ∧ "meff" ∈ columns (gdf_frame out)).
Proof.
  intros Hclaim. destruct (Hclaim _ _ _ _ _ _ Transect_run) as [Hl _].
  discriminate.
Qed.

Lemma Transect_regions_wf : df_wf Transect.regions.
Proof. repeat constructor. Qed.

Lemma meff_value_witness :
  ∃ out,
    meff Transect.lines Transect.boundary 0 (Transect.store Transect.regions) =
      OK (fresh (dom (Transect.store Transect.regions)),
          <[fresh (dom (Transect.store Transect.regions)) := out]>
            (Transect.store Transect.regions)) ∧
    ∀ i R g,
      rows Transect.regions !! i = Some R →
      cell (columns Transect.regions) "geometry" R.2 = Some (VGeom g) →
      ∃ R' v,
        rows (gdf_frame out) !! i = Some R' ∧ R'.1 = R.1 ∧
        cell (columns (gdf_frame out)) "meff" R'.2 = Some (VFloat v) ∧
        cell_meff (polygonized Transect.lines)
                  (bounds <$> polygonized Transect.lines) g = OK v ∧
        (v == meff_km2 (polygonized Transect.lines) g)%Q.
Proof.
  apply (meff_value (L := transect_laws) Transect.lines Transect.boundary 0
           (Transect.store Transect.regions)
           (mkGDF Transect.regions (Some 3035%Z)) 3035%Z).
  - reflexivity.
  - reflexivity.
  - exact Transect_regions_wf.
  - simpl. apply NoDup_cons. split; [|apply NoDup_singleton].
    intros Hin%list_elem_of_singleton. discriminate.
  - intros r Hr. simpl in Hr.
    repeat (apply elem_of_cons in Hr as [->|Hr]);
      [| |by apply elem_of_nil in Hr]; eexists; (split; [reflexivity|]);
      reflexivity.
Defined.



Lemma meff_zero_area_raises_witness :
  meff Transect.lines Transect.boundary 0
       (Transect.store Transect.degenerate) = Raise ZeroDivisionError.
Proof.
  apply (meff_zero_area_raises (L := transect_laws)
           Transect.lines Transect.boundary 0
           (Transect.store Transect.degenerate)
           (mkGDF Transect.degenerate (Some 3035%Z)) 3035%Z
           (9%Z, [VInt 2; VGeom [(3, 3)%Z]]) [(3, 3)%Z]).
  - reflexivity.
  - reflexivity.
  - repeat constructor.
  - intros r Hr. simpl in Hr.
    repeat (apply elem_of_cons in Hr as [->|Hr]);
      [| |by apply elem_of_nil in Hr]; eexists; reflexivity.
  - simpl. set_solver.
  - reflexivity.
  - reflexivity.
Defined.

Lemma meff_order_independent_witness :
  match
    meff Transect.lines Transect.boundary 0 (Transect.store Transect.regions),
    meff Transect.lines Transect.boundary 0
         (Transect.store Transect.regions_swapped)
  with
  | OK (l, hl), OK (l', hl') =>
      ∃ out out',
        hl !! l = Some out ∧ hl' !! l' = Some out' ∧
        rows (gdf_frame out) ≡ₚ rows (gdf_frame out') ∧
        ∀ label, meff_at (gdf_frame out) label = meff_at (gdf_frame out') label
  | Raise _, Raise _ => True
  | _, _ => False
  end.
Proof.
  apply (meff_order_independent (G := Transect.transect) Transect.lines Transect.boundary 0 0
           (Transect.store Transect.regions)
           (Transect.store Transect.regions_swapped)
           (mkGDF Transect.regions (Some 3035%Z))
           (mkGDF Transect.regions_swapped (Some 3035%Z))).
  - reflexivity.
  - reflexivity.
  - reflexivity.
  - reflexivity.
  - simpl. apply perm_swap.
  - simpl. apply NoDup_cons. split; [|apply NoDup_singleton].
    intros Hin%list_elem_of_singleton. discriminate.
Defined.

Lemma meff_frame_untouched_witness :
  ∃ out,
    (<[1 := mkGDF Transect.regions_out (Some 3035%Z)]>
       (Transect.store Transect.regions)) !! 1 = Some out ∧
    gdf_crs out = Some 3035%Z ∧
    columns (gdf_frame out) = ["cellcode"; "geometry"; "meff"] ∧
    (rows (gdf_frame out)).*1 = [7; 9]%Z ∧
    ∀ i r' r p c,
      rows (gdf_frame out) !! i = Some r' →
      rows Transect.regions !! i = Some r →
      columns Transect.regions !! p = Some c → c ≠ "meff" →
      r'.2 !! p = r.2 !! p.
Proof.
  apply (meff_frame_untouched (G := Transect.transect) Transect.lines Transect.boundary 0 1
           (Transect.store Transect.regions) _
           (mkGDF Transect.regions (Some 3035%Z))).
  - reflexivity.
  - exact Transect_regions_wf.
  - exact Transect_run.
Defined.

Lemma meff_returns_copy_witness :
  Transect.store Transect.regions !! 1 = None ∧ 1 ≠ 0 ∧
  (∀ l0, l0 ≠ 1 →
     (<[1 := mkGDF Transect.regions_out (Some 3035%Z)]>
        (Transect.store Transect.regions)) !! l0 =
     Transect.store Transect.regions !! l0) ∧
  (<[1 := mkGDF Transect.regions_out (Some 3035%Z)]>
     (Transect.store Transect.regions)) !! 0 =
  Transect.store Transect.regions !! 0 ∧
  ∃ out,
    (<[1 := mkGDF Transect.regions_out (Some 3035%Z)]>
       (Transect.store Transect.regions)) !! 1 = Some out ∧
    "meff" ∈ columns (gdf_frame out).
Proof.
  apply (meff_returns_copy (G := Transect.transect) Transect.lines Transect.boundary 0 1
           (Transect.store Transect.regions) _).
  exact Transect_run.
Defined.

(** * Further properties *)

(** ** [merge_features]: degenerate lists and missing keys *)

Section MergeEdges.
Context {V : Type} `{EqDecision V}.
Implicit Types (t gdf : DataFrame V) (dup : gset string).

(** An empty list raises, and which exception depends on the flag; a list
    of one table returns that table as it is, whether or not it has the
    key column. *)
Lemma merge_features_short_lists (t : DataFrame V) flag key :
  merge_features ([] : list (DataFrame V)) true key = Raise TypeError ∧
  merge_features ([] : list (DataFrame V)) false key = Raise IndexError ∧
  merge_features [t] flag key = OK t.
Proof. split_and!; [done|done|]. by destruct flag. Qed.

Lemma label_count_0_inv c cols : label_count c cols = 0 → c ∉ cols.
Proof.
  unfold label_count. intros H0 Hin. apply length_zero_iff_nil in H0.
  assert (Hf : c ∈ filter (λ x, x = c) cols) by (by apply list_elem_of_filter).
  rewrite H0 in Hf. by apply elem_of_nil in Hf.
Qed.


(** What [duplicate_columns] returns is a set of labels without the key
    that every table of the list carries. *)
Lemma duplicate_columns_sound (lst : list (DataFrame V)) flag key dup :
  duplicate_columns lst flag key = OK dup →
  (key ∉ dup) ∧ ∀ t, t ∈ lst → dup ⊆ col_set t.
Proof.
  destruct flag.
  - intros Hdup.
    pose proof (λ c, duplicate_columns_elem_of _ _ _ c Hdup) as Hin.
    split; [rewrite Hin; tauto|].
    intros t Ht c Hc. apply Hin in Hc as [_ Hc].
    unfold col_set. by apply elem_of_list_to_set, Hc.
  - intros [= <-]. split; [set_solver|]. intros t _. set_solver.
Qed.


Lemma merge_features_unfold_flag (first : DataFrame V) later flag key :
  merge_features (first :: later) flag key =
  dup ←! duplicate_columns (reverse (first :: later)) flag key;
  merge_loop dup key first later.
Proof. unfold merge_features. by rewrite reverse_involutive. Qed.


End MergeEdges.


(** ** [merge_features]: the keys and the labels of the result *)

Lemma cell_select_by {V} keep cols c (vs : list V) :
  keep c = true → length vs = length cols →
  cell (select_by keep cols cols) c (select_by keep cols vs) = cell cols c vs.
Proof.
  intros Hk. revert vs. unfold cell.
  induction cols as [|x cols IH]; intros [|v vs] Hlen; simplify_eq/=; [done|].
  specialize (IH vs Hlen). rewrite (col_pos_cons c x cols).
  destruct (keep x) eqn:Hx.
  - rewrite col_pos_cons. case_decide; [done|].
    destruct (col_pos c (select_by keep cols cols)) as [p|];
      destruct (col_pos c cols) as [q|]; simpl in *; done.
  - rewrite decide_False by (intros ->; congruence).
    destruct (col_pos c cols) as [q|]; simpl in *; done.
Qed.

Lemma without_elem_of_ne {A} (x k : A) p (l : list A) :
  x ∈ l → l !! p = Some k → x ≠ k → x ∈ without p l.
Proof.
  intros Hx Hp Hne. rewrite <-(take_drop_middle l p k Hp) in Hx.
  unfold without. rewrite elem_of_app in Hx |- *.
  destruct Hx as [?|[->|?]%elem_of_cons]; tauto.
Qed.

Section MergeKeys.
Context {V : Type} `{EqDecision V}.
Implicit Types (t gdf left right : DataFrame V) (dup : gset string).

(** The rows of a join, with the cells that made them match. *)
Lemma pd_merge_row_key left right key res r :
  pd_merge left right key = OK res → r ∈ rows res →
  ∃ lk rk l rr,
    col_pos key (columns left) = Some lk ∧
    col_pos key (columns right) = Some rk ∧
    label_count key (columns right) = 1 ∧
    l ∈ rows left ∧ rr ∈ rows right ∧
    l.2 !! lk = rr.2 !! rk ∧
    r.2 = l.2 ++ without rk rr.2 ∧
    columns res =
      (suffixed (filter (λ c, c ∈ without rk (columns right)) (columns left))
                "_x" <$> columns left) ++
      (suffixed (filter (λ c, c ∈ without rk (columns right)) (columns left))
                "_y" <$> without rk (columns right)).
Proof.
  unfold pd_merge. intros Hm Hr.
  inv_rbind Hm. rename a into lk. inv_rbind Hm. rename a into rk.
  apply key_pos_OK in Ha as [Hlk _]. apply key_pos_OK in Ha0 as [Hrk Hcnt].
  injection Hm as <-. simpl in Hr.
  destruct r as [i vs]. apply elem_of_zip_r in Hr. simpl.
  apply list_elem_of_bind in Hr as (l & Hr & Hl%elem_of_grouped).
  apply list_elem_of_bind in Hr as (rr & Hr & Hrr).
  apply list_elem_of_filter in Hrr as [Heq Hrr].
  apply list_elem_of_singleton in Hr as ->.
  assert (Hne : bool_decide (rows left = []) = false).
  { apply bool_decide_eq_false. intros Hnil. rewrite Hnil in Hl.
    by apply elem_of_nil in Hl. }
  rewrite Hne. simpl. exists lk, rk, l, rr. split_and!; done.
Qed.

(** The key cell of a joined row is the key cell of the two rows it is
    made of. *)
Lemma pd_merge_key_cell left right key res r :
  df_wf left → ends_with "_x" key = false → ends_with "_y" key = false →
  pd_merge left right key = OK res → r ∈ rows res →
  ∃ l rr, l ∈ rows left ∧ rr ∈ rows right ∧
    cell (columns res) key r.2 = cell (columns left) key l.2 ∧
    cell (columns res) key r.2 = cell (columns right) key rr.2.
Proof.
  intros Hwf Hx Hy Hm Hr.
  destruct (pd_merge_row_key _ _ _ _ _ Hm Hr)
    as (lk & rk & l & rr & Hlk & Hrk & Hcnt & Hl & Hrr & Heq & Hrow & Hcols).
  assert (Hr' : key ∉ without rk (columns right)).
  { apply label_count_0_inv.
    pose proof (without_key_count key rk (columns right) Hrk). lia. }
  assert (Ho : key ∉ filter (λ c0, c0 ∈ without rk (columns right))
                             (columns left)).
  { rewrite list_elem_of_filter. tauto. }
  assert (Hlt : lk < length l.2).
  { unfold df_wf in Hwf. rewrite Forall_forall in Hwf.
    rewrite (Hwf _ Hl). by eapply col_pos_lt. }
  assert (Hcell : cell (columns res) key r.2 = l.2 !! lk).
  { unfold cell. rewrite Hcols, Hrow.
    rewrite col_pos_app_l.
    2:{ rewrite list_elem_of_fmap. intros (y & Hy1 & Hy2).
        symmetry in Hy1. apply suffixed_eq in Hy1; [|done..]. by subst. }
    rewrite col_pos_fmap by (intros; by apply suffixed_eq).
    rewrite Hlk. simpl. by apply lookup_app_l. }
  exists l, rr. split_and!; [done|done| |]; rewrite Hcell; unfold cell.
  - by rewrite Hlk.
  - by rewrite Hrk.
Qed.

Lemma drop_columns_key_cell dup t t' key rr :
  drop_columns dup t = OK t' → key ∉ dup → df_wf t → rr ∈ rows t' →
  ∃ r0, r0 ∈ rows t ∧
    cell (columns t') key rr.2 = cell (columns t) key r0.2.
Proof.
  unfold drop_columns. case_decide; [|done]. intros [= <-] Hk Hwf. simpl.
  intros (r0 & -> & Hr0)%list_elem_of_fmap. exists r0. split; [done|].
  simpl. apply cell_select_by; [by apply bool_decide_eq_true|].
  unfold df_wf in Hwf. rewrite Forall_forall in Hwf. auto.
Qed.

Lemma merge_loop_inner_join dup key pending : ∀ gdf seen res,
  key ∉ dup →
  ends_with "_x" key = false → ends_with "_y" key = false →
  df_wf gdf → Forall df_wf pending →
  (∀ r t, r ∈ rows gdf → t ∈ seen →
     ∃ rt, rt ∈ rows t ∧ cell (columns t) key rt.2 = cell (columns gdf) key r.2) →
  merge_loop dup key gdf pending = OK res →
  ∀ r t, r ∈ rows res → t ∈ seen ++ pending →
    ∃ rt, rt ∈ rows t ∧ cell (columns t) key rt.2 = cell (columns res) key r.2.
Proof.
  induction pending as [|t0 pending IH];
    intros gdf seen res Hk Hx Hy Hwf Hwfs Hseen Hrun.
  - simpl in Hrun. injection Hrun as <-. rewrite app_nil_r. exact Hseen.
  - simpl in Hrun. inv_rbind Hrun. rename a into t'. inv_rbind Hrun.
    rename a into g'. apply Forall_cons in Hwfs as [Hwf0 Hwfs].
    rewrite (cons_middle t0 seen pending), app_assoc.
    apply (IH g'); [done|done|done| |done| |done].
    + eapply pd_merge_wf; [done|done|]. by eapply drop_columns_wf.
    + intros r t Hr Ht.
      destruct (pd_merge_key_cell _ _ _ _ _ Hwf Hx Hy Ha0 Hr)
        as (l & rr & Hl & Hrr & Hcl & Hcr).
      apply elem_of_app in Ht as [Ht|Ht%list_elem_of_singleton].
      * destruct (Hseen l t Hl Ht) as (rt & Hrt & Hc).
        exists rt. split; [done|]. congruence.
      * subst t.
        destruct (drop_columns_key_cell _ _ _ _ _ Ha Hk Hwf0 Hrr)
          as (r0 & Hr0 & Hc).
        exists r0. split; [done|]. congruence.
Qed.

Lemma merge_loop_key_once dup key pending : ∀ gdf t res,
  ends_with "_x" key = false → ends_with "_y" key = false →
  merge_loop dup key gdf (t :: pending) = OK res →
  label_count key (columns res) = 1.
Proof.
  induction pending as [|t1 pending IH]; intros gdf t res Hx Hy Hrun.
  - simpl in Hrun. inv_rbind Hrun. rename a into t'. inv_rbind Hrun.
    injection Hrun as <-.
    pose proof Ha0 as Hm. unfold pd_merge in Hm. inv_rbind Hm. inv_rbind Hm.
    apply key_pos_OK in Ha1 as [_ Hl]. apply key_pos_OK in Ha2 as [_ Hr].
    destruct (pd_merge_returns gdf t' key Hl Hr Hx Hy) as (res' & Hres' & Hcnt).
    congruence.
  - cbn [merge_loop] in Hrun. inv_rbind Hrun. inv_rbind Hrun.
    by eapply IH.
Qed.

(** X2: The join is an inner join: the returned table carries the key once
    (two tables or more), and the key of every returned row is the key
    of a row of every table of the list. *)
Lemma merge_features_inner_join (first : DataFrame V) later flag key res :
  Forall df_wf (first :: later) →
  ends_with "_x" key = false → ends_with "_y" key = false →
  merge_features (first :: later) flag key = OK res →
  (later ≠ [] → label_count key (columns res) = 1) ∧
  ∀ r t, r ∈ rows res → t ∈ first :: later →
    ∃ rt, rt ∈ rows t ∧ cell (columns t) key rt.2 = cell (columns res) key r.2.
Proof.
  intros Hwf Hx Hy Hrun. rewrite merge_features_unfold_flag in Hrun.
  inv_rbind Hrun. rename a into dup.
  destruct (duplicate_columns_sound _ _ _ _ Ha) as [Hk _].
  apply Forall_cons in Hwf as [Hwf1 Hwf]. split.
  - destruct later as [|t later]; [done|]. intros _.
    by eapply merge_loop_key_once.
  - apply (merge_loop_inner_join dup key later first [first] res); try done.
    intros r t Hr ->%list_elem_of_singleton. eauto.
Qed.

(** *** Without [ignore_duplicates] *)

Lemma pd_merge_overlap left right key res c :
  pd_merge left right key = OK res →
  c ∈ columns left → c ∈ columns right → c ≠ key →
  c +:+ "_x" ∈ columns res ∧ c +:+ "_y" ∈ columns res ∧
  (ends_with "_x" c = false → ends_with "_y" c = false → c ∉ columns res).
Proof.
  unfold pd_merge. intros Hm Hl Hr Hne.
  inv_rbind Hm. rename a into lk. inv_rbind Hm. rename a into rk.
  apply key_pos_OK in Ha as [Hlk%col_pos_Some _].
  apply key_pos_OK in Ha0 as [Hrk%col_pos_Some _].
  injection Hm as <-. simpl.
  set (le := bool_decide (rows left = [])).
  set (rcols := drop_key (negb le) rk (columns right)).
  set (lcols := drop_key le lk (columns left)).
  set (ov := filter (λ c0, c0 ∈ rcols) lcols).
  assert (Hcl : c ∈ lcols).
  { subst lcols. destruct le; simpl; [|done]. by eapply without_elem_of_ne. }
  assert (Hcr : c ∈ rcols).
  { subst rcols. destruct le; simpl; [done|]. by eapply without_elem_of_ne. }
  assert (Hov : c ∈ ov) by (by apply list_elem_of_filter).
  assert (Hsuf : ∀ sfx, suffixed ov sfx c = c +:+ sfx).
  { intros sfx. unfold suffixed. by rewrite decide_True. }
  split_and!.
  - apply elem_of_app. left. apply list_elem_of_fmap. exists c. by rewrite Hsuf.
  - apply elem_of_app. right. apply list_elem_of_fmap. exists c. by rewrite Hsuf.
  - intros Hx Hy [Hin|Hin]%elem_of_app;
      apply list_elem_of_fmap in Hin as (y & Hy1 & Hy2);
      unfold suffixed in Hy1; case_decide; subst;
      rewrite ?ends_with_app in *; done.
Qed.
End MergeKeys.

Lemma merge_features_inner_join_witness :
  (([MergeExample.u2] : list (DataFrame Z)) ≠ [] →
   label_count "cellcode" ["cellcode"; "name"; "pop"; "area"] = 1) ∧
  ∀ r t,
    r ∈ [(0, [1; 10; 100; 8]); (1, [2; 20; 200; 7])]%Z →
    t ∈ [MergeExample.u1; MergeExample.u2] →
    ∃ rt, rt ∈ rows t ∧
      cell (columns t) "cellcode" rt.2 =
      cell ["cellcode"; "name"; "pop"; "area"] "cellcode" r.2.
Proof.
  apply (merge_features_inner_join MergeExample.u1 [MergeExample.u2] true
           "cellcode"
           (mkDF ["cellcode"; "name"; "pop"; "area"]
                 [(0, [1; 10; 100; 8]); (1, [2; 20; 200; 7])]%Z)).
  - repeat constructor.
  - reflexivity.
  - reflexivity.
  - vm_compute. reflexivity.
Defined.

(** ** [merge_features] without [ignore_duplicates]: the suffixed columns *)

Lemma append_cons (a : Ascii.ascii) (s t : string) :
  String a s +:+ t = String a (s +:+ t).
Proof. done. Qed.

Lemma append_assoc (s t u : string) : (s +:+ t) +:+ u = s +:+ (t +:+ u).
Proof.
  induction s as [|a s IH]; [done|]. by rewrite !append_cons, IH.
Qed.

Lemma append_nil_l (t : string) : "" +:+ t = t.
Proof. done. Qed.

Lemma length_append (s t : string) :
  String.length (s +:+ t) = String.length s + String.length t.
Proof.
  induction s as [|a s IH]; [done|]. rewrite append_cons. simpl. by rewrite IH.
Qed.

(** Two strings that end in suffixes of the same length are equal only
    when their suffixes are, and what comes before them. *)
Lemma append_inj_length (s s' t t' : string) :
  String.length t = String.length t' →
  s +:+ t = s' +:+ t' → s = s' ∧ t = t'.
Proof.
  intros Hlen. revert s'.
  induction s as [|a s IH]; intros [|b s'] Heq.
  - done.
  - apply (f_equal String.length) in Heq.
    rewrite append_nil_l, length_append in Heq. simpl in Heq. lia.
  - apply (f_equal String.length) in Heq.
    rewrite append_nil_l, length_append in Heq. simpl in Heq. lia.
  - rewrite !append_cons in Heq. injection Heq as -> Heq.
    destruct (IH _ Heq) as [-> ->]. done.
Qed.

Lemma col_pos_fmap_to c c' (f : string → string) l :
  (∀ x, x ∈ l → f x = c' ↔ x = c) → col_pos c' (f <$> l) = col_pos c l.
Proof.
  induction l as [|x l IH]; intros Hf; [done|].
  rewrite fmap_cons, !col_pos_cons.
  rewrite IH by (intros y Hy; apply Hf; by right).
  destruct (decide (x = c)) as [Hx|Hx].
  - rewrite decide_True; [done|]. apply Hf; [by left | done].
  - rewrite decide_False; [done|].
    intros Hfx. apply Hx, Hf; [by left | done].
Qed.

Lemma col_pos_app_found c l1 l2 :
  c ∈ l1 → col_pos c (l1 ++ l2) = col_pos c l1.
Proof.
  induction l1 as [|x l1 IH]; intros Hc; [by apply elem_of_nil in Hc|].
  simpl. rewrite !col_pos_cons. case_decide; [done|].
  rewrite IH; [done|]. by apply elem_of_cons in Hc as [->|Hc].
Qed.

Lemma col_pos_app_r c l1 l2 :
  c ∉ l1 → col_pos c (l1 ++ l2) = (λ p, length l1 + p) <$> col_pos c l2.
Proof.
  induction l1 as [|x l1 IH]; intros Hc; simpl.
  - by destruct (col_pos c l2).
  - rewrite col_pos_cons, decide_False by (intros ->; apply Hc; by left).
    rewrite IH by (intros Hin; apply Hc; by right).
    by destruct (col_pos c l2).
Qed.

(** Taking a column out of a row leaves the cells of the other labels. *)
Lemma cell_without {V} c k p cols (vs : list V) :
  cols !! p = Some k → c ≠ k →
  cell (without p cols) c (without p vs) = cell cols c vs.
Proof.
  revert p vs. unfold without, cell.
  induction cols as [|x cols IH]; intros p vs Hp Hne; [done|].
  destruct p as [|p]; simpl in Hp.
  - injection Hp as ->. simpl. rewrite drop_0, col_pos_cons.
    rewrite decide_False by done.
    destruct vs as [|v vs]; simpl.
    + by destruct (col_pos c cols).
    + rewrite drop_0. by destruct (col_pos c cols).
  - destruct vs as [|v vs]; simpl.
    + rewrite !col_pos_cons. case_decide; [done|].
      destruct (col_pos c (take p cols ++ drop (S p) cols));
        destruct (col_pos c cols); done.
    + rewrite !col_pos_cons. case_decide; [done|].
      specialize (IH p vs Hp Hne).
      destruct (col_pos c (take p cols ++ drop (S p) cols)) as [q|];
        destruct (col_pos c cols) as [q'|]; simpl in *; done.
Qed.

Section MergeSuffixes.
Context {V : Type} `{EqDecision V}.
Implicit Types (t gdf left right : DataFrame V) (dup : gset string).

(** A row of a table without some columns is a row of the table, seen
    through the columns that are left. *)
Lemma drop_columns_cells dup t t' rr :
  drop_columns dup t = OK t' → df_wf t → rr ∈ rows t' →
  ∃ r0, r0 ∈ rows t ∧
    ∀ c, c ∉ dup → cell (columns t') c rr.2 = cell (columns t) c r0.2.
Proof.
  unfold drop_columns. case_decide; [|done]. intros [= <-] Hwf. simpl.
  intros (r0 & -> & Hr0)%list_elem_of_fmap. exists r0. split; [done|].
  intros c Hc. simpl. apply cell_select_by; [by apply bool_decide_eq_true|].
  unfold df_wf in Hwf. rewrite Forall_forall in Hwf. auto.
Qed.

(** One join: the two copies of a column both frames carry. *)
Lemma pd_merge_suffixed_cells left right key res c r :
  df_wf left →
  pd_merge left right key = OK res → r ∈ rows res →
  c ∈ columns left → c ∈ columns right → c ≠ key →
  (c +:+ "_x") ∉ columns left → (c +:+ "_y") ∉ columns left →
  (c +:+ "_y") ∉ columns right →
  ∃ l rr, l ∈ rows left ∧ rr ∈ rows right ∧
    cell (columns left) key l.2 = cell (columns right) key rr.2 ∧
    cell (columns res) (c +:+ "_x") r.2 = cell (columns left) c l.2 ∧
    cell (columns res) (c +:+ "_y") r.2 = cell (columns right) c rr.2.
Proof.
  intros Hwf Hm Hr Hl Hrc Hne Hx1 Hy1 Hy2.
  destruct (pd_merge_row_key _ _ _ _ _ Hm Hr)
    as (lk & rk & l & rr & Hlk & Hrk & Hcnt & Hlin & Hrr & Heq & Hrow & Hcols).
  set (rcols := without rk (columns right)) in *.
  set (ov := filter (λ c0, c0 ∈ rcols) (columns left)) in *.
  assert (Hcr : c ∈ rcols).
  { eapply without_elem_of_ne; [done|by apply col_pos_Some|done]. }
  assert (Hov : c ∈ ov) by (by apply list_elem_of_filter).
  assert (Hlen : length l.2 = length (columns left)).
  { unfold df_wf in Hwf. rewrite Forall_forall in Hwf. by apply Hwf. }
  assert (Hsx : ∀ x, x ∈ columns left →
            suffixed ov "_x" x = c +:+ "_x" ↔ x = c).
  { intros x Hxin. unfold suffixed. split.
    - case_decide.
      + intros Heq'. by apply append_inj_length in Heq' as [-> _].
      + intros ->. done.
    - intros ->. by rewrite decide_True. }
  assert (Hnoy : (c +:+ "_y") ∉ suffixed ov "_x" <$> columns left).
  { intros (x & Heq' & Hxin)%list_elem_of_fmap. unfold suffixed in Heq'.
    case_decide.
    - by apply append_inj_length in Heq' as [_ [=]].
    - by subst x. }
  assert (Hsy : ∀ x, x ∈ rcols →
            suffixed ov "_y" x = c +:+ "_y" ↔ x = c).
  { intros x Hxin. unfold suffixed. split.
    - case_decide.
      + intros Heq'. by apply append_inj_length in Heq' as [-> _].
      + intros ->. destruct Hy2. unfold rcols in Hxin.
        by apply without_elem_of in Hxin.
    - intros ->. by rewrite decide_True. }
  exists l, rr. split_and!; [done|done| | |].
  - unfold cell. by rewrite Hlk, Hrk.
  - unfold cell. rewrite Hcols, Hrow.
    rewrite col_pos_app_found.
    2:{ apply list_elem_of_fmap. exists c. split; [|done].
        symmetry. by apply Hsx. }
    rewrite (col_pos_fmap_to c) by done.
    destruct (col_pos c (columns left)) as [p|] eqn:Hp; [|done]. simpl.
    apply lookup_app_l. rewrite Hlen. by eapply col_pos_lt.
  - rewrite <-(cell_without c key rk (columns right) rr.2);
      [|by apply col_pos_Some|done].
    fold rcols. unfold cell. rewrite Hcols, Hrow.
    rewrite col_pos_app_r by done.
    rewrite (col_pos_fmap_to c) by done.
    destruct (col_pos c rcols) as [q|]; [|done]. simpl.
    rewrite length_fmap, <-Hlen. rewrite lookup_app_r by lia.
    f_equal. lia.
Qed.

(** X3: Without [ignore_duplicates], a column [c] that the two tables of
    a list of two share besides the key is returned twice and no longer
    under its own label: as [c_x], holding for every returned row the
    cell of the row of the first table it is joined from, and as [c_y],
    holding the cell of the row of the second table (the tables being
    rectangular, [c] holding no such suffix, and no column of the first
    table being labelled [c_x] or [c_y], none of the second [c_y]). *)
Lemma merge_features_suffixes (t1 t2 : DataFrame V) key c res :
  df_wf t1 → df_wf t2 →
  merge_features [t1; t2] false key = OK res →
  c ∈ columns t1 → c ∈ columns t2 → c ≠ key →
  ends_with "_x" c = false → ends_with "_y" c = false →
  (c +:+ "_x") ∉ columns t1 → (c +:+ "_y") ∉ columns t1 →
  (c +:+ "_y") ∉ columns t2 →
  c +:+ "_x" ∈ columns res ∧ c +:+ "_y" ∈ columns res ∧
  (c ∉ columns res) ∧
  ∀ r, r ∈ rows res →
    ∃ r1 r2, r1 ∈ rows t1 ∧ r2 ∈ rows t2 ∧
      cell (columns t1) key r1.2 = cell (columns t2) key r2.2 ∧
      cell (columns res) (c +:+ "_x") r.2 = cell (columns t1) c r1.2 ∧
      cell (columns res) (c +:+ "_y") r.2 = cell (columns t2) c r2.2.
Proof.
  intros Hwf1 Hwf2 Hrun H1 H2 Hne Hx Hy Hx1 Hy1 Hy2.
  rewrite merge_features_unfold_flag in Hrun. simpl in Hrun.
  inv_rbind Hrun. rename a into t2'. inv_rbind Hrun. injection Hrun as <-.
  pose proof (λ c0, drop_columns_labels _ _ _ c0 Ha) as Hcols2.
  assert (H2' : c ∈ columns t2').
  { rewrite Hcols2. split; [done|]. apply not_elem_of_empty. }
  assert (Hy2' : (c +:+ "_y") ∉ columns t2').
  { rewrite Hcols2. tauto. }
  destruct (pd_merge_overlap _ _ _ _ c Ha0 H1 H2' Hne) as (? & ? & Hnot).
  split_and!; [done|done|by apply Hnot|].
  intros r Hr.
  destruct (pd_merge_suffixed_cells _ _ _ _ c r Hwf1 Ha0 Hr H1 H2' Hne
              Hx1 Hy1 Hy2') as (l & rr & Hl & Hrr & Hk & Hcx & Hcy).
  destruct (drop_columns_cells _ _ _ _ Ha Hwf2 Hrr) as (r0 & Hr0 & Hcells).
  exists l, r0. split_and!; [done|done| |done|].
  - rewrite Hk. apply Hcells, not_elem_of_empty.
  - rewrite Hcy. apply Hcells, not_elem_of_empty.
Qed.
End MergeSuffixes.

Lemma merge_features_suffixes_witness :
  "name_x" ∈ ["cellcode"; "name_x"; "pop"; "name_y"; "area"] ∧
  "name_y" ∈ ["cellcode"; "name_x"; "pop"; "name_y"; "area"] ∧
  ("name" ∉ ["cellcode"; "name_x"; "pop"; "name_y"; "area"]) ∧
  ∀ r, r ∈ [(0, [1; 10; 100; 12; 8]); (1, [2; 20; 200; 11; 7])]%Z →
    ∃ r1 r2, r1 ∈ rows MergeExample.u1 ∧ r2 ∈ rows MergeExample.u2 ∧
      cell (columns MergeExample.u1) "cellcode" r1.2 =
        cell (columns MergeExample.u2) "cellcode" r2.2 ∧
      cell ["cellcode"; "name_x"; "pop"; "name_y"; "area"] "name_x" r.2 =
        cell (columns MergeExample.u1) "name" r1.2 ∧
      cell ["cellcode"; "name_x"; "pop"; "name_y"; "area"] "name_y" r.2 =
        cell (columns MergeExample.u2) "name" r2.2.
Proof.
  apply (merge_features_suffixes MergeExample.u1 MergeExample.u2
           "cellcode" "name"
           (mkDF ["cellcode"; "name_x"; "pop"; "name_y"; "area"]
                 [(0, [1; 10; 100; 12; 8]); (1, [2; 20; 200; 11; 7])]%Z)).
  - repeat constructor.
  - repeat constructor.
  - vm_compute. reflexivity.
  - right. by left.
  - by left.
  - done.
  - reflexivity.
  - reflexivity.
  - simpl. intros Hin.
    repeat (apply elem_of_cons in Hin as [?|Hin]; [done|]).
    by apply elem_of_nil in Hin.
  - simpl. intros Hin.
    repeat (apply elem_of_cons in Hin as [?|Hin]; [done|]).
    by apply elem_of_nil in Hin.
  - simpl. intros Hin.
    repeat (apply elem_of_cons in Hin as [?|Hin]; [done|]).
    by apply elem_of_nil in Hin.
Defined.

(** ** [meff]: running it again, shared labels, enclosed regions *)

Lemma set_cols_set_cols {V} c (v w : V) cols vs :
  set_cols c v cols (set_cols c w cols vs) = set_cols c v cols vs.
Proof.
  revert vs. induction cols as [|c' cols IH]; intros [|x vs]; simpl; [done..|].
  rewrite IH. by case_decide.
Qed.

Section MeffMore.
Context {G : Geometry}.
Local Abbreviation Frame := (DataFrame (value geom)).
Local Abbreviation heap := (gmap loc (GeoDataFrame geom)).
Implicit Types (lines boundary : list geom) (h : heap) (frame : Frame).

Lemma meff_cell_region_value patches sindex cols (st : Frame) cell :
  meff_cell patches sindex cols st cell =
  v ←! region_value patches sindex cols cell;
  OK (at_set cell.1 "meff" (VFloat v) st).
Proof.
  unfold meff_cell, region_value. by destruct (cell_geometry cols cell.2).
Qed.

Lemma row_done_region_value patches sindex cols cell :
  row_done patches sindex cols cell =
  v ←! region_value patches sindex cols cell;
  OK (cell.1, set_cols "meff" (VFloat v) cols cell.2).
Proof.
  unfold row_done, region_value. by destruct (cell_geometry cols cell.2).
Qed.

Lemma region_value_set_cols patches sindex cols label label' vs (v : value geom) :
  region_value patches sindex cols (label, set_cols "meff" v cols vs) =
  region_value patches sindex cols (label', vs).
Proof.
  unfold region_value, cell_geometry. simpl.
  by rewrite cell_set_cols_ne.
Qed.

(** Running [meff_frame] on the table it returned returns that table. *)
Lemma meff_frame_again lines frame out :
  NoDup ((rows frame).*1) →
  meff_frame lines frame = OK out →
  meff_frame lines out = OK out.
Proof.
  intros Hnd Hout.
  rewrite meff_frame_closed in Hout by done. inv_rbind Hout.
  rename a into rows'. injection Hout as <-.
  set (cols1 := columns (setitem "meff" VNaN frame)) in *.
  set (patches := polygonized lines) in *.
  apply mapM_OK in Ha.
  assert (Hlabels : rows'.*1 = (rows frame).*1).
  { rewrite <-(setitem_labels "meff" VNaN frame).
    clear -Ha. induction Ha as [|r r' rs rs' Hr _ IH]; [done|].
    rewrite !fmap_cons, IH. f_equal. rewrite row_done_region_value in Hr.
    inv_rbind Hr. by injection Hr as <-. }
  assert (Hin : "meff" ∈ cols1) by apply setitem_elem_of.
  rewrite meff_frame_closed by (simpl; by rewrite Hlabels).
  unfold setitem. simpl. rewrite decide_True by done. simpl.
  fold patches.
  assert (Hagain :
    mapM (row_done patches (bounds <$> patches) cols1)
         (prod_map id (set_cols "meff" VNaN cols1) <$> rows') = OK rows').
  { apply mapM_OK, Forall2_fmap_l, Forall_Forall2_diag, Forall_forall.
    intros r' Hr'.
    apply list_elem_of_lookup_1 in Hr' as [i Hi].
    destruct (Forall2_lookup_r _ _ _ _ _ Ha Hi) as (r1 & _ & Hdone).
    unfold compose. rewrite row_done_region_value in Hdone |- *.
    inv_rbind Hdone.
    injection Hdone as <-. simpl.
    rewrite (region_value_set_cols _ _ _ _ r1.1).
    rewrite (region_value_set_cols _ _ _ _ r1.1).
    destruct r1 as [label vs]. simpl in *. rewrite Ha0. simpl.
    by rewrite !set_cols_set_cols. }
  by rewrite Hagain.
Qed.

(** X4: Running [meff] on the table it returned (its index labels being
    unique) returns a second copy that holds the same table: the [meff]
    column is overwritten with the values it already has. *)
Lemma meff_again lines boundary boundary' (mask l : loc) h h' m :
  h !! mask = Some m →
  NoDup ((rows (gdf_frame m)).*1) →
  meff lines boundary mask h = OK (l, h') →
  ∃ l2 h2, meff lines boundary' l h' = OK (l2, h2) ∧
           l2 ≠ l ∧ h2 !! l2 = h' !! l.
Proof.
  intros Hm Hnd Hrun.
  destruct (meff_returned _ _ _ _ _ _ Hrun)
    as (m' & crs & out & Hm' & Hcrs & Hout & -> & ->).
  rewrite Hm in Hm'. injection Hm' as <-.
  set (l := fresh (dom h)).
  set (h' := <[l := mkGDF out (Some crs)]> h).
  assert (Hl : h' !! l = Some (mkGDF out (Some crs))) by apply lookup_insert_eq.
  rewrite (meff_unfold _ _ _ _ _ _ Hl eq_refl). simpl.
  rewrite (meff_frame_again _ _ _ Hnd Hout). simpl.
  eexists _, _. split; [done|]. split.
  - intros Heq. pose proof (is_fresh (dom h')) as Hf.
    rewrite Heq in Hf. apply Hf, elem_of_dom. eauto.
  - by rewrite lookup_insert_eq, Hl.
Qed.
End MeffMore.

(** ** [meff]: index labels shared by several regions *)

Lemma last_filter_lookup {A} (P : A → Prop) `{∀ x, Decision (P x)}
    (l : list A) j x :
  l !! j = Some x → P x →
  (∀ k y, j < k → l !! k = Some y → ¬ P y) →
  last (filter P l) = Some x.
Proof.
  intros Hj HP Hlater.
  rewrite <-(take_drop_middle l j x Hj), filter_app, filter_cons_True by done.
  assert (Hnil : filter P (drop (S j) l) = []).
  { apply list_elem_of_nil_inv. intros y [Hy Hin]%list_elem_of_filter.
    apply list_elem_of_lookup_1 in Hin as [k Hk]. rewrite lookup_drop in Hk.
    apply (Hlater (S j + k) y); [lia|done|done]. }
  rewrite Hnil. apply last_snoc.
Qed.

Section MeffLabels.
Context {G : Geometry}.
Local Abbreviation Frame := (DataFrame (value geom)).
Local Abbreviation heap := (gmap loc (GeoDataFrame geom)).
Implicit Types (lines boundary : list geom) (h : heap) (frame : Frame).

Variable patches : list geom.
Variable patches_sindex : list bbox.
Variable cols : list string.

Lemma row_after_nil (r : Z * list (value geom)) : row_after cols [] r = r.
Proof. done. Qed.

(** Writing under the label of a cell and then replaying the later cells
    is replaying the cell and the later ones. *)
Lemma row_after_cons (c : Z * list (value geom)) v visited
    (r : Z * list (value geom)) :
  row_after cols visited
    (if decide (r.1 = c.1)
     then (r.1, set_cols "meff" (VFloat v) cols r.2) else r) =
  row_after cols ((c, v) :: visited) r.
Proof.
  unfold row_after, last_labelled.
  assert (Hlabel : (if decide (r.1 = c.1)
                    then (r.1, set_cols "meff" (VFloat v) cols r.2)
                    else r).1 = r.1) by (by case_decide).
  rewrite Hlabel.
  destruct (decide (r.1 = c.1)) as [Heq|Hne].
  - rewrite filter_cons_True by done. rewrite last_cons.
    destruct (last (filter _ visited)) as [cv|]; simpl; [|done].
    by rewrite set_cols_set_cols.
  - rewrite filter_cons_False by (simpl; congruence).
    by destruct (last (filter _ visited)).
Qed.

(** The loop, whatever the labels are: every row ends up with the value
    of the last cell visited under its label. *)
Lemma frame_loop_general cells : ∀ rows0 out,
  for_each cells (meff_cell patches patches_sindex cols) (mkDF cols rows0) =
    OK out →
  ∃ vals,
    mapM (region_value patches patches_sindex cols) cells = OK vals ∧
    out = mkDF cols (row_after cols (zip cells vals) <$> rows0).
Proof.
  induction cells as [|c cells IH]; intros rows0 out Hrun.
  - simpl in Hrun. injection Hrun as <-. exists []. split; [done|].
    f_equal. rewrite <-(list_fmap_id rows0) at 1.
    apply list_fmap_ext. intros _ r _. by rewrite row_after_nil.
  - cbn [for_each] in Hrun. rewrite meff_cell_region_value in Hrun.
    inv_rbind Hrun. inv_rbind Ha. injection Ha as <-.
    unfold at_set in Hrun. simpl in Hrun.
    destruct (IH _ _ Hrun) as (vals & Hvals & ->).
    exists (a0 :: vals). cbn [mapM]. rewrite Ha0, Hvals. split; [done|].
    f_equal. rewrite <-list_fmap_compose.
    apply list_fmap_ext. intros _ r _. simpl. apply row_after_cons.
Qed.
End MeffLabels.

Section MeffShared.
Context {G : Geometry}.
Local Abbreviation Frame := (DataFrame (value geom)).
Local Abbreviation heap := (gmap loc (GeoDataFrame geom)).
Implicit Types (lines boundary : list geom) (h : heap) (frame : Frame).

(** X5: When several rows of the mask carry the same index label, [meff]
    writes into each of them the value of the last of these rows: a row
    [i] that shares its label with a later row [j], the last one under
    that label, is returned with the value computed for the geometry of
    row [j]. *)
Lemma meff_shared_label lines boundary (mask l : loc) h h' m i j ri rj g :
  h !! mask = Some m →
  df_wf (gdf_frame m) →
  meff lines boundary mask h = OK (l, h') →
  rows (gdf_frame m) !! i = Some ri →
  rows (gdf_frame m) !! j = Some rj →
  ri.1 = rj.1 →
  (∀ k rk, j < k → rows (gdf_frame m) !! k = Some rk → rk.1 ≠ rj.1) →
  cell (columns (gdf_frame m)) "geometry" rj.2 = Some (VGeom g) →
  ∃ out ri' v,
    h' !! l = Some out ∧
    rows (gdf_frame out) !! i = Some ri' ∧ ri'.1 = ri.1 ∧
    cell (columns (gdf_frame out)) "meff" ri'.2 = Some (VFloat v) ∧
    cell_meff (polygonized lines) (bounds <$> polygonized lines) g = OK v.
Proof.
  intros Hm Hwf Hrun Hi Hj Hlabel Hlast Hg.
  destruct (meff_returned _ _ _ _ _ _ Hrun)
    as (m' & crs & out & Hm' & Hcrs & Hout & -> & ->).
  rewrite Hm in Hm'. injection Hm' as <-.
  set (frame := gdf_frame m) in *.
  set (frame1 := setitem "meff" VNaN frame).
  set (patches := polygonized lines) in *.
  unfold meff_frame in Hout. fold frame1 patches in Hout.
  rewrite <-(frame_eta frame1) in Hout at 3.
  apply frame_loop_general in Hout as (vals & Hvals & ->).
  apply mapM_OK in Hvals.
  assert (Hlen : length (rows frame1) = length (rows frame)).
  { rewrite <-(length_fmap fst (rows frame1)), <-(length_fmap fst (rows frame)).
    unfold frame1. by rewrite setitem_labels. }
  destruct (lookup_lt_is_Some_2 (rows frame1) i) as [ri1 Hi1].
  { rewrite Hlen. by eapply lookup_lt_Some. }
  destruct (lookup_lt_is_Some_2 (rows frame1) j) as [rj1 Hj1].
  { rewrite Hlen. by eapply lookup_lt_Some. }
  destruct (setitem_row _ _ _ _ _ Hwf Hi1)
    as (r0 & Hr0 & Hli & Hleni & _ & _).
  rewrite Hi in Hr0. injection Hr0 as <-.
  destruct (setitem_row _ _ _ _ _ Hwf Hj1)
    as (r0 & Hr0 & Hlj & _ & _ & Hcellj).
  rewrite Hj in Hr0. injection Hr0 as <-.
  destruct (Forall2_lookup_l _ _ _ _ _ Hvals Hj1) as (vj & Hvj & Hrv).
  assert (Hcell : cell_meff patches (bounds <$> patches) g = OK vj).
  { unfold region_value, cell_geometry in Hrv. fold frame1 in Hcellj.
    rewrite Hcellj in Hrv by done. by rewrite Hg in Hrv. }
  assert (Hlastv : last_labelled ri1.1 (zip (rows frame1) vals) =
                   Some (rj1, vj)).
  { unfold last_labelled. apply (last_filter_lookup _ _ j).
    - rewrite lookup_zip_with, Hj1. simpl. by rewrite Hvj.
    - simpl. congruence.
    - intros k [rk1 vk] Hjk Hk. simpl.
      apply lookup_zip_with_Some in Hk as (rk1' & vk' & [= <- <-] & Hk1 & _).
      destruct (setitem_row _ _ _ _ _ Hwf Hk1) as (rk & Hrk & Hlk & _).
      rewrite Hlk, Hli, Hlabel. by apply (Hlast k). }
  eexists _, _, vj. split_and!.
  - apply lookup_insert_eq.
  - simpl. rewrite list_lookup_fmap, Hi1. simpl. reflexivity.
  - unfold row_after. rewrite Hlastv. simpl. done.
  - simpl. unfold row_after. rewrite Hlastv. simpl.
    apply cell_set_cols_eq; [apply setitem_elem_of|done].
  - done.
Qed.
End MeffShared.

(** ** [meff]: the row that stops the loop *)

Lemma for_each_first_failure {S A} (e : exn) (pre : list A) (x : A)
    (post : list A) (body : S → A → result S) : ∀ st,
  (∀ st m, m ∈ pre → ∃ st', body st m = OK st') →
  (∀ st, body st x = Raise e) →
  for_each (pre ++ x :: post) body st = Raise e.
Proof.
  induction pre as [|m pre IH]; intros st Hpre Hx; simpl.
  - by rewrite Hx.
  - destruct (Hpre st m) as [st' ->]; [by left|]. simpl.
    apply IH; [|done]. intros st0 m0 Hm0. apply Hpre. by right.
Qed.

Section MeffFailure.
Context {G : Geometry} {L : GeometryLaws G}.
Local Abbreviation Frame := (DataFrame (value geom)).
Local Abbreviation heap := (gmap loc (GeoDataFrame geom)).
Implicit Types (lines boundary : list geom) (h : heap) (frame : Frame).

Lemma row_failure_None cols (r : Z * list (value geom)) :
  row_failure cols r = None →
  ∃ g, cell cols "geometry" r.2 = Some (VGeom g) ∧ (0 < area g)%Q.
Proof.
  unfold row_failure. intros Hr.
  destruct (cell cols "geometry" r.2) as [[| | | |g]|]; try done.
  destruct (Qeq_bool (area g) 0) eqn:Hz; [done|].
  exists g. split; [done|].
  destruct (proj1 (Qle_lteq _ _) (area_nonneg g)) as [Hlt|Heq]; [done|].
  symmetry in Heq. apply Qeq_bool_iff in Heq. congruence.
Qed.

(** X6: [meff] stops at the first row whose value cannot be computed and
    raises the exception of that row, [AttributeError] for a row without
    geometry and [ZeroDivisionError] for a geometry of area zero; the
    rows after it play no part. *)
Lemma meff_first_failure lines boundary (mask : loc) h m crs k R e :
  h !! mask = Some m →
  gdf_crs m = Some crs →
  df_wf (gdf_frame m) →
  rows (gdf_frame m) !! k = Some R →
  (∀ i r, i < k → rows (gdf_frame m) !! i = Some r →
          row_failure (columns (gdf_frame m)) r = None) →
  row_failure (columns (gdf_frame m)) R = Some e →
  meff lines boundary mask h = Raise e.
Proof.
  intros Hm Hcrs Hwf HR Hpre Hfail.
  rewrite (meff_unfold _ _ _ _ _ _ Hm Hcrs).
  set (frame := gdf_frame m) in *.
  set (frame1 := setitem "meff" VNaN frame).
  assert (Hloop : meff_frame lines frame = Raise e); [|by rewrite Hloop].
  unfold meff_frame. fold frame1.
  assert (Hlen : length (rows frame1) = length (rows frame)).
  { rewrite <-(length_fmap fst (rows frame1)), <-(length_fmap fst (rows frame)).
    unfold frame1. by rewrite setitem_labels. }
  assert (Hgeo1 : ∀ i r1 r,
    rows frame1 !! i = Some r1 → rows frame !! i = Some r →
    cell (columns frame1) "geometry" r1.2 = cell (columns frame) "geometry" r.2).
  { intros i r1 r Hr1 Hr.
    destruct (setitem_row _ _ _ _ _ Hwf Hr1) as (r0 & Hr0 & _ & _ & _ & Hcell).
    rewrite Hr in Hr0. injection Hr0 as <-. by apply Hcell. }
  destruct (lookup_lt_is_Some_2 (rows frame1) k) as [R1 HR1].
  { rewrite Hlen. by eapply lookup_lt_Some. }
  rewrite <-(take_drop_middle (rows frame1) k R1 HR1).
  apply for_each_first_failure.
  - intros st r1 (i & Hr1)%list_elem_of_lookup_1.
    apply lookup_take_Some in Hr1 as [Hr1 Hik].
    destruct (lookup_lt_is_Some_2 (rows frame) i) as [r Hr].
    { rewrite <-Hlen. by eapply lookup_lt_Some. }
    destruct (row_failure_None _ _ (Hpre i r Hik Hr)) as (g & Hg & Hpos).
    unfold meff_cell, cell_geometry.
    rewrite (Hgeo1 i r1 r Hr1 Hr), Hg. simpl.
    destruct (cell_meff_value (polygonized lines) g Hpos) as (v & -> & _).
    simpl. eauto.
  - intros st. unfold meff_cell, cell_geometry.
    rewrite (Hgeo1 k R1 R HR1 HR).
    unfold row_failure in Hfail.
    destruct (cell (columns frame) "geometry" R.2) as [[| | | |g]|];
      simpl; try congruence.
    destruct (Qeq_bool (area g) 0) eqn:Hz; [|done].
    injection Hfail as <-. apply Qeq_bool_iff in Hz.
    by rewrite cell_meff_zero_area.
Qed.

End MeffFailure.

(** ** The further properties of [meff] on a transect *)

Lemma meff_again_witness :
  ∃ l2 h2,
    meff Transect.lines Transect.boundary 1
         (<[1 := mkGDF Transect.regions_out (Some 3035%Z)]>
            (Transect.store Transect.regions)) = OK (l2, h2) ∧
    l2 ≠ 1 ∧
    h2 !! l2 =
    (<[1 := mkGDF Transect.regions_out (Some 3035%Z)]>
       (Transect.store Transect.regions)) !! 1.
Proof.
  apply (meff_again (G := Transect.transect)
           Transect.lines Transect.boundary Transect.boundary 0 1
           (Transect.store Transect.regions) _
           (mkGDF Transect.regions (Some 3035%Z))).
  - reflexivity.
  - simpl. apply NoDup_cons. split; [|apply NoDup_singleton].
    intros Hin%list_elem_of_singleton. discriminate.
  - exact Transect_run.
Defined.

Lemma meff_shared_label_witness :
  ∃ out ri' v,
    (<[1 := mkGDF TransectMasks.shared_label_out (Some 3035%Z)]>
       (Transect.store TransectMasks.shared_label)) !! 1 = Some out ∧
    rows (gdf_frame out) !! 0 = Some ri' ∧ ri'.1 = 7%Z ∧
    cell (columns (gdf_frame out)) "meff" ri'.2 = Some (VFloat v) ∧
    cell_meff (polygonized Transect.lines)
              (bounds <$> polygonized Transect.lines) [(3, 5)%Z] = OK v.
Proof.
  apply (meff_shared_label (G := Transect.transect)
           Transect.lines Transect.boundary 0 1
           (Transect.store TransectMasks.shared_label) _
           (mkGDF TransectMasks.shared_label (Some 3035%Z)) 0 1
           (7%Z, [VInt 1; VGeom [(0, 10)%Z]])
           (7%Z, [VInt 2; VGeom [(3, 5)%Z]]) [(3, 5)%Z]).
  - reflexivity.
  - repeat constructor.
  - vm_compute. reflexivity.
  - reflexivity.
  - reflexivity.
  - reflexivity.
  - intros k rk Hk Hrk. destruct k as [|[|k]]; [lia|lia|]. discriminate.
  - reflexivity.
Defined.

Lemma meff_first_failure_witness :
  meff Transect.lines Transect.boundary 0
       (Transect.store TransectMasks.broken) = Raise AttributeError.
Proof.
  apply (meff_first_failure (L := transect_laws)
           Transect.lines Transect.boundary 0
           (Transect.store TransectMasks.broken)
           (mkGDF TransectMasks.broken (Some 3035%Z)) 3035%Z 1
           (8%Z, [VInt 2; VNaN])).
  - reflexivity.
  - reflexivity.
  - repeat constructor.
  - reflexivity.
  - intros i r Hi Hr. destruct i as [|i]; [|lia].
    injection Hr as <-. reflexivity.
  - reflexivity.
Defined.


(** ** [to_centroids]: which pixels the sum leaves out *)

Lemma filter_ext_in {A} (P Q : A → Prop) `{∀ x, Decision (P x)}
    `{∀ x, Decision (Q x)} (l : list A) :
  (∀ x, x ∈ l → P x ↔ Q x) → filter P l = filter Q l.
Proof.
  induction l as [|x l IH]; intros Hl; [done|].
  assert (Hx : P x ↔ Q x) by (apply Hl; by left).
  assert (Hrest : filter P l = filter Q l).
  { apply IH. intros y Hy. apply Hl. by right. }
  destruct (decide (P x)) as [HP|HP].
  - rewrite !filter_cons_True by tauto. by rewrite Hrest.
  - rewrite !filter_cons_False by tauto. done.
Qed.

Lemma filter_all {A} (P : A → Prop) `{∀ x, Decision (P x)} (l : list A) :
  (∀ x, x ∈ l → P x) → filter P l = l.
Proof.
  induction l as [|x l IH]; intros Hl; [done|].
  rewrite filter_cons_True by (apply Hl; by left).
  rewrite IH; [done|]. intros y Hy. apply Hl. by right.
Qed.

Lemma pow2_pos (w : positive) : (0 < 2 ^ Z.pos w)%Z.
Proof. apply Z.pow_pos_nonneg; lia. Qed.

Lemma in_range_UInt (w : positive) (z : Z) :
  in_range (UInt w) z ↔ (0 ≤ z < 2 ^ Z.pos w)%Z.
Proof.
  unfold in_range, wrap. pose proof (pow2_pos w). split.
  - intros <-. by apply Z.mod_pos_bound.
  - intros Hz. by apply Z.mod_small.
Qed.

(** What numpy stores is a value of the dtype. *)
Lemma wrap_in_range (dt : dtype) (z : Z) : in_range dt (wrap dt z).
Proof.
  unfold in_range. destruct dt as [w|w]; unfold wrap.
  - pose proof (pow2_pos w). apply Z.mod_mod. lia.
  - pose proof (pow2_pos w). rewrite Z.sub_add. rewrite Z.mod_mod by lia. done.
Qed.

Lemma band_sum_in_range (arr : ndarray) (r c : nat) :
  n_bands arr ≠ 0 → in_range (arr_dtype arr) (band_sum arr r c).
Proof.
  unfold band_sum. destruct (n_bands arr) as [|n]; [done|]. intros _.
  rewrite seq_S, foldl_app. simpl. apply wrap_in_range.
Qed.

Lemma exact_sum_S (arr : ndarray) (r c k : nat) :
  exact_sum arr r c (S k) = (exact_sum arr r c k + item arr k r c)%Z.
Proof. unfold exact_sum. by rewrite seq_S, foldl_app. Qed.

Lemma exact_sum_mono (arr : ndarray) (r c : nat) (n : nat) :
  (∀ i, i < n → (0 ≤ item arr i r c)%Z) →
  ∀ k, k ≤ n → (0 ≤ exact_sum arr r c k ≤ exact_sum arr r c n)%Z.
Proof.
  induction n as [|n IH]; intros Hpos k Hk.
  - assert (k = 0) as -> by lia. unfold exact_sum. simpl. lia.
  - rewrite exact_sum_S. pose proof (Hpos n (Nat.lt_succ_diag_r n)).
    destruct (decide (k = S n)) as [->|Hne].
    + rewrite exact_sum_S.
      assert (0 ≤ exact_sum arr r c n ≤ exact_sum arr r c n)%Z
        by (apply IH; [intros; apply Hpos; lia|lia]).
      lia.
    + assert (0 ≤ exact_sum arr r c k ≤ exact_sum arr r c n)%Z
        by (apply IH; [intros; apply Hpos; lia|lia]).
      lia.
Qed.

Lemma exact_sum_zero (arr : ndarray) (r c : nat) (n : nat) :
  (∀ i, i < n → (0 ≤ item arr i r c)%Z) →
  exact_sum arr r c n = 0%Z ↔ ∀ i, i < n → item arr i r c = 0%Z.
Proof.
  induction n as [|n IH]; intros Hpos.
  - split; [intros _ i Hi; lia|done].
  - rewrite exact_sum_S.
    pose proof (Hpos n (Nat.lt_succ_diag_r n)) as Hn.
    assert (Hpos' : ∀ i, i < n → (0 ≤ item arr i r c)%Z)
      by (intros; apply Hpos; lia).
    pose proof (exact_sum_mono arr r c n Hpos' n (le_n _)) as [Hge _].
    specialize (IH Hpos'). split.
    + intros Hz i Hi. destruct (decide (i = n)) as [->|Hne]; [lia|].
      apply IH; lia.
    + intros Hall. rewrite (Hall n) by lia.
      rewrite (proj2 IH); [done|]. intros i Hi. apply Hall. lia.
Qed.

Section ToCentroidsMore.
Variable reproject_point : Z → Z → Q * Q → Q * Q.
Variable src : dataset.

Local Abbreviation arr := (ds_array src).

(** The points returned are those of the pixels the mask keeps. *)
Lemma to_centroids_closed (nodata : Z) (to_crs : option Z) (epsg : Z) :
  n_bands arr ≠ 0 →
  ds_crs src = Some epsg →
  to_centroids reproject_point src nodata to_crs =
  OK (centroids_of reproject_point src epsg to_crs (kept_pixels arr nodata)).
Proof.
  intros Hb Hcrs. unfold to_centroids. rewrite Hcrs. simpl.
  assert (Hinit : mkCollected [] [] (replicate (n_bands arr) []) =
                  collected_of src []).
  { unfold collected_of. simpl. f_equal.
    clear. generalize 0. induction (n_bands arr); intros k; simpl;
      [done|by rewrite <-IHn]. }
  rewrite Hinit, pixel_loop_collected by done. cbn -[xy].
  fold (pixels arr). fold (kept_pixels arr nodata).
  rewrite zip_fmap_pair.
  assert (Hpts :
    (λ a, ((xy src a.1 a.2).1, (xy src a.1 a.2).2)) <$> kept_pixels arr nodata
    = (λ p, xy src p.1 p.2) <$> kept_pixels arr nodata).
  { apply list_fmap_ext. intros _ p _. by destruct (xy src p.1 p.2). }
  rewrite Hpts. unfold centroids_of. by destruct to_crs.
Qed.

(** X8: A [nodata] value that the dtype of the raster cannot hold masks
    nothing: every pixel of the raster comes back as a point, in
    row-major order. *)
Lemma to_centroids_nodata_out_of_range (nodata : Z) (to_crs : option Z)
    (epsg : Z) :
  n_bands arr ≠ 0 →
  ds_crs src = Some epsg →
  ¬ in_range (arr_dtype arr) nodata →
  to_centroids reproject_point src nodata to_crs =
  OK (centroids_of reproject_point src epsg to_crs (pixels arr)).
Proof.
  intros Hb Hcrs Hout. rewrite (to_centroids_closed _ _ epsg) by done.
  do 2 f_equal. unfold kept_pixels. apply filter_all.
  intros p _ Heq. apply Hout. rewrite <-Heq. by apply band_sum_in_range.
Qed.

(** X9: On a raster of one band the pixels left out are those whose value is
    [nodata]. *)
Lemma to_centroids_single_band (nodata : Z) (to_crs : option Z) (epsg : Z) :
  n_bands arr = 1 →
  ds_crs src = Some epsg →
  (∀ r c, r < n_rows arr → c < n_cols arr →
          in_range (arr_dtype arr) (item arr 0 r c)) →
  to_centroids reproject_point src nodata to_crs =
  OK (centroids_of reproject_point src epsg to_crs
        (filter (λ p, item arr 0 p.1 p.2 ≠ nodata) (pixels arr))).
Proof.
  intros Hb Hcrs Hrange.
  rewrite (to_centroids_closed _ _ epsg) by (done || lia).
  do 2 f_equal. unfold kept_pixels. apply filter_ext_in.
  intros [r c] [Hr Hc]%elem_of_pixels. simpl.
  unfold band_sum. rewrite Hb. simpl.
  by rewrite (Hrange r c Hr Hc).
Qed.

(** X10: With the default [nodata = 0], on a raster of unsigned integers whose
    bands do not add up beyond the dtype, the pixels left out are those
    that hold 0 in every band, as the comment in the code says. *)
Lemma to_centroids_zero_nodata (w : positive) (to_crs : option Z) (epsg : Z) :
  arr_dtype arr = UInt w →
  n_bands arr ≠ 0 →
  ds_crs src = Some epsg →
  (∀ r c i, r < n_rows arr → c < n_cols arr → i < n_bands arr →
            (0 ≤ item arr i r c)%Z) →
  (∀ r c, r < n_rows arr → c < n_cols arr →
          (exact_sum arr r c (n_bands arr) < 2 ^ Z.pos w)%Z) →
  to_centroids reproject_point src 0 to_crs =
  OK (centroids_of reproject_point src epsg to_crs
        (filter (some_band_nonzero arr) (pixels arr))).
Proof.
  intros Hdt Hb Hcrs Hpos Hsum.
  rewrite (to_centroids_closed _ _ epsg) by done.
  do 2 f_equal. unfold kept_pixels. apply filter_ext_in.
  intros [r c] [Hr Hc]%elem_of_pixels. simpl.
  assert (Hpos' : ∀ i, i < n_bands arr → (0 ≤ item arr i r c)%Z)
    by (intros; by apply Hpos).
  rewrite band_sum_exact.
  2:{ intros k Hk. rewrite Hdt. apply in_range_UInt.
      pose proof (exact_sum_mono arr r c _ Hpos' k Hk).
      pose proof (Hsum r c Hr Hc). lia. }
  rewrite (exact_sum_zero arr r c _ Hpos').
  unfold some_band_nonzero. rewrite Exists_exists. simpl. split.
  - intros Hnot.
    destruct (decide (Exists (λ i, item arr i r c ≠ 0%Z)
                             (seq 0 (n_bands arr)))) as [He|He].
    + by apply Exists_exists in He.
    + destruct Hnot. intros i Hi.
      destruct (decide (item arr i r c = 0%Z)) as [|Hne]; [done|].
      destruct He. apply Exists_exists. exists i.
      split; [apply elem_of_seq; lia|done].
  - intros (i & Hi%elem_of_seq & Hne) Hall. apply Hne, Hall. lia.
Qed.
End ToCentroidsMore.

Lemma to_centroids_nodata_out_of_range_witness :
  to_centroids (λ _ _ p, p) RasterExample.src 256 None =
  OK (centroids_of (λ _ _ p, p) RasterExample.src 3035 None
        (pixels RasterExample.arr)).
Proof.
  apply (to_centroids_nodata_out_of_range (λ _ _ p, p) RasterExample.src
           256 None 3035).
  - simpl. lia.
  - reflexivity.
  - unfold in_range. simpl. discriminate.
Defined.

Lemma to_centroids_single_band_witness :
  to_centroids (λ _ _ p, p) RasterMore.src_single 0 None =
  OK (centroids_of (λ _ _ p, p) RasterMore.src_single 3035 None
        (filter (λ p, item RasterMore.single 0 p.1 p.2 ≠ 0%Z)
                (pixels RasterMore.single))).
Proof.
  apply (to_centroids_single_band (λ _ _ p, p) RasterMore.src_single
           0 None 3035).
  - reflexivity.
  - reflexivity.
  - intros r c Hr Hc. simpl in Hr, Hc.
    destruct r as [|r]; [|lia].
    do 4 (destruct c as [|c]; [reflexivity|]). lia.
Defined.

Lemma to_centroids_zero_nodata_witness :
  to_centroids (λ _ _ p, p) RasterMore.src 0 None =
  OK (centroids_of (λ _ _ p, p) RasterMore.src 3035 None
        (filter (some_band_nonzero RasterMore.arr) (pixels RasterMore.arr))).
Proof.
  apply (to_centroids_zero_nodata (λ _ _ p, p) RasterMore.src 8 None 3035).
  - reflexivity.
  - simpl. lia.
  - reflexivity.
  - intros r c i Hr Hc Hi. simpl in Hr, Hc, Hi.
    destruct r as [|r]; [|lia].
    do 3 (destruct c as [|c]; [do 2 (destruct i as [|i]; [done|]); lia|]).
    lia.
  - intros r c Hr Hc. simpl in Hr, Hc.
    destruct r as [|r]; [|lia].
    do 3 (destruct c as [|c]; [reflexivity|]). lia.
Defined.

(** ** [get_layers]: the layers a list of resolutions selects *)

Section SplitFacts.
Variable sep : Ascii.ascii.

Lemma split_on_not_nil s : split_on sep s ≠ [].
Proof.
  destruct s as [|a s]; simpl; [done|].
  case_decide; [done|]. by destruct (split_on sep s).
Qed.

(** No piece holds the separator. *)
Lemma split_on_free s : Forall (λ q, has_char sep q = false) (split_on sep s).
Proof.
  induction s as [|a s IH]; simpl.
  - by repeat constructor.
  - case_decide as Ha.
    + by constructor.
    + destruct (split_on sep s) as [|q qs]; simpl.
      * repeat constructor. simpl. by rewrite bool_decide_eq_false_2.
      * apply Forall_cons in IH as [Hq Hqs]. constructor; [|done].
        simpl. by rewrite bool_decide_eq_false_2.
Qed.

Lemma join_cons q q' qs :
  join sep (q :: q' :: qs) = q +:+ String sep (join sep (q' :: qs)).
Proof. done. Qed.

(** Joining the pieces gives the string back. *)
Lemma join_split_on s : join sep (split_on sep s) = s.
Proof.
  induction s as [|a s IH]; simpl; [done|].
  case_decide as Ha.
  - subst a. pose proof (split_on_not_nil s).
    destruct (split_on sep s) as [|q qs]; [done|].
    rewrite join_cons, IH. done.
  - destruct (split_on sep s) as [|q qs] eqn:Hs.
    + by destruct (split_on_not_nil s).
    + destruct qs as [|q' qs].
      * simpl in *. by rewrite IH.
      * rewrite join_cons in IH. rewrite join_cons. by rewrite <-IH.
Qed.

Lemma join_snoc qs r :
  qs ≠ [] → join sep (qs ++ [r]) = join sep qs +:+ String sep r.
Proof.
  induction qs as [|q qs IH]; [done|]. intros _.
  destruct qs as [|q' qs]; [done|].
  change ((q :: q' :: qs) ++ [r]) with (q :: (q' :: qs) ++ [r]).
  change ((q' :: qs) ++ [r]) with (q' :: qs ++ [r]) at 1.
  rewrite join_cons.
  change (q' :: qs ++ [r]) with ((q' :: qs) ++ [r]).
  rewrite IH by done. rewrite join_cons.
  by rewrite append_assoc, append_cons.
Qed.

Lemma split_on_no_sep s : has_char sep s = false → split_on sep s = [s].
Proof.
  induction s as [|a s IH]; simpl; [done|].
  intros [Ha Hs]%orb_false_iff. apply bool_decide_eq_false in Ha.
  rewrite decide_False by done. by rewrite IH.
Qed.

Lemma split_on_app p r :
  split_on sep (p +:+ String sep r) = split_on sep p ++ split_on sep r.
Proof.
  induction p as [|a p IH]; simpl.
  - by rewrite decide_True.
  - case_decide; [by rewrite IH|].
    rewrite IH. pose proof (split_on_not_nil p).
    by destruct (split_on sep p).
Qed.

(** The last piece of a string is what follows its last separator, or
    the string itself when it holds no separator. *)
Lemma last_split_on s r :
  last (split_on sep s) = Some r ↔
  has_char sep r = false ∧ (s = r ∨ ∃ p, s = p +:+ String sep r).
Proof.
  split.
  - intros Hlast. apply last_Some in Hlast as [qs Hqs].
    pose proof (split_on_free s) as Hfree. rewrite Hqs in Hfree.
    apply Forall_app in Hfree as [_ Hr]. rewrite Forall_singleton in Hr.
    split; [done|].
    pose proof (join_split_on s) as Hjoin. rewrite Hqs in Hjoin.
    destruct qs as [|q qs]; [by left|].
    right. exists (join sep (q :: qs)). by rewrite <-Hjoin, join_snoc.
  - intros [Hr [->|[p ->]]].
    + by rewrite split_on_no_sep.
    + rewrite split_on_app, (split_on_no_sep r) by done. apply last_snoc.
Qed.
End SplitFacts.

Lemma for_each_filter {A} (P : A → Prop) `{∀ x, Decision (P x)}
    (body : list A → A → result (list A)) (items : list A) : ∀ init,
  (∀ acc x, body acc x = OK (if decide (P x) then acc ++ [x] else acc)) →
  for_each items body init = OK (init ++ filter P items).
Proof.
  induction items as [|x items IH]; intros init Hbody; simpl.
  - by rewrite app_nil_r.
  - rewrite Hbody. simpl. rewrite IH by done.
    destruct (decide (P x)) as [HP|HP].
    + rewrite filter_cons_True by done. by rewrite <-app_assoc.
    + by rewrite filter_cons_False.
Qed.

(** The loop of [get_layers] is a filter on the names of the catalogue. *)
Lemma get_layers_filter {C} (contents : list (string * C))
    (resolutions : list string) :
  get_layers contents resolutions =
  OK (filter (selected resolutions) (contents.*1)).
Proof.
  unfold get_layers. rewrite (for_each_filter (selected resolutions)); [done|].
  intros acc layer. unfold index_last.
  destruct (last (split_on "_"%char layer)) as [res|] eqn:Hlast.
  - simpl. destruct (decide (res ∈ resolutions)) as [Hin|Hout].
    + rewrite decide_True; [done|]. exists res. done.
    + rewrite decide_False; [done|]. unfold selected. rewrite Hlast.
      intros (res' & [= <-] & Hin). done.
  - apply last_None in Hlast. by destruct (split_on_not_nil "_"%char layer).
Qed.

(** X11: [get_layers] never raises.  It returns, in the order of the
    catalogue, the layers whose name ends in an underscore followed by one
    of the resolutions, or is one of the resolutions; a resolution that
    holds an underscore selects nothing. *)
Lemma get_layers_spec {C} (contents : list (string * C))
    (resolutions : list string) :
  ∃ layers,
    get_layers contents resolutions = OK layers ∧
    layers `sublist_of` contents.*1 ∧
    ∀ layer, layer ∈ layers ↔
      layer ∈ contents.*1 ∧
      ∃ res, res ∈ resolutions ∧ has_char "_"%char res = false ∧
             (layer = res ∨ ∃ prefix, layer = prefix +:+ "_" +:+ res).
Proof.
  exists (filter (selected resolutions) (contents.*1)). split_and!.
  - apply get_layers_filter.
  - apply sublist_filter.
  - intros layer. rewrite list_elem_of_filter. unfold selected. split.
    + intros [(res & Hlast & Hin) Hkey]. split; [done|].
      apply last_split_on in Hlast as [Hfree Hshape]. eauto.
    + intros [Hkey (res & Hin & Hfree & Hshape)]. split; [|done].
      exists res. split; [|done]. apply last_split_on. done.
Qed.

(** With the default resolutions, on a catalogue of four layers. *)
Example LayersExample_run :
  get_layers LayersExample.contents default_resolutions =
  OK ["clc_2018_1000m"; "dem_500m"; "5000m"].
Proof. vm_compute. reflexivity. Qed.

(** ** [rescale_align]: the grid laid over the bounding box *)

Lemma py_int_inject_Z (z : Z) : py_int (inject_Z z) = z.
Proof. unfold py_int. simpl. apply Z.quot_1_r. Qed.

Lemma py_floordiv_OK (a b : Q) :
  ¬ (b == 0)%Q → py_floordiv a b = OK (inject_Z (Qfloor (a / b))).
Proof.
  intros Hb. unfold py_floordiv.
  destruct (Qeq_bool b 0) eqn:Heq; [|done].
  by apply Qeq_bool_iff in Heq.
Qed.

Lemma py_floordiv_inv (a b q : Q) :
  py_floordiv a b = OK q → ¬ (b == 0)%Q ∧ q = inject_Z (Qfloor (a / b)).
Proof.
  unfold py_floordiv. destruct (Qeq_bool b 0) eqn:Heq; [done|].
  intros [= <-]. split; [|done]. intros Hb%Qeq_bool_iff. congruence.
Qed.

(** The cells counted by the floor division fit into the extent, and one
    more would not. *)
Lemma floor_cells (d res : Q) :
  (0 < res)%Q →
  (inject_Z (Qfloor (d / res)) * res <= d)%Q ∧
  (d < (inject_Z (Qfloor (d / res)) + 1) * res)%Q.
Proof.
  intros Hres.
  assert (Hd : (d / res * res == d)%Q) by (field; lra).
  pose proof (Qfloor_le (d / res)) as Hle.
  pose proof (Qlt_floor (d / res)) as Hlt.
  rewrite inject_Z_plus in Hlt. change (inject_Z 1) with 1%Q in Hlt.
  split.
  - rewrite <-Hd at 2. apply Qmult_le_compat_r; lra.
  - rewrite <-Hd at 1. apply Qmult_lt_compat_r; lra.
Qed.

Lemma floor_cells_nonneg (d res : Q) :
  (0 < res)%Q → (0 <= d)%Q → (0 ≤ Qfloor (d / res))%Z.
Proof.
  intros Hres Hd. change 0%Z with (Qfloor 0).
  apply Qfloor_resp_le. apply Qle_shift_div_l; lra.
Qed.

Lemma floor_cells_neg (d res : Q) :
  (res < 0)%Q → (0 < d)%Q → (Qfloor (d / res) < 0)%Z.
Proof.
  intros Hres Hd.
  assert (Hq : (d / res < 0)%Q).
  { assert (Hm : (d / res == - (d / - res))%Q) by (field; lra).
    rewrite Hm.
    assert (0 < d / - res)%Q; [|lra].
    apply Qlt_shift_div_l; lra. }
  pose proof (Qfloor_le (d / res)) as Hle.
  rewrite Zlt_Qlt. change (inject_Z 0) with 0%Q. lra.
Qed.

(** *** The rounding of a float operation *)

Lemma round_half_even_close (n d : Z) :
  (0 < d)%Z →
  (- d ≤ 2 * (round_half_even n d * d - n) ≤ d)%Z.
Proof.
  intros Hd. unfold round_half_even.
  pose proof (Z.div_mod n d ltac:(lia)) as Hdm.
  pose proof (Z.mod_pos_bound n d Hd) as Hr.
  destruct (Z.ltb_spec (2 * (n mod d)) d).
  - nia.
  - destruct (Z.ltb_spec d (2 * (n mod d))).
    + nia.
    + destruct (Z.even (n / d)); nia.
Qed.

Lemma round_half_even_Q (y : Q) :
  let m := inject_Z (round_half_even (Qnum y) (Z.pos (Qden y))) in
  (y - (1 # 2) <= m)%Q ∧ (m <= y + (1 # 2))%Q.
Proof.
  destruct y as [n d]. cbn [Qnum Qden].
  pose proof (round_half_even_close n (Z.pos d) ltac:(lia)) as H.
  set (k := round_half_even n (Z.pos d)) in *.
  unfold Qle, Qminus, Qplus, Qopp, inject_Z. cbn [Qnum Qden].
  split; nia.
Qed.

Lemma pow2_inject (k : Z) : (0 ≤ k)%Z → (2 ^ k == inject_Z (2 ^ k))%Q.
Proof. intros Hk. by rewrite Zpower_Qpower. Qed.

Lemma pow2_pos_Q (k : Z) : (0 < 2 ^ k)%Q.
Proof. by apply Qpower_0_lt. Qed.

(** [binade] names the power of two at or below a positive number ... *)
Lemma binade_le (x : Q) : (0 < x)%Q → (2 ^ binade x <= x)%Q.
Proof.
  intros Hx. unfold binade.
  set (e := (Z.log2 (Qnum x) - Z.log2 (Z.pos (Qden x)))%Z).
  destruct (Qle_bool (2 ^ e) x) eqn:Hle; [by apply Qle_bool_iff|].
  destruct x as [n d]. cbn [Qnum Qden] in *.
  assert (Hn : (0 < n)%Z).
  { unfold Qlt in Hx. simpl in Hx. lia. }
  destruct (Z.log2_spec n Hn) as [Hn1 _].
  destruct (Z.log2_spec (Z.pos d) ltac:(lia)) as [_ Hd2].
  pose proof (Z.log2_nonneg n) as Hln.
  pose proof (Z.log2_nonneg (Z.pos d)) as Hld.
  replace (e - 1)%Z with (Z.log2 n - Z.succ (Z.log2 (Z.pos d)))%Z by lia.
  rewrite Qpower_minus by done.
  rewrite !pow2_inject by lia.
  set (A := (2 ^ Z.log2 n)%Z) in *.
  set (B := (2 ^ Z.succ (Z.log2 (Z.pos d)))%Z) in *.
  assert (HA : (0 < A)%Z) by (apply Z.pow_pos_nonneg; lia).
  apply Qle_shift_div_r.
  - change 0%Q with (inject_Z 0). rewrite <-Zlt_Qlt. lia.
  - unfold Qle, Qmult, inject_Z. cbn [Qnum Qden]. nia.
Qed.

(** ... and the next power of two is above it. *)
Lemma binade_lt (x : Q) : (0 < x)%Q → (x < 2 ^ (binade x + 1))%Q.
Proof.
  intros Hx. unfold binade.
  set (e := (Z.log2 (Qnum x) - Z.log2 (Z.pos (Qden x)))%Z).
  destruct (Qle_bool (2 ^ e) x) eqn:Hle.
  2:{ replace (e - 1 + 1)%Z with e by lia.
      apply Qnot_le_lt. intros Hle'%Qle_bool_iff. congruence. }
  destruct x as [n d]. cbn [Qnum Qden] in *.
  assert (Hn : (0 < n)%Z).
  { unfold Qlt in Hx. simpl in Hx. lia. }
  destruct (Z.log2_spec n Hn) as [_ Hn2].
  destruct (Z.log2_spec (Z.pos d) ltac:(lia)) as [Hd1 _].
  pose proof (Z.log2_nonneg n) as Hln.
  pose proof (Z.log2_nonneg (Z.pos d)) as Hld.
  replace (e + 1)%Z with (Z.succ (Z.log2 n) - Z.log2 (Z.pos d))%Z by lia.
  rewrite Qpower_minus by done.
  rewrite !pow2_inject by lia.
  set (A := (2 ^ Z.succ (Z.log2 n))%Z) in *.
  set (B := (2 ^ Z.log2 (Z.pos d))%Z) in *.
  assert (HB : (0 < B)%Z) by (apply Z.pow_pos_nonneg; lia).
  apply Qlt_shift_div_l.
  - change 0%Q with (inject_Z 0). rewrite <-Zlt_Qlt. lia.
  - unfold Qlt, Qmult, inject_Z. cbn [Qnum Qden]. nia.
Qed.

(** A rounding moves a number by no more than the fraction [float64_eps]
    of it. *)
Lemma round_float64_close (x : Q) :
  (0 <= x)%Q →
  (x * (1 - float64_eps) <= round_float64 x)%Q ∧
  (round_float64 x <= x * (1 + float64_eps))%Q.
Proof.
  intros Hx. unfold round_float64.
  destruct (Qeq_bool x 0) eqn:Hz.
  { apply Qeq_bool_iff in Hz. rewrite Hz. split; lra. }
  assert (Hpos : (0 < x)%Q).
  { apply Qeq_bool_neq in Hz. lra. }
  assert (Habs : Qabs x = x).
  { destruct x as [[|n|n] d]; done. }
  rewrite Habs.
  pose proof (binade_le x Hpos) as He.
  set (e := binade x) in *.
  set (P := (2 ^ (52 - e))%Q).
  set (R := (2 ^ (e - 52))%Q).
  assert (HP : (0 < P)%Q) by apply pow2_pos_Q.
  assert (HR : (0 < R)%Q) by apply pow2_pos_Q.
  assert (HPR : (P * R == 1)%Q).
  { unfold P, R. rewrite <-Qpower_plus by done.
    replace (52 - e + (e - 52))%Z with 0%Z by lia. done. }
  destruct (round_half_even_Q (x * P)) as [Hlo Hhi].
  set (m := inject_Z _) in *.
  assert (Hy : (2 ^ 52 <= x * P)%Q).
  { assert (H52 : (2 ^ 52 == 2 ^ e * P)%Q).
    { unfold P. rewrite <-Qpower_plus by done.
      by replace (e + (52 - e))%Z with 52%Z by lia. }
    rewrite H52. apply Qmult_le_compat_r; lra. }
  assert (Heps : ((1 # 2) <= x * P * float64_eps)%Q).
  { assert (H12 : ((1 # 2) == 2 ^ 52 * float64_eps)%Q) by done.
    rewrite H12. apply Qmult_le_compat_r; [done|]. done. }
  assert (Hxe : (x * float64_eps == x * P * float64_eps * R)%Q).
  { transitivity (x * float64_eps * (P * R))%Q; [rewrite HPR|]; ring. }
  assert (Hxr : (x == x * P * R)%Q).
  { transitivity (x * (P * R))%Q; [rewrite HPR|]; ring. }
  assert (H1 : ((x * P - x * P * float64_eps) * R <= m * R)%Q)
    by (apply Qmult_le_compat_r; lra).
  assert (H2 : (m * R <= (x * P + x * P * float64_eps) * R)%Q)
    by (apply Qmult_le_compat_r; lra).
  assert (E1 : (x * (1 - float64_eps) ==
                (x * P - x * P * float64_eps) * R)%Q).
  { transitivity (x - x * float64_eps)%Q; [ring|].
    rewrite Hxe. rewrite Hxr at 1. ring. }
  assert (E2 : (x * (1 + float64_eps) ==
                (x * P + x * P * float64_eps) * R)%Q).
  { transitivity (x + x * float64_eps)%Q; [ring|].
    rewrite Hxe. rewrite Hxr at 1. ring. }
  rewrite E1, E2. done.
Qed.

(** The difference of two floats, as floats give it. *)
Lemma fl_sub_close (a b : Q) :
  (b <= a)%Q →
  (0 <= fl_sub a b)%Q ∧
  ((a - b) * (1 - float64_eps) <= fl_sub a b)%Q ∧
  (fl_sub a b <= (a - b) * (1 + float64_eps))%Q.
Proof.
  intros Hab. unfold fl_sub.
  destruct (round_float64_close (a - b)) as [Hlo Hhi]; [lra|].
  split_and!; [|done|done].
  assert (Heps : (0 <= 1 - float64_eps)%Q) by done.
  assert (0 <= (a - b) * (1 - float64_eps))%Q; [|lra].
  apply Qmult_le_0_compat; lra.
Qed.

Section RescaleFacts.
Variable warp_reproject :
  ndarray → pvalue → pvalue → pvalue → ndarray → affine → Resampling →
  result (nat → nat → nat → Z).

(** What a call that returns has gone through. *)
Lemma rescale_align_inv float_sub array profile vector resolution
    resampling dst dst_profile :
  rescale_align_over warp_reproject float_sub array profile vector
                     resolution resampling = OK (dst, dst_profile) →
  ∃ src src_profile boxes left_ bottom right_ top written,
    array = Some src ∧ profile = Some src_profile ∧ vector = Some boxes ∧
    total_bounds boxes = Some (left_, bottom, right_, top) ∧
    ¬ (resolution == 0)%Q ∧
    let w := Qfloor (float_sub right_ left_ / resolution) in
    let h := Qfloor (float_sub top bottom / resolution) in
    (0 ≤ w)%Z ∧ (0 ≤ h)%Z ∧
    dst = mkArr (arr_dtype src) (n_bands src) (Z.to_nat h) (Z.to_nat w)
                written ∧
    dst_profile =
      <["height" := PFloat (inject_Z h)]>
        (<["width" := PFloat (inject_Z w)]>
           (<["transform" :=
                PAffine (mkAffine resolution 0 left_ 0 (- resolution) top)]>
              src_profile)).
Proof.
  unfold rescale_align_over. intros Hrun.
  inv_rbind Hrun. inv_rbind Hrun. inv_rbind Hrun. inv_rbind Hrun.
  inv_rbind Hrun. rename a3 into boxes.
  destruct vector as [boxes'|]; [|done]. injection Ha3 as ->.
  destruct (total_bounds boxes) as [[[[left_ bottom] right_] top]|] eqn:Hb.
  2:{ inv_rbind Hrun. inv_rbind Hrun. inv_rbind Hrun. done. }
  inv_rbind Hrun. inv_rbind Hrun. inv_rbind Hrun. inv_rbind Hrun.
  inv_rbind Hrun. inv_rbind Hrun. injection Hrun as <- <-.
  apply py_floordiv_inv in Ha3 as [Hres ->].
  apply py_floordiv_inv in Ha4 as [_ ->].
  destruct array as [src|]; [|done]. injection Ha5 as <-.
  destruct profile as [src_profile|]; [|done]. injection Ha8 as <-.
  rewrite !py_int_inject_Z in Ha6. unfold np_zeros in Ha6.
  case_decide as Hdims; [|done]. injection Ha6 as <-.
  cbn [arr_dtype n_bands n_rows n_cols].
  exists src, src_profile, boxes, left_, bottom, right_, top, a7.
  split_and!; try done; tauto.
Qed.

(** X12: Called with a valid method, a profile, an array and a vector whose
    geometries span a box, at a positive resolution, [rescale_align]
    returns an array of the dtype and the bands of the source on a grid
    that starts in the upper left corner of the box.  It holds as many
    whole columns as fit into the width of the box as the floats give it,
    the rounded difference [right - left], and as many rows as fit into
    the rounded height.  Measured on the box itself the grid is therefore
    right up to that rounding: it passes the right and the lower edge by
    no more than the fraction [float64_eps] of the extent, and what it
    leaves uncovered is narrower than a cell and that fraction.  The
    profile returned carries the new transform and the numbers of columns
    and rows, as floats, and is the profile passed in otherwise. *)
Lemma rescale_align_grid (array : ndarray) (profile : Profile)
    (vector : list bbox) resolution resampling method tr crs nd
    left_ bottom right_ top :
  resampling_of resampling = OK method →
  profile !! "transform" = Some tr →
  profile !! "crs" = Some crs →
  profile !! "nodata" = Some nd →
  total_bounds vector = Some (left_, bottom, right_, top) →
  (0 < resolution)%Q → (left_ <= right_)%Q → (bottom <= top)%Q →
  (∀ dst t, ∃ written,
     warp_reproject array tr crs nd dst t method = OK written) →
  ∃ dst dst_profile (w h : Z),
    rescale_align_f64 warp_reproject (Some array) (Some profile)
                      (Some vector) resolution resampling =
      OK (dst, dst_profile) ∧
    w = Qfloor (fl_sub right_ left_ / resolution) ∧
    h = Qfloor (fl_sub top bottom / resolution) ∧
    arr_dtype dst = arr_dtype array ∧ n_bands dst = n_bands array ∧
    n_rows dst = Z.to_nat h ∧ n_cols dst = Z.to_nat w ∧
    (0 ≤ w)%Z ∧ (0 ≤ h)%Z ∧
    dst_profile !! "transform" =
      Some (PAffine (mkAffine resolution 0 left_ 0 (- resolution) top)) ∧
    dst_profile !! "width" = Some (PFloat (inject_Z w)) ∧
    dst_profile !! "height" = Some (PFloat (inject_Z h)) ∧
    (∀ key, key ∉ ["transform"; "width"; "height"] →
            dst_profile !! key = profile !! key) ∧
    (left_ + inject_Z w * resolution <=
       right_ + (right_ - left_) * float64_eps)%Q ∧
    (right_ - (right_ - left_) * float64_eps <
       left_ + (inject_Z w + 1) * resolution)%Q ∧
    (bottom - (top - bottom) * float64_eps <=
       top - inject_Z h * resolution)%Q ∧
    (top - (inject_Z h + 1) * resolution <
       bottom + (top - bottom) * float64_eps)%Q.
Proof.
  intros Hmethod Htr Hcrs Hnd Hbounds Hres Hx Hy Hwarp.
  destruct (fl_sub_close right_ left_ Hx) as (Hdx0 & Hdx1 & Hdx2).
  destruct (fl_sub_close top bottom Hy) as (Hdy0 & Hdy1 & Hdy2).
  set (dx := fl_sub right_ left_) in *.
  set (dy := fl_sub top bottom) in *.
  set (w := Qfloor (dx / resolution)).
  set (h := Qfloor (dy / resolution)).
  assert (Hw : (0 ≤ w)%Z) by (by apply floor_cells_nonneg).
  assert (Hh : (0 ≤ h)%Z) by (by apply floor_cells_nonneg).
  destruct (Hwarp
              (mkArr (arr_dtype array) (n_bands array) (Z.to_nat h)
                     (Z.to_nat w) (λ _ _ _, 0%Z))
              (mkAffine resolution 0 left_ 0 (- resolution) top))
    as [written Hwritten].
  eexists _, _, w, h. split.
  - unfold rescale_align_f64, rescale_align_over.
    rewrite Hmethod. cbn [rbind subscript].
    rewrite Htr, Hcrs, Hnd. cbn [rbind attr_of]. rewrite Hbounds.
    rewrite !py_floordiv_OK by lra. cbn [rbind].
    rewrite !py_int_inject_Z. fold dx dy. fold w h. unfold np_zeros.
    rewrite decide_True by done.
    cbn [rbind arr_dtype n_bands n_rows n_cols].
    rewrite Hwritten. cbn [rbind]. reflexivity.
  - destruct (floor_cells dx resolution Hres) as [Hw1 Hw2].
    destruct (floor_cells dy resolution Hres) as [Hh1 Hh2].
    fold w in Hw1, Hw2. fold h in Hh1, Hh2. unfold Profile in *.
    split_and!; try done.
    + rewrite !lookup_insert_ne by done. apply lookup_insert_eq.
    + rewrite lookup_insert_ne by done. apply lookup_insert_eq.
    + apply lookup_insert_eq.
    + intros key Hkey.
      rewrite !lookup_insert_ne; [done|..];
        intros <-; apply Hkey; set_solver.
    + lra.
    + lra.
    + lra.
    + lra.
Qed.

(** X13: The centre of every pixel of the grid [rescale_align] returns lies
    inside the box the geometries of the vector span. *)
Lemma rescale_align_centres array profile vector resolution resampling
    dst dst_profile boxes left_ bottom right_ top crs (row col : nat) :
  rescale_align warp_reproject array profile vector resolution resampling =
    OK (dst, dst_profile) →
  vector = Some boxes →
  total_bounds boxes = Some (left_, bottom, right_, top) →
  (0 < resolution)%Q →
  row < n_rows dst → col < n_cols dst →
  ∃ t, dst_profile !! "transform" = Some (PAffine t) ∧
    (left_ < (xy (mkDataset dst t crs) row col).1)%Q ∧
    ((xy (mkDataset dst t crs) row col).1 < right_)%Q ∧
    (bottom < (xy (mkDataset dst t crs) row col).2)%Q ∧
    ((xy (mkDataset dst t crs) row col).2 < top)%Q.
Proof.
  intros Hrun -> Hbounds Hres Hrow Hcol.
  unfold rescale_align in Hrun.
  apply rescale_align_inv in Hrun
    as (src & p & boxes' & l & b & r & t & written & -> & -> & [= <-] &
        Hb & _ & Hw & Hh & -> & ->).
  rewrite Hbounds in Hb. injection Hb as <- <- <- <-.
  cbn [n_rows n_cols] in Hrow, Hcol.
  unfold Profile in *. eexists. split.
  { rewrite !lookup_insert_ne by done. apply lookup_insert_eq. }
  unfold xy. simpl.
  destruct (floor_cells (right_ - left_) resolution Hres) as [Hw1 _].
  destruct (floor_cells (top - bottom) resolution Hres) as [Hh1 _].
  set (w := Qfloor ((right_ - left_) / resolution)) in *.
  set (h := Qfloor ((top - bottom) / resolution)) in *.
  assert (Hc : (inject_Z (Z.of_nat col) + 1 <= inject_Z w)%Q).
  { change 1%Q with (inject_Z 1). rewrite <-inject_Z_plus, <-Zle_Qle. lia. }
  assert (Hr : (inject_Z (Z.of_nat row) + 1 <= inject_Z h)%Q).
  { change 1%Q with (inject_Z 1). rewrite <-inject_Z_plus, <-Zle_Qle. lia. }
  assert (Hc0 : (0 <= inject_Z (Z.of_nat col))%Q).
  { change 0%Q with (inject_Z 0). rewrite <-Zle_Qle. lia. }
  assert (Hr0 : (0 <= inject_Z (Z.of_nat row))%Q).
  { change 0%Q with (inject_Z 0). rewrite <-Zle_Qle. lia. }
  set (c := inject_Z (Z.of_nat col)) in *.
  set (rw := inject_Z (Z.of_nat row)) in *.
  assert (Hcw : ((c + (1 # 2)) * resolution < inject_Z w * resolution)%Q)
    by (apply Qmult_lt_compat_r; lra).
  assert (Hrh : ((rw + (1 # 2)) * resolution < inject_Z h * resolution)%Q)
    by (apply Qmult_lt_compat_r; lra).
  assert (Hcp : (0 < (c + (1 # 2)) * resolution)%Q)
    by (apply Qmult_lt_0_compat; lra).
  assert (Hrp : (0 < (rw + (1 # 2)) * resolution)%Q)
    by (apply Qmult_lt_0_compat; lra).
  split_and!; lra.
Qed.

(** X14: A resolution that is not positive is not rejected as such: 0 stops
    the floor division, and a negative one the allocation of the output
    array, whose width would be negative. *)
Lemma rescale_align_bad_resolution (array : ndarray) (profile : Profile)
    (vector : list bbox) resolution resampling method tr crs nd
    left_ bottom right_ top :
  resampling_of resampling = OK method →
  profile !! "transform" = Some tr →
  profile !! "crs" = Some crs →
  profile !! "nodata" = Some nd →
  total_bounds vector = Some (left_, bottom, right_, top) →
  (resolution <= 0)%Q → (left_ < right_)%Q →
  rescale_align warp_reproject (Some array) (Some profile) (Some vector)
                resolution resampling =
  Raise (if Qeq_bool resolution 0 then ZeroDivisionError else ValueError).
Proof.
  intros Hmethod Htr Hcrs Hnd Hbounds Hres Hx.
  unfold rescale_align, rescale_align_over. rewrite Hmethod. cbn [rbind subscript].
  rewrite Htr, Hcrs, Hnd. cbn [rbind attr_of]. rewrite Hbounds.
  destruct (Qeq_bool resolution 0) eqn:Hz.
  - unfold py_floordiv. by rewrite Hz.
  - assert (Hne : ¬ (resolution == 0)%Q).
    { intros Heq%Qeq_bool_iff. congruence. }
    rewrite !py_floordiv_OK by done. cbn [rbind].
    rewrite !py_int_inject_Z. unfold np_zeros.
    rewrite decide_False; [done|].
    intros [_ Hw].
    assert (Qfloor ((right_ - left_) / resolution) < 0)%Z; [|lia].
    apply floor_cells_neg; lra.
Qed.
End RescaleFacts.

(** The example raster on a grid of 300 m cells. *)
Lemma GridExample_run :
  rescale_align GridExample.blank (Some GridExample.source)
                (Some GridExample.source_profile) (Some GridExample.vector)
                300 "bilinear" =
  OK (GridExample.grid, GridExample.grid_profile).
Proof. vm_compute. reflexivity. Qed.

(** With the floats written 0.1 and 1.1 for the bounds and 0.1 for the
    resolution, the width of the box is the float 1.0, which holds nine
    cells of the float 0.1 and not ten; the exact difference of the two
    bounds would hold ten. *)
Lemma TenthsExample_run :
  (fl_sub TenthsExample.eleven_tenths TenthsExample.tenth == 1)%Q ∧
  (∃ written profile,
     rescale_align_f64 GridExample.blank (Some GridExample.source)
                       (Some GridExample.source_profile)
                       (Some TenthsExample.vector) TenthsExample.tenth
                       "nearest" =
     OK (mkArr uint8 1 9 9 written, profile) ∧
     profile !! "width" = Some (PFloat 9) ∧
     profile !! "height" = Some (PFloat 9)) ∧
  Qfloor ((TenthsExample.eleven_tenths - TenthsExample.tenth) /
          TenthsExample.tenth) = 10%Z.
Proof.
  split_and!.
  - vm_compute. reflexivity.
  - eexists _, _. split_and!; vm_compute; reflexivity.
  - vm_compute. reflexivity.
Qed.

Lemma rescale_align_grid_witness :
  ∃ dst dst_profile (w h : Z),
    rescale_align_f64 GridExample.blank (Some GridExample.source)
                      (Some GridExample.source_profile)
                      (Some TenthsExample.vector) TenthsExample.tenth
                      "nearest" = OK (dst, dst_profile) ∧
    w = Qfloor (fl_sub TenthsExample.eleven_tenths TenthsExample.tenth /
                TenthsExample.tenth) ∧
    h = Qfloor (fl_sub TenthsExample.eleven_tenths TenthsExample.tenth /
                TenthsExample.tenth) ∧
    arr_dtype dst = uint8 ∧ n_bands dst = 1 ∧
    n_rows dst = Z.to_nat h ∧ n_cols dst = Z.to_nat w ∧
    (0 ≤ w)%Z ∧ (0 ≤ h)%Z ∧
    dst_profile !! "transform" =
      Some (PAffine (mkAffine TenthsExample.tenth 0 TenthsExample.tenth 0
                              (- TenthsExample.tenth)
                              TenthsExample.eleven_tenths)) ∧
    dst_profile !! "width" = Some (PFloat (inject_Z w)) ∧
    dst_profile !! "height" = Some (PFloat (inject_Z h)) ∧
    (∀ key, key ∉ ["transform"; "width"; "height"] →
            dst_profile !! key = GridExample.source_profile !! key) ∧
    (TenthsExample.tenth + inject_Z w * TenthsExample.tenth <=
       TenthsExample.eleven_tenths +
       (TenthsExample.eleven_tenths - TenthsExample.tenth) * float64_eps)%Q ∧
    (TenthsExample.eleven_tenths -
       (TenthsExample.eleven_tenths - TenthsExample.tenth) * float64_eps <
       TenthsExample.tenth + (inject_Z w + 1) * TenthsExample.tenth)%Q ∧
    (TenthsExample.tenth -
       (TenthsExample.eleven_tenths - TenthsExample.tenth) * float64_eps <=
       TenthsExample.eleven_tenths - inject_Z h * TenthsExample.tenth)%Q ∧
    (TenthsExample.eleven_tenths - (inject_Z h + 1) * TenthsExample.tenth <
       TenthsExample.tenth +
       (TenthsExample.eleven_tenths - TenthsExample.tenth) * float64_eps)%Q.
Proof.
  apply (rescale_align_grid GridExample.blank GridExample.source
           GridExample.source_profile TenthsExample.vector
           TenthsExample.tenth "nearest" nearest
           (PAffine (mkAffine 500 0 0 0 (-500) 1000)) (PCrs 3035) (PInt 0)
           TenthsExample.tenth TenthsExample.tenth
           TenthsExample.eleven_tenths TenthsExample.eleven_tenths).
  - reflexivity.
  - vm_compute. reflexivity.
  - vm_compute. reflexivity.
  - vm_compute. reflexivity.
  - reflexivity.
  - vm_compute. reflexivity.
  - vm_compute. discriminate.
  - vm_compute. discriminate.
  - intros dst t. eexists. reflexivity.
Defined.

Lemma rescale_align_centres_witness :
  ∃ t, GridExample.grid_profile !! "transform" = Some (PAffine t) ∧
    (100 < (xy (mkDataset GridExample.grid t (Some 3035%Z)) 1 2).1)%Q ∧
    ((xy (mkDataset GridExample.grid t (Some 3035%Z)) 1 2).1 < 1050)%Q ∧
    (100 < (xy (mkDataset GridExample.grid t (Some 3035%Z)) 1 2).2)%Q ∧
    ((xy (mkDataset GridExample.grid t (Some 3035%Z)) 1 2).2 < 700)%Q.
Proof.
  apply (rescale_align_centres GridExample.blank (Some GridExample.source)
           (Some GridExample.source_profile) (Some GridExample.vector)
           300 "bilinear" GridExample.grid GridExample.grid_profile
           GridExample.vector 100 100 1050 700 (Some 3035%Z) 1 2).
  - exact GridExample_run.
  - reflexivity.
  - reflexivity.
  - reflexivity.
  - simpl. lia.
  - simpl. lia.
Defined.

Lemma rescale_align_bad_resolution_witness :
  rescale_align GridExample.blank (Some GridExample.source)
                (Some GridExample.source_profile) (Some GridExample.vector)
                (- (300)) "nearest" =
  Raise ValueError.
Proof.
  apply (rescale_align_bad_resolution GridExample.blank GridExample.source
           GridExample.source_profile GridExample.vector (- (300)) "nearest"
           nearest (PAffine (mkAffine 500 0 0 0 (-500) 1000)) (PCrs 3035)
           (PInt 0) 100 100 1050 700).
  - reflexivity.
  - vm_compute. reflexivity.
  - vm_compute. reflexivity.
  - vm_compute. reflexivity.
  - reflexivity.
  - discriminate.
  - reflexivity.
Defined.

(** ** [multiplot_raster]: the grid of axes *)

Lemma ceil_sqrt_spec (n : nat) :
  2 ≤ n →
  2 ≤ ceil_sqrt n ∧
  n ≤ ceil_sqrt n * ceil_sqrt n ∧
  (ceil_sqrt n - 1) * (ceil_sqrt n - 1) < n.
Proof.
  intros Hn. unfold ceil_sqrt.
  destruct (Nat.sqrt_up_spec n) as [Hlo Hhi]; [lia|].
  rewrite <-Nat.sub_1_r in Hlo. split_and!; [|done|done].
  destruct (Nat.sqrt_up n) as [|[|k]]; simpl in *; lia.
Qed.

Section MultiplotFacts.
Context {A : Type}.
Variable glob_tif : string → list string.
Variable path_name : string → string.
Variable read_masked : string → result A.
Variable rioshow : A → Axes A → result (Axes A).

Local Abbreviation turn := (plot_one path_name read_masked rioshow).
Local Abbreviation shows := (plotted path_name read_masked rioshow).

(** One turn on a fresh axes at position [i]. *)
Lemma plot_one_fresh (before after : list (Axes A)) img shown :
  shows img = OK shown →
  turn (before ++ new_axes :: after) (length before, img) =
  OK (before ++ shown :: after).
Proof.
  intros Hshown. unfold plot_one, index.
  rewrite list_lookup_middle by done. cbn [rbind].
  assert (Hins : <[length before := shown]> (before ++ new_axes :: after) =
                 before ++ shown :: after).
  { rewrite insert_app_r_alt by lia. by rewrite Nat.sub_diag. }
  unfold plotted in Hshown. destruct img as [path|img].
  - inv_rbind Hshown. rewrite Ha. cbn [rbind]. rewrite Hshown. cbn [rbind].
    by rewrite Hins.
  - rewrite Hshown. cbn [rbind]. by rewrite Hins.
Qed.

(** The loop fills the fresh axes from the left, one per item. *)
Lemma plot_loop (data : list (string + A)) : ∀ shown before spare,
  Forall2 (λ img a, shows img = OK a) data shown →
  for_each (zip (seq (length before) (length data)) data) turn
           (before ++ replicate (length data + spare) new_axes) =
  OK (before ++ shown ++ replicate spare new_axes).
Proof.
  induction data as [|img data IH]; intros shown before spare Hall.
  - apply Forall2_nil_inv_l in Hall as ->. done.
  - apply Forall2_cons_inv_l in Hall as (a & shown' & Ha & Hall & ->).
    cbn [length seq zip zip_with for_each Nat.add replicate].
    rewrite (plot_one_fresh _ _ _ _ Ha). cbn [rbind].
    rewrite (cons_middle a before), app_assoc.
    replace (S (length before)) with (length (before ++ [a]))
      by (rewrite length_app; simpl; lia).
    rewrite (IH shown' (before ++ [a]) spare Hall).
    by rewrite <-!app_assoc.
Qed.

(** X15: With fewer than two rasters, however they are passed, no figure
    comes about: without any the grid has no cell and [plt.subplots]
    raises [ValueError]; with one the grid is a single axes object, which
    has no [flatten], and the call raises [AttributeError]. *)
Lemma multiplot_raster_needs_two folder files arrays data :
  select_data glob_tif folder files arrays = OK data →
  length data < 2 →
  multiplot_raster glob_tif path_name read_masked rioshow
                   folder files arrays =
  Raise (if decide (length data = 0) then ValueError else AttributeError).
Proof.
  intros Hdata Hlen. unfold multiplot_raster. rewrite Hdata. cbn [rbind].
  destruct (length data) as [|[|n]]; [done|done|lia].
Qed.

(** X16: With two rasters or more, all of which can be read and shown, the
    figure is a square grid of [k * k] axes, [k] being the least side
    that gives every raster a cell; the rasters take the first cells in
    their order, each on axes of its own, and the cells left over, fewer
    than [2 * k - 1], have their axis switched off. *)
Lemma multiplot_raster_grid folder files arrays data :
  select_data glob_tif folder files arrays = OK data →
  2 ≤ length data →
  (∀ img, img ∈ data → ∃ a, shows img = OK a) →
  let n := length data in
  let k := ceil_sqrt n in
  ∃ ax,
    multiplot_raster glob_tif path_name read_masked rioshow
                     folder files arrays = OK ax ∧
    length ax = k * k ∧ n ≤ k * k ∧ k * k + 1 < n + 2 * k ∧
    (∀ i img, data !! i = Some img →
              ∃ a, shows img = OK a ∧ ax !! i = Some a) ∧
    (∀ i, n ≤ i → i < k * k → ax !! i = Some (set_axis_off new_axes)).
Proof.
  intros Hdata Hlen Hall n k.
  destruct (ceil_sqrt_spec n Hlen) as (Hk & Hfit & Hleast).
  fold k in Hk, Hfit, Hleast.
  assert (Hshown : ∃ shown, Forall2 (λ img a, shows img = OK a) data shown).
  { clear -Hall. induction data as [|img data IH]; [by exists []|].
    destruct (Hall img) as [a Ha]; [by left|].
    destruct IH as [shown Hshown]; [intros; apply Hall; by right|].
    exists (a :: shown). by constructor. }
  destruct Hshown as [shown Hshown].
  pose proof (Forall2_length _ _ _ Hshown) as Hlenshown.
  set (spare := k * k - n).
  exists (shown ++ replicate spare (set_axis_off new_axes)).
  split_and!.
  - unfold multiplot_raster. rewrite Hdata. cbn [rbind].
    fold n k. unfold plt_subplots.
    rewrite decide_False by lia. rewrite decide_False by lia.
    cbn [rbind flatten].
    replace (k * k) with (n + spare) by (unfold spare; lia).
    pose proof (plot_loop data shown [] spare Hshown) as Hloop.
    cbn [length app] in Hloop. fold n in Hloop. rewrite Hloop.
    cbn [rbind]. rewrite length_app, length_replicate.
    case_decide as Hspare.
    + rewrite take_app_length' by (unfold n; lia).
      rewrite drop_app_length' by (unfold n; lia).
      by rewrite fmap_replicate.
    + assert (spare = 0) as -> by lia. done.
  - rewrite length_app, length_replicate. unfold spare. lia.
  - done.
  - assert (k * k = (k - 1) * (k - 1) + 2 * k - 1) by nia. lia.
  - intros i img Hi.
    destruct (Forall2_lookup_l _ _ _ _ _ Hshown Hi) as (a & Ha & Hplot).
    exists a. split; [done|]. by apply lookup_app_l_Some.
  - intros i Hi Hik.
    rewrite lookup_app_r by lia.
    apply lookup_replicate_2. unfold spare. lia.
Qed.
End MultiplotFacts.

Lemma multiplot_raster_needs_two_witness :
  multiplot_raster PlotExample.no_files PlotExample.name
                   PlotExample.unreadable PlotExample.show
                   None None (Some [7]) =
  Raise AttributeError.
Proof.
  apply (multiplot_raster_needs_two PlotExample.no_files PlotExample.name
           PlotExample.unreadable PlotExample.show None None (Some [7])
           [inr 7]).
  - reflexivity.
  - simpl. lia.
Defined.

Lemma multiplot_raster_grid_witness :
  ∃ ax,
    multiplot_raster PlotExample.no_files PlotExample.name
                     PlotExample.unreadable PlotExample.show
                     None None (Some [7; 8; 9]) = OK ax ∧
    length ax = 2 * 2 ∧ 3 ≤ 2 * 2 ∧ 2 * 2 + 1 < 3 + 2 * 2 ∧
    (∀ i img, [inr 7; inr 8; inr 9] !! i = Some img →
              ∃ a, plotted PlotExample.name PlotExample.unreadable
                           PlotExample.show img = OK a ∧
                   ax !! i = Some a) ∧
    (∀ i, 3 ≤ i → i < 2 * 2 → ax !! i = Some (set_axis_off new_axes)).
Proof.
  apply (multiplot_raster_grid PlotExample.no_files PlotExample.name
           PlotExample.unreadable PlotExample.show None None
           (Some [7; 8; 9]) [inr 7; inr 8; inr 9]).
  - reflexivity.
  - simpl. lia.
  - intros img Himg.
    repeat (apply elem_of_cons in Himg as [->|Himg]; [eexists; reflexivity|]).
    by apply elem_of_nil in Himg.
Defined.

(** ** [download_layers]: what is fetched and what is skipped *)

Lemma contents_item_elem_of {C} (contents : list (string * C)) layer :
  layer ∈ contents.*1 →
  ∃ c, contents_item contents layer = OK c ∧ (layer, c) ∈ contents.
Proof.
  intros ((layer' & c) & -> & Hin)%list_elem_of_fmap. unfold contents_item.
  destruct (list_find (λ kv, kv.1 = (layer', c).1) contents)
    as [[i [l c']]|] eqn:Hfind.
  - apply list_find_Some in Hfind as (Hi & Heq & _). simpl in Heq. subst l.
    exists c'. split; [done|]. by eapply list_elem_of_lookup_2.
  - apply list_find_None in Hfind. rewrite Forall_forall in Hfind.
    by destruct (Hfind _ Hin).
Qed.

Section DownloadFacts.
Context {FS Bytes : Type}.
Variable path_exists : FS → string → bool.
Variable getCoverage : string → bbox → string → result Bytes.
Variable write_file : FS → string → Bytes → result FS.
Variable set_crs : FS → string → string → result FS.

Local Abbreviation fetch_all :=
  (download_layers path_exists getCoverage write_file set_crs).
Local Abbreviation fetch_one :=
  (download_layer path_exists getCoverage write_file set_crs).

Lemma skip_loop contents path (layers : list string) : ∀ results fs,
  (∀ layer, layer ∈ layers →
            path_exists fs (out_path_of path layer) = true) →
  for_each layers (fetch_one contents path true) (results, fs) =
  OK (results ++ (out_path_of path <$> layers), fs).
Proof.
  induction layers as [|layer layers IH]; intros results fs Hall.
  - simpl. by rewrite app_nil_r.
  - cbn [for_each]. unfold download_layer at 1.
    rewrite (Hall layer) by (by left). cbn [andb rbind].
    rewrite IH by (intros; apply Hall; by right).
    by rewrite fmap_cons, <-app_assoc.
Qed.

(** X17: With [skip_existing], layers whose files are all there are not
    fetched again: the paths of the files are returned, the file system
    stays as it is, and neither the catalogue nor the service is asked,
    so that even a layer the catalogue does not know passes. *)
Lemma download_layers_skips contents layers path fs :
  (∀ layer, layer ∈ layers →
            path_exists fs (out_path_of path layer) = true) →
  fetch_all contents layers path true fs =
  OK (out_path_of path <$> layers, fs).
Proof. intros Hall. unfold download_layers. by rewrite skip_loop. Qed.

Section Service.
Variable contents : list (string * coverage).
Variable path : string.
Variable skip_existing : bool.

Hypothesis boxes : ∀ layer c, (layer, c) ∈ contents → boundingboxes c ≠ [].
Hypothesis served : ∀ layer bbox crs, ∃ img, getCoverage layer bbox crs = OK img.
Hypothesis written : ∀ fs p img, ∃ fs', write_file fs p img = OK fs'.
Hypothesis tagged : ∀ fs p crs, ∃ fs', set_crs fs p crs = OK fs'.

Lemma download_layer_known results fs layer :
  layer ∈ contents.*1 →
  ∃ fs', fetch_one contents path skip_existing (results, fs) layer =
         OK (results ++ [out_path_of path layer], fs').
Proof.
  intros Hin. unfold download_layer.
  destruct (skip_existing && path_exists fs (out_path_of path layer));
    [eauto|].
  destruct (contents_item_elem_of contents layer Hin) as (c & -> & Hc).
  cbn [rbind]. unfold index.
  destruct (boundingboxes c) as [|box bs] eqn:Hb; [by destruct (boxes _ _ Hc)|].
  cbn [lookup list_lookup rbind]. unfold index_last.
  destruct (last (split_on "/"%char box.2)) as [crs|] eqn:Hlast.
  2:{ apply last_None in Hlast. by destruct (split_on_not_nil "/"%char box.2). }
  cbn [rbind].
  destruct (served layer box.1 ("EPSG:" +:+ crs)) as [img ->]. cbn [rbind].
  destruct (written fs (out_path_of path layer) img) as [fs1 ->].
  cbn [rbind].
  destruct (tagged fs1 (out_path_of path layer) crs) as [fs2 ->].
  cbn [rbind]. eauto.
Qed.

Lemma download_loop_known (layers : list string) : ∀ results fs,
  layers ⊆ contents.*1 →
  ∃ fs', for_each layers (fetch_one contents path skip_existing)
                  (results, fs) =
         OK (results ++ (out_path_of path <$> layers), fs').
Proof.
  induction layers as [|layer layers IH]; intros results fs Hsub.
  - exists fs. simpl. by rewrite app_nil_r.
  - cbn [for_each].
    destruct (download_layer_known results fs layer) as [fs1 ->].
    { apply Hsub. by left. }
    cbn [rbind].
    destruct (IH (results ++ [out_path_of path layer]) fs1) as [fs2 ->].
    { intros l Hl. apply Hsub. by right. }
    exists fs2. by rewrite fmap_cons, <-app_assoc.
Qed.

(** X18: The layers [get_layers] selects can be handed to
    [download_layers] as they are: every one of them is found in the
    catalogue, so that, the service answering and the files being
    written, the call returns one path per selected layer, in the
    order of the catalogue. *)
Lemma download_layers_of_get_layers resolutions fs :
  ∃ layers fs',
    get_layers contents resolutions = OK layers ∧
    fetch_all contents layers path skip_existing fs =
      OK (out_path_of path <$> layers, fs').
Proof.
  exists (filter (selected resolutions) (contents.*1)).
  destruct (download_loop_known
              (filter (selected resolutions) (contents.*1)) [] fs)
    as [fs' Hloop].
  { intros l [_ Hl]%list_elem_of_filter. done. }
  exists fs'. split; [apply get_layers_filter|].
  unfold download_layers. by rewrite Hloop.
Qed.
End Service.
End DownloadFacts.

Lemma download_layers_skips_witness :
  download_layers DownloadExample.exists_in DownloadExample.fetch
                  DownloadExample.write DownloadExample.tag
                  DownloadExample.catalogue ["dem_500m"; "unknown_500m"] "raw"
                  true {["raw/dem_500m.tif"; "raw/unknown_500m.tif"]} =
  OK (["raw/dem_500m.tif"; "raw/unknown_500m.tif"],
      {["raw/dem_500m.tif"; "raw/unknown_500m.tif"]}).
Proof.
  apply (download_layers_skips DownloadExample.exists_in DownloadExample.fetch
           DownloadExample.write DownloadExample.tag
           DownloadExample.catalogue ["dem_500m"; "unknown_500m"] "raw"
           {["raw/dem_500m.tif"; "raw/unknown_500m.tif"]}).
  intros layer Hin.
  repeat (apply elem_of_cons in Hin as [->|Hin]; [vm_compute; reflexivity|]).
  by apply elem_of_nil in Hin.
Defined.

Lemma download_layers_of_get_layers_witness :
  ∃ layers fs',
    get_layers DownloadExample.catalogue default_resolutions = OK layers ∧
    download_layers DownloadExample.exists_in DownloadExample.fetch
                    DownloadExample.write DownloadExample.tag
                    DownloadExample.catalogue layers "raw" true ∅ =
      OK (out_path_of "raw" <$> layers, fs').
Proof.
  apply (download_layers_of_get_layers DownloadExample.exists_in
           DownloadExample.fetch DownloadExample.write DownloadExample.tag
           DownloadExample.catalogue "raw" true).
  - intros layer c Hin. unfold DownloadExample.catalogue in Hin.
    repeat (apply elem_of_cons in Hin as [[= -> ->]|Hin];
            [simpl; discriminate|]).
    by apply elem_of_nil in Hin.
  - intros layer bbox crs. eexists. reflexivity.
  - intros fs p img. eexists. reflexivity.
  - intros fs p crs. eexists. reflexivity.
Defined.

(** ** [to_postgis]: what the call leaves of the caller's table *)

Lemma lower_char_idemp (a : Ascii.ascii) :
  lower_char (lower_char a) = lower_char a.
Proof. destruct a as [[] [] [] [] [] [] [] []]; reflexivity. Qed.

Lemma lower_idemp (s : string) : lower (lower s) = lower s.
Proof.
  induction s as [|a s IH]; [done|]. simpl. by rewrite lower_char_idemp, IH.
Qed.

Lemma set_column_elem_of {V} c (values : list V) (df : DataFrame V) :
  c ∈ columns (set_column c values df).
Proof.
  unfold set_column. case_decide; simpl; [done|].
  apply elem_of_app. right. by left.
Qed.

Section ToPostgisFacts.
Context {G : Type}.
Local Abbreviation store := (gmap loc (GeoTable G)).

Variable wkt_of : G → string.
Variable crs_of : GeoTable G → result (option Z).
Variable crs_to_epsg : option Z → result (option Z).
Variable to_crs : GeoTable G → Z → result (GeoTable G).
Variable apply_to_frame : DataFrame (sqlvalue G) → Z → result (list (sqlvalue G)).
Variable to_sql :
  DataFrame (sqlvalue G) → string → string → string → string → Z →
  result unit.

Local Abbreviation upload :=
  (to_postgis wkt_of crs_of crs_to_epsg to_crs apply_to_frame to_sql).

(** A call that returns has written a table under the reference it was
    given. *)
Lemma to_postgis_inv (gdf : loc) name epsg if_exists schema feature_type
    (h h' : store) ok :
  upload gdf name epsg if_exists schema feature_type h = OK (ok, h') →
  ∃ t t0 geom frame,
    h !! gdf = Some t ∧
    drop_columns {["geometry"]}
      (mkDF (lower <$> columns (set_column "geom" geom (gt_frame t0)))
            (rows (set_column "geom" geom (gt_frame t0)))) = OK frame ∧
    h' = <[gdf := mkGT frame (gt_crs t0)]> h.
Proof.
  unfold to_postgis. intros Hrun.
  destruct (h !! gdf) as [t|]; [|done].
  inv_rbind Hrun. inv_rbind Hrun. inv_rbind Hrun. inv_rbind Hrun.
  inv_rbind Hrun.
  exists t, a1, a2, a3. split; [done|]. split; [done|].
  destruct (to_sql a3 name schema if_exists feature_type epsg) as [[]|[]];
    by simplify_eq.
Qed.

(** X19: Whether the upload succeeds ([True]) or the database refuses it
    ([False]), the table the caller passed is no longer what it was: it
    has lost every column labelled [geometry], carries a column [geom],
    and its labels are in lower case; no other object is touched. *)
Lemma to_postgis_in_place (gdf : loc) name epsg if_exists schema
    feature_type (h h' : store) ok :
  upload gdf name epsg if_exists schema feature_type h = OK (ok, h') →
  ∃ t t',
    h !! gdf = Some t ∧ h' !! gdf = Some t' ∧
    ("geometry" ∉ columns (gt_frame t')) ∧
    "geom" ∈ columns (gt_frame t') ∧
    (∀ c, c ∈ columns (gt_frame t') → lower c = c) ∧
    (∀ l, l ≠ gdf → h' !! l = h !! l).
Proof.
  intros (t & t0 & geom & frame & Ht & Hdrop & ->)%to_postgis_inv.
  pose proof (λ c, drop_columns_labels _ _ _ c Hdrop) as Hcols.
  simpl in Hcols.
  exists t, (mkGT frame (gt_crs t0)). split_and!.
  - done.
  - apply lookup_insert_eq.
  - simpl. rewrite Hcols. intros [_ Hn]. apply Hn. by apply elem_of_singleton.
  - simpl. rewrite Hcols. split; [|by intros Hin%elem_of_singleton].
    apply list_elem_of_fmap. exists "geom". split; [done|].
    apply set_column_elem_of.
  - intros c [(c0 & -> & _)%list_elem_of_fmap _]%Hcols.
    apply lower_idemp.
  - intros l Hl. by rewrite lookup_insert_ne.
Qed.

End ToPostgisFacts.

(** The database refuses the example table, and the table has changed. *)
Lemma UploadExample_run :
  to_postgis UploadExample.wkt UploadExample.crs_of UploadExample.epsg_of
             UploadExample.moved UploadExample.no_frame
             UploadExample.refused
             0 "regions" 3035 "fail" "processed" "POLYGON"
             UploadExample.store =
  OK (false, {[ 0 := mkGT UploadExample.regions_left (Some 3035%Z) ]}).
Proof. vm_compute. reflexivity. Qed.

(** The second call on the example table: where [gdf.crs] raises for want
    of a geometry column it stops there, where it does not it stops at
    [gdf['geometry']]. *)
Lemma UploadExample_again :
  to_postgis UploadExample.wkt UploadExample.crs_of UploadExample.epsg_of
             UploadExample.moved UploadExample.no_frame
             UploadExample.refused
             0 "regions" 3035 "replace" "processed" "POLYGON"
             {[ 0 := mkGT UploadExample.regions_left (Some 3035%Z) ]} =
    Raise AttributeError ∧
  to_postgis UploadExample.wkt UploadExample.crs_kept UploadExample.epsg_of
             UploadExample.moved UploadExample.no_frame
             UploadExample.refused
             0 "regions" 3035 "replace" "processed" "POLYGON"
             {[ 0 := mkGT UploadExample.regions_left (Some 3035%Z) ]} =
    Raise KeyError.
Proof. split; vm_compute; reflexivity. Qed.

Lemma to_postgis_in_place_witness :
  ∃ t t',
    UploadExample.store !! 0 = Some t ∧
    ({[ 0 := mkGT UploadExample.regions_left (Some 3035%Z) ]}
       : gmap loc (GeoTable Transect.geom1)) !! 0 = Some t' ∧
    ("geometry" ∉ columns (gt_frame t')) ∧
    "geom" ∈ columns (gt_frame t') ∧
    (∀ c, c ∈ columns (gt_frame t') → lower c = c) ∧
    (∀ l, l ≠ 0 →
       ({[ 0 := mkGT UploadExample.regions_left (Some 3035%Z) ]}
          : gmap loc (GeoTable Transect.geom1)) !! l =
       UploadExample.store !! l).
Proof.
  apply (to_postgis_in_place UploadExample.wkt UploadExample.crs_of
           UploadExample.epsg_of UploadExample.moved UploadExample.no_frame
           UploadExample.refused
           0 "regions" 3035 "fail" "processed" "POLYGON"
           UploadExample.store _ false).
  exact UploadExample_run.
Defined.

